(** * XPath pattern picker: path codec, pattern matcher, evaluator, selection engine

    A shallow embedding of the content script of the XPath extractor
    extension ([generateAbsoluteXPath], [parseXPathToSegments],
    [parseSegment], [compareXPaths], [detect2DPattern], [updatePattern],
    [findMatchingElements], [collectElementsWithWildcard], [extractData],
    [extract2DData], the click handlers), followed by the properties of the
    specification stated on it.

    Conventions of the model.
    - A JavaScript string is a [string]; the scripts only inspect ASCII
      characters (slash, brackets, digits, star, quote).
    - A JavaScript number that holds a sibling index is an [N]: exact
      integer arithmetic, which is what IEEE doubles give below 2^53.
    - [null] and [undefined] are [None].
    - An array is a [list]; [push] appends at the end. *)

From Stdlib Require Import String Ascii List Bool Arith NArith Lia.
From Stdlib Require Import DecimalString DecimalN.
From Stdlib Require Import Sorting.Sorted Sorting.Permutation.
Import ListNotations.
Open Scope list_scope.
Open Scope string_scope.

Set Warnings "-register-all".

(* ===================================================================== *)
(** ** JavaScript strings *)
(* ===================================================================== *)

Module JsString.

Definition slash : ascii := "/"%char.

(** The double quote character, built from its code. *)
Definition dquote : ascii := ascii_of_nat 34.

Definition inRange (lo hi c : ascii) : bool :=
  (N_of_ascii lo <=? N_of_ascii c)%N && (N_of_ascii c <=? N_of_ascii hi)%N.

(** [\d] (no unicode flag): the ten ASCII digits. *)
Definition isDigit (c : ascii) : bool := inRange "0" "9" c.

(** The class [[a-zA-Z0-9_-]]. *)
Definition isTagChar (c : ascii) : bool :=
  inRange "a" "z" c || inRange "A" "Z" c || isDigit c
  || (c =? "_")%char || (c =? "-")%char.

Definition isEmpty (s : string) : bool :=
  match s with EmptyString => true | String _ _ => false end.

(** Longest prefix whose characters satisfy [p], and what follows it. *)
Fixpoint span (p : ascii -> bool) (s : string) : string * string :=
  match s with
  | EmptyString => (EmptyString, EmptyString)
  | String c s' =>
      if p c then let (a, b) := span p s' in (String c a, b)
      else (EmptyString, s)
  end.

(** Every character satisfies [p]. *)
Fixpoint allChars (p : ascii -> bool) (s : string) : bool :=
  match s with
  | EmptyString => true
  | String c rest => p c && allChars p rest
  end.

(** [s.split(sep)] for a one-character separator: never the empty array,
    [split sep ""] is the array holding the empty string. *)
Fixpoint split (sep : ascii) (s : string) : list string :=
  match s with
  | EmptyString => [EmptyString]
  | String c s' =>
      if (c =? sep)%char then EmptyString :: split sep s'
      else match split sep s' with
           | piece :: pieces => String c piece :: pieces
           | [] => [String c EmptyString]
           end
  end.

(** [pieces.join(sep)]. *)
Fixpoint join (sep : string) (pieces : list string) : string :=
  match pieces with
  | [] => EmptyString
  | [piece] => piece
  | piece :: rest => piece ++ sep ++ join sep rest
  end.

(** [s.startsWith(p)] and what follows the prefix. *)
Fixpoint stripPrefix (p s : string) : option string :=
  match p, s with
  | EmptyString, _ => Some s
  | String a p', String b s' =>
      if (a =? b)%char then stripPrefix p' s' else None
  | String _ _, EmptyString => None
  end.

(** [s.includes(needle)]. *)
Fixpoint includes (needle s : string) : bool :=
  match stripPrefix needle s with
  | Some _ => true
  | None =>
      match s with
      | EmptyString => false
      | String _ s' => includes needle s'
      end
  end.

(** [s.replace(needle, by)] with a string pattern: the first occurrence
    only. *)
Fixpoint replaceFirst (needle by_ s : string) : string :=
  match stripPrefix needle s with
  | Some rest => by_ ++ rest
  | None =>
      match s with
      | EmptyString => EmptyString
      | String c s' => String c (replaceFirst needle by_ s')
      end
  end.

(** [parseInt(digits, 10)] on a string of decimal digits. *)
Definition parseInt (digits : string) : N :=
  match NilEmpty.uint_of_string digits with
  | Some d => N.of_uint d
  | None => 0%N
  end.

(** The string a template literal prints for a non-negative integer. *)
Definition ofNumber (n : N) : string := NilZero.string_of_uint (N.to_uint n).

End JsString.

Import JsString.

(* ===================================================================== *)
(** ** PathCodec: splitting a path and parsing a segment *)
(* ===================================================================== *)

(** [xpath.replace(/^\/+/, "")]. *)
Fixpoint dropLeadingSlashes (xpath : string) : string :=
  match xpath with
  | String c rest => if (c =? slash)%char then dropLeadingSlashes rest else xpath
  | EmptyString => EmptyString
  end.

(** [parseXPathToSegments]: strip the leading slashes, split at every slash,
    keep the non-empty pieces. *)
Definition parseXPathToSegments (xpath : string) : list string :=
  let cleaned := dropLeadingSlashes xpath in
  filter (fun segment => negb (isEmpty segment)) (split slash cleaned).

(** What [parseSegment] returns: [{ tag, index }], with an [id] as well for
    an id-reference segment. *)
Record Segment := mkSegment {
  tag : string;
  index : option N;
  id : option string
}.

(** [segment.match(/^([a-zA-Z0-9_-]+)(?:\[(\d+)\])?$/)]: the two capture
    groups, the second absent when the bracket part is.  The first group
    cannot stop early: the character after it must be an opening bracket or
    the end, and neither is in the class. *)
Definition matchTagIndex (segment : string) : option (string * option string) :=
  let (name, rest) := span isTagChar segment in
  if isEmpty name then None
  else match rest with
       | EmptyString => Some (name, None)
       | String c rest' =>
           if (c =? "[")%char then
             let (digits, closing) := span isDigit rest' in
             if negb (isEmpty digits) && (closing =? "]")
             then Some (name, Some digits)
             else None
           else None
       end.

(** The class of every character but the double quote. *)
Definition noQuote (c : ascii) : bool := negb (c =? dquote)%char.

(** The text [*[@id=] followed by a double quote. *)
Definition idRefOpen : string := "*[@id=" ++ String dquote EmptyString.

(** A double quote followed by a closing bracket. *)
Definition idRefClose : string := String dquote "]".

(** The second [segment.match] of [parseSegment]: a star, an opening
    bracket, [@id=], a quoted non-empty value that holds no quote, a closing
    bracket, and nothing else.  The result is the capture group. *)
Definition matchIdRef (segment : string) : option string :=
  match stripPrefix idRefOpen segment with
  | None => None
  | Some rest =>
      let (value, closing) := span noQuote rest in
      if negb (isEmpty value) && (closing =? idRefClose) then Some value
      else None
  end.

(** [parseSegment]. *)
Definition parseSegment (segment : string) : Segment :=
  match matchTagIndex segment with
  | Some (name, digits) =>
      {| tag := name; index := option_map parseInt digits; id := None |}
  | None =>
      match matchIdRef segment with
      | Some value => {| tag := "*"; index := None; id := Some value |}
      | None => {| tag := segment; index := None; id := None |}
      end
  end.

(** [a !== b] on two values that are a number or [null]. *)
Definition indexDiffers (a b : option N) : bool :=
  match a, b with
  | Some x, Some y => negb (x =? y)%N
  | None, None => false
  | _, _ => true
  end.

Definition notNull {A : Type} (a : option A) : bool :=
  match a with Some _ => true | None => false end.

(** The three template literals that build a pattern segment. *)
Definition wildcardSegment (parsed : Segment) : string := tag parsed ++ "[*]".

Definition literalSegment (parsed : Segment) : string :=
  match index parsed with
  | Some n => tag parsed ++ "[" ++ ofNumber n ++ "]"
  | None => tag parsed
  end.

(* ===================================================================== *)
(** ** PatternMatcher: [compareXPaths] and [detect2DPattern] *)
(* ===================================================================== *)

(** [{ pattern, variableIndices, isValid }]. *)
Record CompareResult := mkCompareResult {
  pattern : option string;
  variableIndices : list nat;
  isValid : bool
}.

Definition notComparable : CompareResult :=
  {| pattern := None; variableIndices := []; isValid := false |}.

(** Both indices are numbers and they differ. *)
Definition indexVaries (parsed1 parsed2 : Segment) : bool :=
  indexDiffers (index parsed1) (index parsed2)
  && notNull (index parsed1) && notNull (index parsed2).

(** The loop of [compareXPaths] from position [i] on, over the segments
    that are left, with the two arrays it pushes to.  [None] is the early
    [return] on a tag mismatch. *)
Fixpoint compareLoop (i : nat) (segments1 segments2 : list string)
    (patternSegments : list string) (varIndices : list nat)
    : option (list string * list nat) :=
  match segments1, segments2 with
  | segment1 :: rest1, segment2 :: rest2 =>
      let parsed1 := parseSegment segment1 in
      let parsed2 := parseSegment segment2 in
      if negb (tag parsed1 =? tag parsed2) then None
      else if indexVaries parsed1 parsed2 then
        compareLoop (S i) rest1 rest2
          (patternSegments ++ [wildcardSegment parsed1])%list
          (varIndices ++ [i])%list
      else
        compareLoop (S i) rest1 rest2
          (patternSegments ++ [literalSegment parsed1])%list
          varIndices
  | _, _ => Some (patternSegments, varIndices)
  end.

(** [compareXPaths]. *)
Definition compareXPaths (xpath1 xpath2 : string) : CompareResult :=
  let segments1 := parseXPathToSegments xpath1 in
  let segments2 := parseXPathToSegments xpath2 in
  if negb (List.length segments1 =? List.length segments2)%nat then notComparable
  else
    match compareLoop 0 segments1 segments2 [] [] with
    | None => notComparable
    | Some (patternSegments, varIndices) =>
        if (List.length varIndices =? 0)%nat then notComparable
        else {| pattern := Some ("/" ++ join "/" patternSegments);
                variableIndices := varIndices;
                isValid := true |}
    end.


(** [{ pattern, variableIndices, isValid, is2D }]. *)
Record Detect2DResult := mkDetect2DResult {
  pattern2D : option string;
  variableIndices2D : list nat;
  isValid2D : bool;
  is2D : bool
}.

Definition notDetected : Detect2DResult :=
  {| pattern2D := None; variableIndices2D := []; isValid2D := false;
     is2D := false |}.

(** [indices.includes(i)]. *)
Definition includesIndex (indices : list nat) (i : nat) : bool :=
  existsb (Nat.eqb i) indices.

(** The loop of [detect2DPattern] from position [i] on.  The tag test comes
    first in the body, before the test on [existingVariableIndices]. *)
Fixpoint detectLoop (existingVariableIndices : list nat) (i : nat)
    (patternSegments newSegments : list string)
    (resultSegments : list string) (resultVariableIndices : list nat)
    (newVariableFound : bool)
    : option (list string * list nat * bool) :=
  match patternSegments, newSegments with
  | segment1 :: rest1, segment2 :: rest2 =>
      let parsed1 := parseSegment segment1 in
      let parsed2 := parseSegment segment2 in
      if negb (tag parsed1 =? tag parsed2) then None
      else if includesIndex existingVariableIndices i then
        detectLoop existingVariableIndices (S i) rest1 rest2
          (resultSegments ++ [wildcardSegment parsed1])%list
          resultVariableIndices newVariableFound
      else if notNull (index parsed1) && notNull (index parsed2)
              && indexDiffers (index parsed1) (index parsed2) then
        detectLoop existingVariableIndices (S i) rest1 rest2
          (resultSegments ++ [wildcardSegment parsed1])%list
          (resultVariableIndices ++ [i])%list true
      else
        detectLoop existingVariableIndices (S i) rest1 rest2
          (resultSegments ++ [literalSegment parsed1])%list
          resultVariableIndices newVariableFound
  | _, _ => Some (resultSegments, resultVariableIndices, newVariableFound)
  end.

(** [detect2DPattern]. *)
Definition detect2DPattern (existingPattern : string)
    (existingVariableIndices : list nat) (newXPath : string) : Detect2DResult :=
  let patternSegments := parseXPathToSegments existingPattern in
  let newSegments := parseXPathToSegments newXPath in
  if negb (List.length patternSegments =? List.length newSegments)%nat
  then notDetected
  else
    match detectLoop existingVariableIndices 0 patternSegments newSegments
            [] existingVariableIndices false with
    | None => notDetected
    | Some (resultSegments, resultVariableIndices, newVariableFound) =>
        if negb newVariableFound then
          {| pattern2D := Some existingPattern;
             variableIndices2D := existingVariableIndices;
             isValid2D := true;
             is2D := (2 <=? List.length resultVariableIndices)%nat |}
        else
          {| pattern2D := Some ("/" ++ join "/" resultSegments);
             variableIndices2D := resultVariableIndices;
             isValid2D := true;
             is2D := (2 <=? List.length resultVariableIndices)%nat |}
    end.

(* ===================================================================== *)
(** ** The document tree *)
(* ===================================================================== *)

(** An element of the document, as the scripts read it: [tagName] already
    lower-cased (every use in the scripts goes through [toLowerCase]), the
    [id] attribute (empty when absent), the class list, the text content,
    and [children], the element children in document order. *)
Inductive Element := mkElement {
  tagName : string;
  elementId : string;
  classList : list string;
  textContent : string;
  children : list Element
}.

(** A snapshot of the page: the tree under [document.documentElement], and
    the trees that scripts have removed from the document and that the
    picker may still hold references to. *)
Record Dom := mkDom {
  documentElement : Element;
  detached : list Element
}.

Inductive Root := InDocument | Detached (k : nat).

(** A reference held by the scripts.  An element is named by the tree it
    lives in and by the child positions on the way up from the element to
    the root of that tree, the element's own position first: the parent of
    [ElementNode r (i :: up)] is [ElementNode r up], and its [i]-th child is
    [ElementNode r (j :: i :: up)] for position [j]. *)
Inductive Node :=
| NullNode
| DocumentNode
| ElementNode (root : Root) (up : list nat).

Definition Root_eqb (a b : Root) : bool :=
  match a, b with
  | InDocument, InDocument => true
  | Detached j, Detached k => (j =? k)%nat
  | _, _ => false
  end.

Fixpoint positions_eqb (a b : list nat) : bool :=
  match a, b with
  | [], [] => true
  | i :: a', j :: b' => (i =? j)%nat && positions_eqb a' b'
  | _, _ => false
  end.

(** [a === b] on references. *)
Definition Node_eqb (a b : Node) : bool :=
  match a, b with
  | NullNode, NullNode => true
  | DocumentNode, DocumentNode => true
  | ElementNode r up, ElementNode r' up' => Root_eqb r r' && positions_eqb up up'
  | _, _ => false
  end.

Definition rootElement (d : Dom) (r : Root) : option Element :=
  match r with
  | InDocument => Some (documentElement d)
  | Detached k => nth_error (detached d) k
  end.

(** Follow child positions downwards from [e]. *)
Fixpoint descend (e : Element) (down : list nat) : option Element :=
  match down with
  | [] => Some e
  | i :: rest =>
      match nth_error (children e) i with
      | Some child => descend child rest
      | None => None
      end
  end.

(** The element a reference denotes in the snapshot, if any. *)
Definition elementAt (d : Dom) (n : Node) : option Element :=
  match n with
  | ElementNode r up =>
      match rootElement d r with
      | Some e => descend e (rev up)
      | None => None
      end
  | _ => None
  end.

Definition documentElementNode : Node := ElementNode InDocument [].

(** [node.parentNode]. *)
Definition parentNode (n : Node) : Node :=
  match n with
  | ElementNode r (_ :: up) => ElementNode r up
  | ElementNode InDocument [] => DocumentNode
  | _ => NullNode
  end.

(** [element.tagName.toLowerCase()]. *)
Definition tagNameAt (d : Dom) (n : Node) : string :=
  match elementAt d n with
  | Some e => tagName e
  | None => EmptyString
  end.

(** The elements under [node.children], for an element reference. *)
Definition childElements (d : Dom) (n : Node) : list Element :=
  match elementAt d n with
  | Some e => children e
  | None => []
  end.

(** [node.children] as references: the document has one child, its
    document element. *)
Definition childNodes (d : Dom) (n : Node) : list Node :=
  match n with
  | DocumentNode => [documentElementNode]
  | ElementNode r up =>
      map (fun i => ElementNode r (i :: up))
          (seq 0 (List.length (childElements d n)))
  | NullNode => []
  end.

Fixpoint findPosition {A : Type} (p : A -> bool) (l : list A) : option nat :=
  match l with
  | [] => None
  | x :: rest =>
      if p x then Some 0%nat else option_map S (findPosition p rest)
  end.

Definition isBodyTag (name : string) : bool :=
  (name =? "body") || (name =? "frameset").

(** [document.body]: the first child of the [html] document element that is
    a [body] or a [frameset], [null] when there is none or when the document
    element is not [html]. *)
Definition body (d : Dom) : Node :=
  if tagName (documentElement d) =? "html" then
    match findPosition (fun c => isBodyTag (tagName c))
            (children (documentElement d)) with
    | Some i => ElementNode InDocument [i]
    | None => NullNode
    end
  else NullNode.

(* ===================================================================== *)
(** ** PathCodec: from a node to its path *)
(* ===================================================================== *)

(** The sibling loop of [generateAbsoluteXPath]: walk [siblings] until the
    one at [position] (the element itself, where the loop breaks) and count
    the earlier ones with the same tag name. *)
Fixpoint countSameTagBefore (siblings : list Element) (position : nat)
    (name : string) (index : N) : N :=
  match siblings, position with
  | [], _ => index
  | _ :: _, O => index
  | sibling :: rest, S position' =>
      countSameTagBefore rest position' name
        (if negb (isEmpty (tagName sibling)) && (tagName sibling =? name)
         then (index + 1)%N else index)
  end.

(** [generateAbsoluteXPath] on an element reference, by recursion on the way
    up to the root. *)
Fixpoint absoluteXPathOfElement (d : Dom) (r : Root) (up : list nat) : string :=
  let element := ElementNode r up in
  if Node_eqb element (body d) then "/html/body"
  else
    match up with
    | [] =>
        if Node_eqb element documentElementNode then "/html" else EmptyString
    | position :: up' =>
        let siblings := childElements d (ElementNode r up') in
        let name := tagNameAt d element in
        let index := countSameTagBefore siblings position name 1%N in
        let parentXPath := absoluteXPathOfElement d r up' in
        parentXPath ++ "/" ++ name ++ "[" ++ ofNumber index ++ "]"
    end.

(** [generateAbsoluteXPath].  On [null] the first test compares [null] with
    [document.body]; the document itself has no parent node. *)
Definition generateAbsoluteXPath (d : Dom) (element : Node) : string :=
  match element with
  | NullNode => if Node_eqb NullNode (body d) then "/html/body" else EmptyString
  | DocumentNode => EmptyString
  | ElementNode r up => absoluteXPathOfElement d r up
  end.

(** The element part of [generateXPath]: the short id form when the element
    has an id that does not start with a digit, otherwise as
    [generateAbsoluteXPath] with the recursion going through [generateXPath]
    again. *)
Definition startsWithDigit (s : string) : bool :=
  match s with
  | String c _ => isDigit c
  | EmptyString => false
  end.

Fixpoint xpathOfElement (d : Dom) (r : Root) (up : list nat) : string :=
  let element := ElementNode r up in
  let idAttr := match elementAt d element with
                | Some e => elementId e
                | None => EmptyString
                end in
  if negb (isEmpty idAttr) && negb (startsWithDigit idAttr) then
    "//" ++ idRefOpen ++ idAttr ++ idRefClose
  else if Node_eqb element (body d) then "/html/body"
  else
    match up with
    | [] =>
        if Node_eqb element documentElementNode then "/html" else EmptyString
    | position :: up' =>
        let siblings := childElements d (ElementNode r up') in
        let name := tagNameAt d element in
        let index := countSameTagBefore siblings position name 1%N in
        let parentXPath := xpathOfElement d r up' in
        parentXPath ++ "/" ++ name ++ "[" ++ ofNumber index ++ "]"
    end.

(* ===================================================================== *)
(** ** Outcomes of a call *)
(* ===================================================================== *)

(** How a call can end abruptly.  [TypeError] is a property read on [null]
    or [undefined], [RangeError] an exhausted call stack.  The last two are
    the failures the specification names; no statement of the scripts
    raises them. *)
Inductive Failure :=
| TypeError
| RangeError
| DetachedNodeError
| MalformedSegmentError.

Inductive Outcome (A : Type) :=
| Returned (value : A)
| Thrown (failure : Failure).

Arguments Returned {A} value.
Arguments Thrown {A} failure.

Definition bind {A B : Type} (o : Outcome A) (k : A -> Outcome B) : Outcome B :=
  match o with
  | Returned v => k v
  | Thrown f => Thrown f
  end.

Notation "'let*' x ':=' o 'in' k" := (bind o (fun x => k))
  (at level 10, x name, o at level 100, k at level 200).

(** A call of [parseSegment]: on a string it returns what [parseSegment]
    computes, the function having no [throw] and its two [match] calls and
    [parseInt] raising nothing; on [undefined] the first [segment.match]
    throws. *)
Definition callParseSegment (segment : option string) : Outcome Segment :=
  match segment with
  | Some s => Returned (parseSegment s)
  | None => Thrown TypeError
  end.

(** A call of [generateAbsoluteXPath]: the function has no [throw], and on
    every reference it returns a string. *)
Definition callGenerateAbsoluteXPath (d : Dom) (element : Node)
    : Outcome string :=
  Returned (generateAbsoluteXPath d element).

(** [generateXPath]: reading [element.id] on [null] throws. *)
Definition generateXPath (d : Dom) (element : Node) : Outcome string :=
  match element with
  | NullNode => Thrown TypeError
  | DocumentNode => Returned EmptyString
  | ElementNode r up => Returned (xpathOfElement d r up)
  end.

(* ===================================================================== *)
(** ** PatternEvaluator *)
(* ===================================================================== *)

(** [child.tagName && child.tagName.toLowerCase() === name]. *)
Definition hasTag (d : Dom) (name : string) (child : Node) : bool :=
  negb (isEmpty (tagNameAt d child)) && (tagNameAt d child =? name).

(** The wildcard loop: every child with the tag, in child order, each
    sub-result concatenated to [results]. *)
Fixpoint wildcardLoop (d : Dom) (recurse : Node -> Outcome (list Node))
    (name : string) (childList : list Node) (results : list Node)
    : Outcome (list Node) :=
  match childList with
  | [] => Returned results
  | child :: rest =>
      if hasTag d name child then
        let* subResults := recurse child in
        wildcardLoop d recurse name rest (results ++ subResults)%list
      else wildcardLoop d recurse name rest results
  end.

(** The fixed-index loop: count the children with the tag, recurse into the
    one that brings the count to [targetIndex], and break. *)
Fixpoint fixedLoop (d : Dom) (recurse : Node -> Outcome (list Node))
    (name : string) (targetIndex : N) (childList : list Node) (count : N)
    (results : list Node) : Outcome (list Node) :=
  match childList with
  | [] => Returned results
  | child :: rest =>
      if hasTag d name child then
        let count' := (count + 1)%N in
        if (count' =? targetIndex)%N then
          let* subResults := recurse child in
          Returned (results ++ subResults)%list
        else fixedLoop d recurse name targetIndex rest count' results
      else fixedLoop d recurse name targetIndex rest count results
  end.

(** [index || 1]: [null] and zero give one. *)
Definition indexOrOne (i : option N) : N :=
  match i with
  | Some 0%N | None => 1%N
  | Some n => n
  end.

(** [collectElementsWithWildcard] on the segments from [segmentIndex] on. *)
Fixpoint collectRemaining (d : Dom) (remaining : list string)
    (currentNode : Node) : Outcome (list Node) :=
  match remaining with
  | [] =>
      Returned (if Node_eqb currentNode DocumentNode then [] else [currentNode])
  | segment :: rest =>
      let parsed := parseSegment (replaceFirst "[*]" "[1]" segment) in
      let isWildcard := includes "[*]" segment in
      if (segment =? "html") && Node_eqb currentNode DocumentNode then
        collectRemaining d rest documentElementNode
      else if (segment =? "body") && Node_eqb currentNode documentElementNode
      then collectRemaining d rest (body d)
      else
        match currentNode with
        | NullNode => Thrown TypeError
        | _ =>
            let childList := childNodes d currentNode in
            if isWildcard then
              wildcardLoop d (collectRemaining d rest) (tag parsed) childList []
            else
              fixedLoop d (collectRemaining d rest) (tag parsed)
                (indexOrOne (index parsed)) childList 0%N []
        end
  end.

(** [collectElementsWithWildcard]. *)
Definition collectElementsWithWildcard (d : Dom) (segments : list string)
    (segmentIndex : nat) (currentNode : Node) : Outcome (list Node) :=
  collectRemaining d (skipn segmentIndex segments) currentNode.

(** *** The host's XPath evaluator

    [document.evaluate] belongs to the browser, not to the scripts.  It is
    modelled on the location paths [generateAbsoluteXPath] prints: a slash
    before every step, a step being a name test, alone or followed by one
    numeric predicate.  A name test selects the element children with that
    name in document order; the predicate [[n]] keeps the [n]-th of them.
    Names are lower-case ASCII names.  Any other expression is outside the
    model, which answers with no node, as [findMatchingElements] does when
    the evaluator throws. *)

Definition isNameStart (c : ascii) : bool :=
  inRange "a" "z" c || (c =? "_")%char.

Definition isNameChar (c : ascii) : bool :=
  isNameStart c || isDigit c || (c =? "-")%char || (c =? ".")%char.

Definition isName (s : string) : bool :=
  match s with
  | String c rest => isNameStart c && allChars isNameChar rest
  | EmptyString => false
  end.

Record Step := mkStep {
  nameTest : string;
  positionTest : option N
}.

Definition parseStep (s : string) : option Step :=
  let (name, rest) := span isNameChar s in
  if isName name then
    match rest with
    | EmptyString => Some {| nameTest := name; positionTest := None |}
    | String c rest' =>
        if (c =? "[")%char then
          let (digits, closing) := span isDigit rest' in
          if negb (isEmpty digits) && (closing =? "]")
          then Some {| nameTest := name;
                       positionTest := Some (parseInt digits) |}
          else None
        else None
    end
  else None.

Fixpoint parseSteps (pieces : list string) : option (list Step) :=
  match pieces with
  | [] => Some []
  | piece :: rest =>
      match parseStep piece, parseSteps rest with
      | Some st, Some sts => Some (st :: sts)
      | _, _ => None
      end
  end.

Definition parseLocationPath (expression : string) : option (list Step) :=
  match expression with
  | String c rest =>
      if (c =? slash)%char then parseSteps (split slash rest) else None
  | EmptyString => None
  end.

(** The [n]-th item, counting from one. *)
Definition nthFromOne {A : Type} (l : list A) (n : N) : list A :=
  match n with
  | 0%N => []
  | _ => match nth_error l (N.to_nat n - 1) with
         | Some x => [x]
         | None => []
         end
  end.

Definition selectStep (d : Dom) (st : Step) (context : Node) : list Node :=
  let named := filter (fun child => tagNameAt d child =? nameTest st)
                 (childNodes d context) in
  match positionTest st with
  | None => named
  | Some n => nthFromOne named n
  end.

Fixpoint evaluateSteps (d : Dom) (steps : list Step) (context : list Node)
    : list Node :=
  match steps with
  | [] => context
  | st :: rest => evaluateSteps d rest (flat_map (selectStep d st) context)
  end.

(** The snapshot of [document.evaluate(expression, document, ...)], empty
    where the evaluator throws. *)
Definition documentEvaluate (d : Dom) (expression : string) : list Node :=
  match parseLocationPath expression with
  | Some steps => evaluateSteps d steps [DocumentNode]
  | None => []
  end.

(** The positions of the segments that contain [[*]]. *)
Fixpoint wildcardPositions (i : nat) (segments : list string) : list nat :=
  match segments with
  | [] => []
  | segment :: rest =>
      if includes "[*]" segment then i :: wildcardPositions (S i) rest
      else wildcardPositions (S i) rest
  end.

(** [findMatchingElements]: [pattern] is [null] or a string; the empty
    string is falsy like [null]. *)
Definition findMatchingElements (d : Dom) (pattern : option string)
    : Outcome (list Node) :=
  match pattern with
  | None => Returned []
  | Some text =>
      if isEmpty text then Returned []
      else
        let segments := parseXPathToSegments text in
        let wildcardIndices := wildcardPositions 0 segments in
        if (List.length wildcardIndices =? 0)%nat
        then Returned (documentEvaluate d text)
        else collectElementsWithWildcard d segments 0 DocumentNode
  end.

(* ===================================================================== *)
(** ** SelectionEngine: the module-level state *)
(* ===================================================================== *)

(** An entry of [selectedElements]: [{ element, xpath }]. *)
Record Selected := mkSelected {
  element : Node;
  xpath : string
}.

(** The [type] field of [detectedPattern]. *)
Inductive PatternType := TSingle | T1d | T2d | TMultiple.

Definition PatternType_eqb (a b : PatternType) : bool :=
  match a, b with
  | TSingle, TSingle | T1d, T1d | T2d, T2d | TMultiple, TMultiple => true
  | _, _ => false
  end.

(** [detectedPattern], when not [null]: [{ type, xpath, variableIndices }]. *)
Record Pattern := mkPattern {
  patternType : PatternType;
  patternXPath : option string;
  patternVariableIndices : list nat
}.

(** The variables of the content script that the engine reads and writes.
    The highlight overlays and the storage messages are the shell's and are
    left out. *)
Record State := mkState {
  isSelectionModeActive : bool;
  selectedElements : list Selected;
  detectedPattern : option Pattern;
  matchedElements : list Node
}.

Definition setSelected (st : State) (sel : list Selected) : State :=
  {| isSelectionModeActive := isSelectionModeActive st;
     selectedElements := sel;
     detectedPattern := detectedPattern st;
     matchedElements := matchedElements st |}.

Definition setPattern (st : State) (p : option Pattern) : State :=
  {| isSelectionModeActive := isSelectionModeActive st;
     selectedElements := selectedElements st;
     detectedPattern := p;
     matchedElements := matchedElements st |}.

Definition setMatched (st : State) (m : list Node) : State :=
  {| isSelectionModeActive := isSelectionModeActive st;
     selectedElements := selectedElements st;
     detectedPattern := detectedPattern st;
     matchedElements := m |}.

(** How a handler ends: normally, or abruptly with the state as the
    assignments made before the throw left it. *)
Inductive Completion :=
| Normal (st : State)
| Abrupt (failure : Failure) (st : State).

Definition finalState (c : Completion) : State :=
  match c with
  | Normal st => st
  | Abrupt _ st => st
  end.

(** [matchedElements = <call>]: the assignment happens only if the call
    returns. *)
Definition assignMatched (st : State) (o : Outcome (list Node)) : Completion :=
  match o with
  | Returned found => Normal (setMatched st found)
  | Thrown f => Abrupt f st
  end.

Definition multiplePattern : Pattern :=
  {| patternType := TMultiple; patternXPath := None;
     patternVariableIndices := [] |}.

Definition patternOfCompare (result : CompareResult) : Pattern :=
  {| patternType := if (2 <=? List.length (variableIndices result))%nat
                    then T2d else T1d;
     patternXPath := pattern result;
     patternVariableIndices := variableIndices result |}.

Definition patternOfDetect (result : Detect2DResult) : Pattern :=
  {| patternType := if is2D result then T2d else T1d;
     patternXPath := pattern2D result;
     patternVariableIndices := variableIndices2D result |}.

(** [currentPattern.xpath] as the string argument of [detect2DPattern].  A
    pattern of type [1d] or [2d] always carries a string; for a [null] one
    the call would throw inside [parseXPathToSegments]. *)
Definition detectWith (current : Pattern) (latestXPath : string)
    : Outcome Detect2DResult :=
  match patternXPath current with
  | Some text =>
      Returned (detect2DPattern text (patternVariableIndices current) latestXPath)
  | None => Thrown TypeError
  end.

(** The branch of [updatePattern] for three or more selected elements, from
    the comparison of the latest element on. *)
Definition extendWithLatest (d : Dom) (st : State) (current : Pattern)
    (absoluteXPaths : list string) : Completion :=
  let latestXPath := last absoluteXPaths EmptyString in
  match detectWith current latestXPath with
  | Thrown f => Abrupt f st
  | Returned result2D =>
      if isValid2D result2D then
        assignMatched (setPattern st (Some (patternOfDetect result2D)))
          (findMatchingElements d (pattern2D result2D))
      else
        assignMatched st (findMatchingElements d (patternXPath current))
  end.

(** [updatePattern].  With three or more selected elements the pattern held
    so far is the base, unless there is none or it is of type [multiple]:
    then the base is the comparison of the first two paths. *)
Definition updatePattern (d : Dom) (st : State) : Completion :=
  match selectedElements st with
  | [] => Normal (setMatched (setPattern st None) [])
  | [only] =>
      Normal (setMatched
                (setPattern st
                   (Some {| patternType := TSingle;
                            patternXPath := Some (xpath only);
                            patternVariableIndices := [] |}))
                [element only])
  | first :: second :: others =>
      let absoluteXPaths :=
        map (fun sel => generateAbsoluteXPath d (element sel))
            (selectedElements st) in
      let xpath0 := nth 0 absoluteXPaths EmptyString in
      let xpath1 := nth 1 absoluteXPaths EmptyString in
      let asMultiple :=
        Normal (setMatched (setPattern st (Some multiplePattern))
                  (map element (selectedElements st))) in
      match others with
      | [] =>
          let result := compareXPaths xpath0 xpath1 in
          if isValid result then
            assignMatched (setPattern st (Some (patternOfCompare result)))
              (findMatchingElements d (pattern result))
          else asMultiple
      | _ :: _ =>
          let fromFirstTwo :=
            let initialResult := compareXPaths xpath0 xpath1 in
            if isValid initialResult then
              extendWithLatest d st (patternOfCompare initialResult)
                absoluteXPaths
            else asMultiple in
          match detectedPattern st with
          | None => fromFirstTwo
          | Some current =>
              if PatternType_eqb (patternType current) TMultiple
              then fromFirstTwo
              else extendWithLatest d st current absoluteXPaths
          end
      end
  end.

(* ===================================================================== *)
(** ** SelectionEngine: text extraction *)
(* ===================================================================== *)

(** The ASCII part of [\s]. *)
Definition isSpace (c : ascii) : bool :=
  (c =? " ")%char || inRange (ascii_of_nat 9) (ascii_of_nat 13) c.

(** The class [[\r\n\t]]. *)
Definition isLineBreakOrTab (c : ascii) : bool :=
  (c =? ascii_of_nat 13)%char || (c =? ascii_of_nat 10)%char
  || (c =? ascii_of_nat 9)%char.

(** [s.replace(/<class>+/g, " ")]: every maximal run becomes one space. *)
Fixpoint collapseRuns (p : ascii -> bool) (inRun : bool) (s : string) : string :=
  match s with
  | EmptyString => EmptyString
  | String c rest =>
      if p c then
        if inRun then collapseRuns p true rest
        else String " " (collapseRuns p true rest)
      else String c (collapseRuns p false rest)
  end.

Fixpoint trimStart (s : string) : string :=
  match s with
  | String c rest => if isSpace c then trimStart rest else s
  | EmptyString => EmptyString
  end.

Fixpoint trimEnd (s : string) : string :=
  match s with
  | EmptyString => EmptyString
  | String c rest =>
      let rest' := trimEnd rest in
      if isSpace c && isEmpty rest' then EmptyString else String c rest'
  end.

(** [normalizeText], on text whose white space is ASCII. *)
Definition normalizeText (text : string) : string :=
  if isEmpty text then EmptyString
  else trimEnd (trimStart
         (collapseRuns isSpace false
            (collapseRuns isLineBreakOrTab false text))).

(** [normalizeText(node.textContent)]: the read throws on [null]; the
    document's text content is [null], which normalises to the empty
    string. *)
Definition normalizedTextOf (d : Dom) (n : Node) : Outcome string :=
  match n with
  | NullNode => Thrown TypeError
  | DocumentNode => Returned EmptyString
  | ElementNode _ _ =>
      Returned (normalizeText
                  (match elementAt d n with
                   | Some e => textContent e
                   | None => EmptyString
                   end))
  end.

(** [array.map(f)] for an [f] that may throw. *)
Fixpoint mapOutcome {A B : Type} (f : A -> Outcome B) (l : list A)
    : Outcome (list B) :=
  match l with
  | [] => Returned []
  | x :: rest =>
      let* y := f x in
      let* ys := mapOutcome f rest in
      Returned (y :: ys)
  end.

(** The [data] field of an extraction. *)
Inductive ExtractedData :=
| Texts (texts : list string)
| Matrix (rows : list (list string)).

(** [{ data, patternInfo }]; of [patternInfo] the model keeps [type] and
    [xpath], its counts being read off [data]. *)
Record Extraction := mkExtraction {
  data : ExtractedData;
  infoType : PatternType;
  infoXPath : option string
}.

(** An entry pushed to a row of [rowElements]: [{ colIndex, text }]. *)
Record Cell := mkCell {
  colIndex : N;
  text : string
}.

(** [index || 0]. *)
Definition indexOrZero (i : option N) : N :=
  match i with
  | Some n => n
  | None => 0%N
  end.

(** The [Map] [rowElements]: its entries in insertion order. *)
Definition RowMap := list (N * list Cell).

Fixpoint hasRow (rowKey : N) (m : RowMap) : bool :=
  match m with
  | [] => false
  | (k, _) :: rest => (k =? rowKey)%N || hasRow rowKey rest
  end.

(** [rowElements.get(rowKey).push(cell)]. *)
Fixpoint pushToRow (rowKey : N) (cell : Cell) (m : RowMap) : RowMap :=
  match m with
  | [] => []
  | (k, cells) :: rest =>
      if (k =? rowKey)%N then (k, (cells ++ [cell])%list) :: rest
      else (k, cells) :: pushToRow rowKey cell rest
  end.

(** [if (!rowElements.has(rowKey)) rowElements.set(rowKey, [])]. *)
Definition ensureRow (rowKey : N) (m : RowMap) : RowMap :=
  if hasRow rowKey m then m else (m ++ [(rowKey, [])])%list.

Fixpoint getRow (rowKey : N) (m : RowMap) : list Cell :=
  match m with
  | [] => []
  | (k, cells) :: rest => if (k =? rowKey)%N then cells else getRow rowKey rest
  end.

(** [array.sort((a, b) => key(a) - key(b))]: ascending by [key]; the sort of
    the language is stable. *)
Fixpoint insertByKey {A : Type} (key : A -> N) (x : A) (sorted : list A)
    : list A :=
  match sorted with
  | [] => [x]
  | y :: rest =>
      if (key x <=? key y)%N then x :: y :: rest
      else y :: insertByKey key x rest
  end.

Definition sortByKey {A : Type} (key : A -> N) (l : list A) : list A :=
  fold_right (insertByKey key) [] l.

(** [parseSegment(elementSegments[i]).index || 0]; reading past the end of
    the array gives [undefined]. *)
Definition keyAtPosition (elementSegments : list string) (i : nat) : Outcome N :=
  let* parsed := callParseSegment (nth_error elementSegments i) in
  Returned (indexOrZero (index parsed)).

(** The body of the [forEach] callback of [extract2DData]. *)
Definition addMatchedElement (d : Dom) (segmentCount rowVarIndex colVarIndex : nat)
    (rowElements : RowMap) (matched : Node) : Outcome RowMap :=
  let elementXPath := generateAbsoluteXPath d matched in
  let elementSegments := parseXPathToSegments elementXPath in
  if negb (List.length elementSegments =? segmentCount)%nat
  then Returned rowElements
  else
    let* rowKey := keyAtPosition elementSegments rowVarIndex in
    let rowElements' := ensureRow rowKey rowElements in
    let* colKey := keyAtPosition elementSegments colVarIndex in
    let* normalized := normalizedTextOf d matched in
    Returned (pushToRow rowKey {| colIndex := colKey; text := normalized |}
                rowElements').

(** [matchedElements.forEach(...)]. *)
Fixpoint collectRows (d : Dom) (segmentCount rowVarIndex colVarIndex : nat)
    (matched : list Node) (rowElements : RowMap) : Outcome RowMap :=
  match matched with
  | [] => Returned rowElements
  | m :: rest =>
      let* rowElements' :=
        addMatchedElement d segmentCount rowVarIndex colVarIndex rowElements m in
      collectRows d segmentCount rowVarIndex colVarIndex rest rowElements'
  end.

(** The matrix built from the filled map. *)
Definition matrixOfRows (rowElements : RowMap) : list (list string) :=
  let sortedRowKeys := sortByKey (fun k => k) (map fst rowElements) in
  map (fun rowKey => map text (sortByKey colIndex (getRow rowKey rowElements)))
      sortedRowKeys.

(** [extract2DData] past its guard, for a pattern with at least two
    variable positions. *)
Definition extract2DMatrix (d : Dom) (st : State) (p : Pattern)
    : Outcome Extraction :=
  match patternXPath p, patternVariableIndices p with
  | Some text, rowVarIndex :: colVarIndex :: _ =>
      let segments := parseXPathToSegments text in
      let* rowElements :=
        collectRows d (List.length segments) rowVarIndex colVarIndex
          (matchedElements st) [] in
      Returned {| data := Matrix (matrixOfRows rowElements);
                  infoType := T2d;
                  infoXPath := patternXPath p |}
  | _, _ => Thrown TypeError
  end.

(** [extractData].  A pattern of type [2d] is handed to [extract2DData],
    whose guard hands a pattern with fewer than two variable positions back
    to [extractData]: the two calls then repeat until the stack is
    exhausted. *)
Definition extractData (d : Dom) (st : State) : Outcome Extraction :=
  let selectedTexts :=
    let* texts := mapOutcome (fun sel => normalizedTextOf d (element sel))
                    (selectedElements st) in
    Returned {| data := Texts texts; infoType := TMultiple;
                infoXPath := None |} in
  match detectedPattern st with
  | None => selectedTexts
  | Some p =>
      if (List.length (matchedElements st) =? 0)%nat then selectedTexts
      else if PatternType_eqb (patternType p) T2d then
        if (List.length (patternVariableIndices p) <? 2)%nat
        then Thrown RangeError
        else extract2DMatrix d st p
      else
        let* texts := mapOutcome (normalizedTextOf d) (matchedElements st) in
        Returned {| data := Texts texts; infoType := patternType p;
                    infoXPath := patternXPath p |}
  end.

(** [extract2DData]. *)
Definition extract2DData (d : Dom) (st : State) : Outcome Extraction :=
  match detectedPattern st with
  | None => extractData d st
  | Some p =>
      if (List.length (patternVariableIndices p) <? 2)%nat
      then extractData d st
      else extract2DMatrix d st p
  end.

(* ===================================================================== *)
(** ** SelectionEngine: the handlers *)
(* ===================================================================== *)

(** [selectedElements.findIndex((sel) => sel.element === target)]. *)
Definition findSelected (target : Node) (sel : list Selected) : option nat :=
  findPosition (fun s => Node_eqb (element s) target) sel.

(** [array.splice(i, 1)]. *)
Fixpoint removeAt {A : Type} (i : nat) (l : list A) : list A :=
  match l, i with
  | [], _ => []
  | _ :: rest, O => rest
  | x :: rest, S i' => x :: removeAt i' rest
  end.

Definition overlayClass : string := "xpath-extractor-highlight".

(** [handleElementClick] on an event whose target is [target].  The handler
    goes on to redraw the highlights and to post the extraction to the
    background page; neither writes a variable of the state. *)
Definition handleElementClick (d : Dom) (target : Node) (st : State)
    : Completion :=
  if negb (isSelectionModeActive st) then Normal st
  else
    match elementAt d target with
    | None => Abrupt TypeError st
    | Some e =>
        if existsb (String.eqb overlayClass) (classList e) then Normal st
        else
          match findSelected target (selectedElements st) with
          | Some _ => Normal st
          | None =>
              match generateXPath d target with
              | Thrown f => Abrupt f st
              | Returned path =>
                  updatePattern d
                    (setSelected st
                       (selectedElements st
                        ++ [{| element := target; xpath := path |}])%list)
              end
          end
    end.

(** [handleElementDoubleClick]: the deselection. *)
Definition handleElementDoubleClick (d : Dom) (target : Node) (st : State)
    : Completion :=
  if negb (isSelectionModeActive st) then Normal st
  else
    match findSelected target (selectedElements st) with
    | Some i => updatePattern d (setSelected st (removeAt i (selectedElements st)))
    | None => Normal st
    end.

(** [clearAllSelections]. *)
Definition clearAllSelections (st : State) : State :=
  {| isSelectionModeActive := isSelectionModeActive st;
     selectedElements := [];
     detectedPattern := None;
     matchedElements := [] |}.

Definition initialState : State :=
  {| isSelectionModeActive := false; selectedElements := [];
     detectedPattern := None; matchedElements := [] |}.

Definition activateSelectionMode (st : State) : State :=
  {| isSelectionModeActive := true;
     selectedElements := selectedElements st;
     detectedPattern := detectedPattern st;
     matchedElements := matchedElements st |}.

(* ===================================================================== *)
(** ** The words of the specification *)
(* ===================================================================== *)

(** The three shapes of input the specification lists for [parseSegment]:
    [tag[n]], a bare [tag], and the stable-id reference token. *)
Definition IndexedTag (s : string) : Prop :=
  exists name digits,
    s = name ++ "[" ++ digits ++ "]"
    /\ name <> EmptyString /\ allChars isTagChar name = true
    /\ digits <> EmptyString /\ allChars isDigit digits = true.

Definition BareTag (s : string) : Prop :=
  s <> EmptyString /\ allChars isTagChar s = true.

Definition IdReference (s : string) : Prop :=
  exists value,
    s = idRefOpen ++ value ++ idRefClose
    /\ value <> EmptyString /\ allChars noQuote value = true.

Definition WellFormedSegment (s : string) : Prop :=
  IndexedTag s \/ BareTag s \/ IdReference s.

(** The parsed segment of a path at a position, and the number of
    segments of a path. *)
Definition segmentAt (path : string) (i : nat) : Segment :=
  parseSegment (nth i (parseXPathToSegments path) EmptyString).

Definition segmentCount (path : string) : nat :=
  List.length (parseXPathToSegments path).

(** Both indices are non-null and they differ. *)
Definition IndexVariesAt (path1 path2 : string) (i : nat) : Prop :=
  exists m n,
    index (segmentAt path1 i) = Some m
    /\ index (segmentAt path2 i) = Some n /\ m <> n.

(** Exactly one of the two indices is null. *)
Definition OneIndexNullAt (path1 path2 : string) (i : nat) : Prop :=
  (index (segmentAt path1 i) = None /\ index (segmentAt path2 i) <> None)
  \/ (index (segmentAt path1 i) <> None /\ index (segmentAt path2 i) = None).

(** When [compare] gives a pattern, in the words of the specification: the
    segment counts are equal, the tag names agree at every position, and
    some position becomes a wildcard. *)
Definition Comparable (path1 path2 : string) : Prop :=
  segmentCount path1 = segmentCount path2
  /\ (forall i, i < segmentCount path1 ->
                tag (segmentAt path1 i) = tag (segmentAt path2 i))
  /\ (exists i, i < segmentCount path1 /\ IndexVariesAt path1 path2 i).

(** A result of [compare] for two paths: the wildcard positions are exactly
    the positions where the indices vary, in ascending order, and the
    pattern has at each position the wildcard form of the first path's
    segment or its literal form. *)
Definition PatternFor (path1 path2 : string) (result : CompareResult) : Prop :=
  exists text,
    result = {| pattern := Some text;
                variableIndices := variableIndices result;
                isValid := true |}
    /\ StronglySorted lt (variableIndices result)
    /\ (forall i, In i (variableIndices result) <->
                  i < segmentCount path1 /\ IndexVariesAt path1 path2 i)
    /\ segmentCount text = segmentCount path1
    /\ (forall i, i < segmentCount path1 ->
           nth i (parseXPathToSegments text) EmptyString
           = if includesIndex (variableIndices result) i
             then wildcardSegment (segmentAt path1 i)
             else literalSegment (segmentAt path1 i)).

(* ===================================================================== *)
(** ** Auxiliary forms used in the proofs *)
(* ===================================================================== *)

(** What stops a [span]: the end of the string or a character outside the
    class. *)
Definition stopsSpan (p : ascii -> bool) (rest : string) : Prop :=
  match rest with
  | EmptyString => True
  | String c _ => p c = false
  end.

Definition noSlash (c : ascii) : bool := negb (c =? slash)%char.

(** A piece between two slashes that survives the filter of
    [parseXPathToSegments]. *)
Definition PlainSegment (s : string) : Prop :=
  s <> EmptyString /\ allChars noSlash s = true.

Definition nonEmptyb (s : string) : bool := negb (isEmpty s).

(** The loop of [compareXPaths] read as three list functions: whether it
    runs to the end, what it pushes to [patternSegments], and what it pushes
    to [variableIndices]. *)
Fixpoint tagsAgreeb (segments1 segments2 : list string) : bool :=
  match segments1, segments2 with
  | a :: rest1, b :: rest2 =>
      (tag (parseSegment a) =? tag (parseSegment b)) && tagsAgreeb rest1 rest2
  | _, _ => true
  end.

Definition loopSegment (a b : string) : string :=
  if indexVaries (parseSegment a) (parseSegment b)
  then wildcardSegment (parseSegment a)
  else literalSegment (parseSegment a).

Fixpoint loopSegments (segments1 segments2 : list string) : list string :=
  match segments1, segments2 with
  | a :: rest1, b :: rest2 => loopSegment a b :: loopSegments rest1 rest2
  | _, _ => []
  end.

Fixpoint loopVariable (i : nat) (segments1 segments2 : list string) : list nat :=
  match segments1, segments2 with
  | a :: rest1, b :: rest2 =>
      if indexVaries (parseSegment a) (parseSegment b)
      then i :: loopVariable (S i) rest1 rest2
      else loopVariable (S i) rest1 rest2
  | _, _ => []
  end.

(** Some position, present in both paths, where the tag names differ. *)
Definition TagMismatch (path1 path2 : string) : Prop :=
  exists i, i < segmentCount path1 /\ i < segmentCount path2
            /\ tag (segmentAt path1 i) <> tag (segmentAt path2 i).

(** The absolute path of the element selected last: what [updatePattern]
    names [latestXPath]. *)
Definition latestAbsoluteXPath (d : Dom) (st : State) : string :=
  last (map (fun sel => generateAbsoluteXPath d (element sel))
          (selectedElements st)) EmptyString.

(** A page to run the model on: a paragraph and a table of two rows and
    three columns in the body, and one tree that was removed from the
    document. *)
Definition leaf (name content : string) : Element :=
  {| tagName := name; elementId := EmptyString; classList := [];
     textContent := content; children := [] |}.

Definition parent (name : string) (childList : list Element) : Element :=
  {| tagName := name; elementId := EmptyString; classList := [];
     textContent := EmptyString; children := childList |}.

Definition sampleTable : Element :=
  parent "table"
    [ parent "tr" [leaf "td" "a"; leaf "td" "b"; leaf "td" "c"];
      parent "tr" [leaf "td" "d"; leaf "td" "e"; leaf "td" "f"] ].

Definition sampleDom : Dom :=
  {| documentElement :=
       parent "html"
         [ parent "head" [];
           parent "body"
             [ parent "div" [parent "p" [leaf "span" "note"]];
               sampleTable ] ];
     detached := [parent "div" [leaf "span" "gone"]] |}.

(** The cell of [sampleTable] in row [r] and column [c], counted from
    zero. *)
Definition sampleCell (r c : nat) : Node := ElementNode InDocument [c; r; 1; 1].

Definition sampleSpan : Node := ElementNode InDocument [0; 0; 0; 1].

Definition sampleDetached : Node := ElementNode (Detached 0) [].

(** The state after clicking the given elements in turn, from the initial
    state with the selection mode on. *)
Definition afterClicks (d : Dom) (targets : list Node) : State :=
  fold_left (fun st target => finalState (handleElementClick d target st))
    targets (activateSelectionMode initialState).



(** The variable positions of [detectedPattern], none when it is [null]. *)
Definition heldVariableIndices (st : State) : list nat :=
  match detectedPattern st with
  | Some p => patternVariableIndices p
  | None => []
  end.


(** The state in which [updatePattern] runs on the third click: two cells
    of a column are selected and generalised, and the paragraph's span has
    just been pushed to the selection. *)
Definition spanPushed : State :=
  let st := afterClicks sampleDom [sampleCell 0 0; sampleCell 1 0] in
  setSelected st
    (selectedElements st
     ++ [{| element := sampleSpan; xpath := "/html/body/div[1]/p[1]/span[1]" |}])%list.

(** A node has a path to the tree root when following [parentNode] from it
    arrives at the document. *)
Inductive ReachesDocument : Node -> Prop :=
| reaches_here : ReachesDocument DocumentNode
| reaches_up (n : Node) :
    n <> NullNode -> ReachesDocument (parentNode n) -> ReachesDocument n.

(** The segment [generateAbsoluteXPath] prints for an element below the
    root of its tree. *)
Definition ownSegment (d : Dom) (r : Root) (position : nat) (up : list nat)
    : string :=
  let name := tagNameAt d (ElementNode r (position :: up)) in
  name ++ "["
  ++ ofNumber (countSameTagBefore (childElements d (ElementNode r up))
                 position name 1%N)
  ++ "]".

(** A selection that still holds the root of the removed tree of the sample
    page, selected when it was the second [div] of the body. *)
Definition staleSelection : State :=
  let st := afterClicks sampleDom [sampleCell 0 0] in
  setSelected st
    (selectedElements st
     ++ [{| element := sampleDetached; xpath := "/html/body/div[2]" |}])%list.

(** [results.concat(...)] over a list of children, each sub-result computed
    by [f], from left to right. *)
Fixpoint concatOutcomes (f : Node -> Outcome (list Node)) (l : list Node)
    : Outcome (list Node) :=
  match l with
  | [] => Returned []
  | x :: rest =>
      let* found := f x in
      let* more := concatOutcomes f rest in
      Returned (found ++ more)%list
  end.

(** The number of elements of a tree. *)
Fixpoint elementCount (e : Element) : nat :=
  S ((fix total (l : list Element) : nat :=
        match l with
        | [] => 0
        | c :: rest => elementCount c + total rest
        end) (children e)).

Definition totalCount (l : list Element) : nat :=
  list_sum (map elementCount l).

(** The weight of a reference: the size of the tree under it. *)
Definition weight (d : Dom) (n : Node) : nat :=
  match n with
  | DocumentNode => elementCount (documentElement d)
  | _ => match elementAt d n with
         | Some e => elementCount e
         | None => 1
         end
  end.

(** The sub-results of [f] are no longer than the trees they come from. *)
Definition BoundedBy (d : Dom) (f : Node -> Outcome (list Node)) : Prop :=
  forall child found,
    f child = Returned found -> List.length found <= weight d child.

(** [f] returns on every reference but [null]. *)
Definition ReturnsOnNodes (f : Node -> Outcome (list Node)) : Prop :=
  forall n, n <> NullNode -> exists found, f n = Returned found.

(* ===================================================================== *)
(** ** The second picker: [analyzeXPathPair] and [collectElementsByPattern] *)
(* ===================================================================== *)

Module PickerVer2.

(** The sibling tests of [getXPathForElement]: the number of earlier
    siblings with the tag, and whether a later sibling has it. *)
Definition earlierWithTag (siblings : list Element) (position : nat)
    (name : string) : N :=
  N.of_nat (List.length
              (filter (fun s => tagName s =? name) (firstn position siblings))).

Definition laterHasTag (siblings : list Element) (position : nat)
    (name : string) : bool :=
  existsb (fun s => tagName s =? name) (skipn (S position) siblings).

(** The segment [getXPathForElement] puts in front for an element that is
    not the document element: the index is printed when it is above one or
    when a later sibling has the same tag. *)
Definition segmentOf (siblings : list Element) (position : nat)
    (name : string) : string :=
  let index := (1 + earlierWithTag siblings position name)%N in
  if (1 <? index)%N || laterHasTag siblings position name
  then "/" ++ name ++ "[" ++ ofNumber index ++ "]"
  else "/" ++ name.

(** The loop of [getXPathForElement], from the element up: it stops at the
    document element, or where [parentElement] is [null]. *)
Fixpoint xpathOfElement (d : Dom) (r : Root) (up : list nat) : string :=
  match up with
  | [] =>
      match r with
      | InDocument => "/html"
      | Detached _ => segmentOf [] 0 (tagNameAt d (ElementNode r []))
      end
  | position :: up' =>
      xpathOfElement d r up'
      ++ segmentOf (childElements d (ElementNode r up')) position
           (tagNameAt d (ElementNode r up))
  end.

(** [getXPathForElement]: the empty string for a node that is not an
    element; reading [nodeType] on [null] throws. *)
Definition getXPathForElement (d : Dom) (element : Node) : Outcome string :=
  match element with
  | NullNode => Thrown TypeError
  | DocumentNode => Returned EmptyString
  | ElementNode r up => Returned (xpathOfElement d r up)
  end.

(** [getElementByXPath]: the first node of the evaluation in document
    order, [null] when there is none or when the evaluator throws. *)
Definition getElementByXPath (d : Dom) (path : string) : Node :=
  match documentEvaluate d path with
  | first :: _ => first
  | [] => NullNode
  end.

(** The segments the loop over [/\/([^\/]+)/g] collects: the non-empty
    pieces that follow a slash. *)
Definition slashSegments (path : string) : list string :=
  filter (fun piece => negb (isEmpty piece)) (tl (split slash path)).

Fixpoint reverse (s : string) : string :=
  match s with
  | EmptyString => EmptyString
  | String c rest => reverse rest ++ String c EmptyString
  end.

(** What the dot of a regular expression matches, among ASCII characters:
    all but the line feed and the carriage return. *)
Definition isDot (c : ascii) : bool :=
  negb ((c =? ascii_of_nat 10)%char || (c =? ascii_of_nat 13)%char).

(** [indexRegex.exec(segment)] for [/^(.+)\[(\d+)\]$/]: the two groups.  Read
    from the end: a closing bracket, the digits, an opening bracket, and in
    front of it a non-empty text. *)
Definition matchIndexed (segment : string) : option (string * string) :=
  match reverse segment with
  | String c afterBracket =>
      if (c =? "]")%char then
        let (digitsReversed, beforeDigits) := span isDigit afterBracket in
        match beforeDigits with
        | String c' prefixReversed =>
            if (c' =? "[")%char && negb (isEmpty digitsReversed)
               && negb (isEmpty prefixReversed)
               && allChars isDot prefixReversed
            then Some (reverse prefixReversed, reverse digitsReversed)
            else None
        | EmptyString => None
        end
      else None
  | EmptyString => None
  end.

(** The loop of [analyzeXPathPair] from position [i] on: the [pattern] array
    and [variableIndex], which is minus one ([None]) until a position
    varies.  The outer [None] is the [return null] of the loop. *)
Fixpoint analyzeLoop (i : nat) (segments1 segments2 : list string)
    (patternSegments : list string) (variableIndex : option nat)
    : option (list string * option nat) :=
  match segments1, segments2 with
  | seg1 :: rest1, seg2 :: rest2 =>
      if seg1 =? seg2 then
        analyzeLoop (S i) rest1 rest2 (patternSegments ++ [seg1])%list
          variableIndex
      else
        match matchIndexed seg1, matchIndexed seg2 with
        | Some (name1, _), Some (name2, _) =>
            if name1 =? name2 then
              analyzeLoop (S i) rest1 rest2
                (patternSegments ++ [(name1 ++ "[*]")%string])%list (Some i)
            else None
        | _, _ => None
        end
  | _, _ => Some (patternSegments, variableIndex)
  end.

(** What [analyzeXPathPair] returns when it does not return [null]. *)
Record PatternInfo := mkPatternInfo {
  pattern : string;
  variableIndex : nat;
  baseSegments : list string;
  variableTag : string;
  suffixSegments : list string
}.

(** [analyzeXPathPair].  The last [exec] is on a segment that matched in the
    loop, so its result is never [null]. *)
Definition analyzeXPathPair (xpath1 xpath2 : string) : option PatternInfo :=
  let segments1 := slashSegments xpath1 in
  let segments2 := slashSegments xpath2 in
  if negb (List.length segments1 =? List.length segments2)%nat then None
  else
    match analyzeLoop 0 segments1 segments2 [] None with
    | Some (patternSegments, Some varIndex) =>
        Some {| pattern := "/" ++ join "/" patternSegments;
                variableIndex := varIndex;
                baseSegments := firstn varIndex segments1;
                variableTag :=
                  match matchIndexed (nth varIndex segments1 EmptyString) with
                  | Some (name, _) => name
                  | None => EmptyString
                  end;
                suffixSegments := skipn (S varIndex) segments1 |}
    | _ => None
    end.

(** The path [collectElementsByPattern] builds for one index. *)
Definition probePath (info : PatternInfo) (index : N) : string :=
  let baseXPath := "/" ++ join "/" (baseSegments info) in
  let variablePart := "/" ++ variableTag info ++ "[" ++ ofNumber index ++ "]" in
  let suffixXPath :=
    if (0 <? List.length (suffixSegments info))%nat
    then "/" ++ join "/" (suffixSegments info)
    else EmptyString in
  baseXPath ++ variablePart ++ suffixXPath.

(** The [while] loop of [collectElementsByPattern], with the number of
    iterations it may still make. *)
Fixpoint probeLoop (d : Dom) (info : PatternInfo) (iterationsLeft : nat)
    (index : N) (elements : list Node) : list Node :=
  match iterationsLeft with
  | O => elements
  | S iterationsLeft' =>
      match getElementByXPath d (probePath info index) with
      | NullNode => elements
      | el => probeLoop d info iterationsLeft' (index + 1)%N
                (elements ++ [el])%list
      end
  end.

Definition maxIterations : nat := 1000.

(** [collectElementsByPattern]. *)
Definition collectElementsByPattern (d : Dom) (info : PatternInfo) : list Node :=
  probeLoop d info maxIterations 1%N [].

End PickerVer2.

(** A list whose second item has no link, and a list of 1001 items. *)
Definition linkItem (content : string) : Element :=
  parent "li" [leaf "a" content].

Definition gapDom : Dom :=
  {| documentElement :=
       parent "html"
         [ parent "head" [];
           parent "body"
             [parent "ul" [linkItem "one"; parent "li" []; linkItem "three"]] ];
     detached := [] |}.

Definition longDom : Dom :=
  {| documentElement :=
       parent "html"
         [ parent "head" [];
           parent "body" [parent "ul" (repeat (leaf "li" "x") 1001)] ];
     detached := [] |}.

(** The segments of the absolute path of a node. *)
Definition pathSegmentsOf (d : Dom) (n : Node) : list string :=
  parseXPathToSegments (generateAbsoluteXPath d n).

(** The index value of a node at a position of its path, zero when the
    segment has none. *)
Definition keyOf (d : Dom) (i : nat) (n : Node) : N :=
  indexOrZero (index (parseSegment (nth i (pathSegmentsOf d n) EmptyString))).

Definition hasSegmentCount (d : Dom) (count : nat) (n : Node) : bool :=
  (List.length (pathSegmentsOf d n) =? count)%nat.

(** The normalised text of an element. *)
Definition textOf (d : Dom) (n : Node) : string :=
  normalizeText (match elementAt d n with
                 | Some e => textContent e
                 | None => EmptyString
                 end).

Definition cellOf (d : Dom) (colVarIndex : nat) (n : Node) : Cell :=
  {| colIndex := keyOf d colVarIndex n; text := textOf d n |}.

(** The row map holds, for the nodes processed so far, one entry for each
    row key, with the cells of the nodes of that row in the order the nodes
    came. *)
Definition Represents (d : Dom) (rowVarIndex colVarIndex : nat)
    (m : RowMap) (nodes : list Node) : Prop :=
  NoDup (map fst m)
  /\ (forall k, In k (map fst m) <->
                exists n, In n nodes /\ keyOf d rowVarIndex n = k)
  /\ (forall k, getRow k m
                = map (cellOf d colVarIndex)
                    (filter (fun n => (keyOf d rowVarIndex n =? k)%N) nodes)).

(** Ascending by key. *)
Definition keyLe {A : Type} (key : A -> N) (a b : A) : Prop :=
  (key a <= key b)%N.

(** The matched nodes that [extract2DData] keeps, and those of one row. *)
Definition gridNodes (d : Dom) (text : string) (matched : list Node)
    : list Node :=
  filter (hasSegmentCount d (segmentCount text)) matched.

Definition rowNodes (d : Dom) (rowVarIndex : nat) (k : N) (nodes : list Node)
    : list Node :=
  filter (fun n => (keyOf d rowVarIndex n =? k)%N) nodes.

(** The state of the sample page once two cells that differ in row and in
    column are selected. *)
Definition twoAxes : State :=
  afterClicks sampleDom [sampleCell 0 0; sampleCell 1 1].

(** A document with the usual skeleton: the document element is [html],
    and [document.body] is the one child of it whose tag is [body]. *)
Definition StandardSkeleton (d : Dom) : Prop :=
  tagName (documentElement d) = "html"
  /\ exists b,
       body d = ElementNode InDocument [b]
       /\ forall j c,
            nth_error (children (documentElement d)) j = Some c ->
            (tagName c = "body" <-> j = b).

(** Every element of the document has a tag that is a name of the
    evaluator's model. *)
Definition NamedElements (d : Dom) : Prop :=
  forall up e,
    elementAt d (ElementNode InDocument up) = Some e ->
    isName (tagName e) = true.

Definition htmlStep : Step := {| nameTest := "html"; positionTest := None |}.

Definition bodyStep : Step := {| nameTest := "body"; positionTest := None |}.

(** The step that selects the element at [position] under [up]. *)
Definition ownStep (d : Dom) (position : nat) (up : list nat) : Step :=
  let name := tagNameAt d (ElementNode InDocument (position :: up)) in
  {| nameTest := name;
     positionTest :=
       Some (countSameTagBefore (childElements d (ElementNode InDocument up))
               position name 1%N) |}.

(** The steps of the absolute path of an element of the document whose
    body is at position [b]. *)
Fixpoint stepsTo (d : Dom) (b : nat) (up : list nat) : list Step :=
  match up with
  | [] => [htmlStep]
  | position :: up' =>
      if positions_eqb up [b] then [htmlStep; bodyStep]
      else (stepsTo d b up' ++ [ownStep d position up'])%list
  end.

Definition notStar (c : ascii) : bool := negb (c =? "*")%char.

(** The number of siblings before [position] that have the tag. *)
Definition sameTagBefore (siblings : list Element) (position : nat)
    (name : string) : nat :=
  List.length (filter (fun s => tagName s =? name) (firstn position siblings)).

(** The tags of a tree are all names. *)
Fixpoint allNamed (e : Element) : bool :=
  isName (tagName e)
  && (fix each (l : list Element) : bool :=
        match l with
        | [] => true
        | c :: rest => allNamed c && each rest
        end) (children e).

(** A page whose [html] element has two [body] children. *)
Definition twoBodyDom : Dom :=
  {| documentElement :=
       parent "html"
         [ parent "head" [];
           parent "body" [leaf "div" "first"];
           parent "body" [leaf "div" "second"] ];
     detached := [] |}.

(** The two segments are both of the form [name[digits]], with the same
    name. *)
Definition BothIndexed (seg1 seg2 : string) : Prop :=
  exists name digits1 digits2,
    PickerVer2.matchIndexed seg1 = Some (name, digits1)
    /\ PickerVer2.matchIndexed seg2 = Some (name, digits2).

Definition bothIndexedb (seg1 seg2 : string) : bool :=
  match PickerVer2.matchIndexed seg1, PickerVer2.matchIndexed seg2 with
  | Some (name1, _), Some (name2, _) => name1 =? name2
  | _, _ => false
  end.

(** The segment of a path of the second picker at a position. *)
Definition slashSegmentAt (path : string) (i : nat) : string :=
  nth i (PickerVer2.slashSegments path) EmptyString.

Definition slashSegmentCount (path : string) : nat :=
  List.length (PickerVer2.slashSegments path).

(** When [analyzeXPathPair] gives a pattern: equal segment counts, at every
    position equal segments or two indexed segments with one name, and
    some position where the segments differ. *)
Definition Analyzable (path1 path2 : string) : Prop :=
  slashSegmentCount path1 = slashSegmentCount path2
  /\ (forall i, i < slashSegmentCount path1 ->
        slashSegmentAt path1 i = slashSegmentAt path2 i
        \/ BothIndexed (slashSegmentAt path1 i) (slashSegmentAt path2 i))
  /\ (exists i, i < slashSegmentCount path1
                /\ slashSegmentAt path1 i <> slashSegmentAt path2 i).

(** The loop of [analyzeXPathPair] read as list functions. *)
Fixpoint analyzableb (segments1 segments2 : list string) : bool :=
  match segments1, segments2 with
  | a :: rest1, b :: rest2 =>
      ((a =? b) || bothIndexedb a b) && analyzableb rest1 rest2
  | _, _ => true
  end.

Fixpoint lastDiffering (i : nat) (segments1 segments2 : list string)
    (sofar : option nat) : option nat :=
  match segments1, segments2 with
  | a :: rest1, b :: rest2 =>
      lastDiffering (S i) rest1 rest2 (if a =? b then sofar else Some i)
  | _, _ => sofar
  end.

(** What [analyzeXPathPair] returns for the two links of [gapDom]. *)
Definition gapInfo : PickerVer2.PatternInfo :=
  {| PickerVer2.pattern := "/html/body/ul/li[*]/a";
     PickerVer2.variableIndex := 3;
     PickerVer2.baseSegments := ["html"; "body"; "ul"];
     PickerVer2.variableTag := "li";
     PickerVer2.suffixSegments := ["a"] |}.

(** What it returns for two items of [longDom]. *)
Definition longInfo : PickerVer2.PatternInfo :=
  {| PickerVer2.pattern := "/html/body/ul/li[*]";
     PickerVer2.variableIndex := 3;
     PickerVer2.baseSegments := ["html"; "body"; "ul"];
     PickerVer2.variableTag := "li";
     PickerVer2.suffixSegments := [] |}.

(* ===================================================================== *)
(** ** The text of an element in the second picker *)
(* ===================================================================== *)

(** [getElementText]: the empty string for [null]; otherwise the text
    content, or the empty string when it is [null], with every run of
    white space turned into one space, trimmed. *)
Definition getElementText (d : Dom) (element : Node) : string :=
  match element with
  | NullNode => EmptyString
  | _ =>
      let content := match elementAt d element with
                     | Some e => textContent e
                     | None => EmptyString
                     end in
      trimEnd (trimStart (collapseRuns isSpace false content))
  end.

(** A character that is no white space, or the space character itself. *)
Definition plainSpaced (c : ascii) : bool :=
  negb (isSpace c) || (c =? " ")%char.

(** No white space but the space character, and never two spaces in a row;
    [afterSpace] tells that the character before was a space. *)
Fixpoint squeezed (afterSpace : bool) (s : string) : bool :=
  match s with
  | EmptyString => true
  | String c rest =>
      if isSpace c then (c =? " ")%char && negb afterSpace && squeezed true rest
      else squeezed false rest
  end.

(* ===================================================================== *)
(** ** The popup: [updateDataDisplay] *)
(* ===================================================================== *)

Definition tab : ascii := ascii_of_nat 9.

Definition lineFeed : ascii := ascii_of_nat 10.

(** The callback of [data.map] in [updateDataDisplay]: an array is joined
    with tabs, a string stands for itself. *)
Definition displayItems (items : ExtractedData) : list string :=
  match items with
  | Texts texts => texts
  | Matrix rows => map (join (String tab EmptyString)) rows
  end.

Definition dataLength (items : ExtractedData) : nat :=
  match items with
  | Texts texts => List.length texts
  | Matrix rows => List.length rows
  end.

(** [updateDataDisplay]: the value it gives the text area.  [data] is
    [null] or the stored array, [patternInfo] is [null] or carries a type;
    the two branches on the type hold the same expression. *)
Definition updateDataDisplay (items : option ExtractedData)
    (patternInfo : option PatternType) : string :=
  match items with
  | None => EmptyString
  | Some items' =>
      if (dataLength items' =? 0)%nat then EmptyString
      else
        match patternInfo with
        | Some T2d => join (String lineFeed EmptyString) (displayItems items')
        | _ => join (String lineFeed EmptyString) (displayItems items')
        end
  end.

(** What a spreadsheet reads from the pasted text: the lines, each cut at
    the tabs. *)
Definition pastedRows (content : string) : list (list string) :=
  map (split tab) (split lineFeed content).

(** The rows an extraction stands for: a list of texts is one column. *)
Definition rowsOf (items : ExtractedData) : list (list string) :=
  match items with
  | Texts texts => map (fun t => [t]) texts
  | Matrix rows => rows
  end.

(** A text that holds neither a tab nor a line feed. *)
Definition oneCell (s : string) : Prop :=
  allChars (fun c => negb (c =? tab)%char && negb (c =? lineFeed)%char) s = true.

(** Every row of the map has a cell, and every cell is one cell. *)
Definition FilledRows (m : RowMap) : Prop :=
  Forall (fun entry =>
            snd entry <> []
            /\ Forall (fun c => oneCell (text c)) (snd entry)) m.

(* ===================================================================== *)
(** ** SelectionEngine: the events of a session *)
(* ===================================================================== *)

(** [deactivateSelectionMode]: the flag goes down; the selection, the
    pattern and the matched elements stay. *)
Definition deactivateSelectionMode (st : State) : State :=
  if negb (isSelectionModeActive st) then st
  else {| isSelectionModeActive := false;
          selectedElements := selectedElements st;
          detectedPattern := detectedPattern st;
          matchedElements := matchedElements st |}.

(** [toggleSelectionMode]. *)
Definition toggleSelectionMode (st : State) : State :=
  if isSelectionModeActive st then deactivateSelectionMode st
  else activateSelectionMode st.

(** [handleKeyDown]: the escape key leaves the selection mode. *)
Definition handleKeyDown (key : string) (st : State) : State :=
  if (key =? "Escape") && isSelectionModeActive st
  then deactivateSelectionMode st
  else st.

(** What the content script reacts to: the two mouse events, a key, and the
    two messages of the background page that write the state. *)
Inductive Event :=
| Click (target : Node)
| DoubleClick (target : Node)
| KeyDown (key : string)
| ToggleMessage
| ClearMessage.

(** The state after an event; a handler that throws leaves the state as
    its assignments made it. *)
Definition handleEvent (d : Dom) (st : State) (ev : Event) : State :=
  match ev with
  | Click target => finalState (handleElementClick d target st)
  | DoubleClick target => finalState (handleElementDoubleClick d target st)
  | KeyDown key => handleKeyDown key st
  | ToggleMessage => toggleSelectionMode st
  | ClearMessage => clearAllSelections st
  end.

(** A session on a page that does not change: the events in turn, from the
    state the script is loaded with. *)
Definition runEvents (d : Dom) (events : list Event) : State :=
  fold_left (handleEvent d) events initialState.

(** A pattern obtained by generalisation: of type [1d] or [2d], with a
    path, at least one variable position, and of type [2d] exactly when
    there are two or more. *)
Definition Generalised (p : Pattern) : Prop :=
  (patternType p = T1d \/ patternType p = T2d)
  /\ (exists text, patternXPath p = Some text)
  /\ patternVariableIndices p <> []
  /\ (patternType p = T2d <-> 2 <= List.length (patternVariableIndices p)).

(** The pattern goes with the size of the selection. *)
Definition PatternFits (st : State) : Prop :=
  match selectedElements st with
  | [] => detectedPattern st = None
  | [only] =>
      detectedPattern st
      = Some {| patternType := TSingle;
                patternXPath := Some (xpath only);
                patternVariableIndices := [] |}
  | _ :: _ :: _ =>
      exists p, detectedPattern st = Some p
                /\ (p = multiplePattern \/ Generalised p)
  end.

(* ===================================================================== *)
(** ** The click-to-copy script: [computeFullXPath] *)
(* ===================================================================== *)

(** The segments [computeFullXPath] collects, the root's first: every
    element on the way up gives its tag and, in brackets, one more than the
    number of earlier siblings with its tag.  The script compares the raw
    tag names of the siblings and the model the lower-cased ones; the two
    agree unless two siblings have names that differ in the case of letters
    only. *)
Fixpoint fullXPathSegments (d : Dom) (r : Root) (up : list nat) : list string :=
  let name := tagNameAt d (ElementNode r up) in
  match up with
  | [] => [name ++ "[" ++ ofNumber 1 ++ "]"]
  | position :: up' =>
      let siblings := childElements d (ElementNode r up') in
      let index := (1 + PickerVer2.earlierWithTag siblings position name)%N in
      (fullXPathSegments d r up'
       ++ [(name ++ "[" ++ ofNumber index ++ "]")%string])%list
  end.

(** [computeFullXPath]: for [null] and for a node that is not an element
    the loop does not run, and the result is a lone slash. *)
Definition computeFullXPath (d : Dom) (element : Node) : string :=
  match element with
  | ElementNode r up => "/" ++ join "/" (fullXPathSegments d r up)
  | _ => "/"
  end.

(** The steps of the path [computeFullXPath] prints. *)
Fixpoint fullSteps (d : Dom) (up : list nat) : list Step :=
  match up with
  | [] => [{| nameTest := tagNameAt d documentElementNode;
              positionTest := Some 1%N |}]
  | position :: up' => (fullSteps d up' ++ [ownStep d position up'])%list
  end.

(** The step [getXPathForElement] prints for an element below the document
    element. *)
Definition pickerStep (d : Dom) (position : nat) (up : list nat) : Step :=
  let name := tagNameAt d (ElementNode InDocument (position :: up)) in
  let siblings := childElements d (ElementNode InDocument up) in
  let index := (1 + PickerVer2.earlierWithTag siblings position name)%N in
  {| nameTest := name;
     positionTest :=
       if (1 <? index)%N || PickerVer2.laterHasTag siblings position name
       then Some index else None |}.

Fixpoint pickerSteps (d : Dom) (up : list nat) : list Step :=
  match up with
  | [] => [htmlStep]
  | position :: up' => (pickerSteps d up' ++ [pickerStep d position up'])%list
  end.

(* ===================================================================== *)
(** ** Patterns that cover a path *)
(* ===================================================================== *)

(** Every element of the document has a tag made of the characters
    [parseSegment] takes for a tag name. *)
Definition PlainTags (d : Dom) : Prop :=
  forall up e,
    elementAt d (ElementNode InDocument up) = Some e ->
    tagName e <> EmptyString /\ allChars isTagChar (tagName e) = true.

(** Every tag of a tree passes a test. *)
Fixpoint allTags (test : string -> bool) (e : Element) : bool :=
  test (tagName e)
  && (fix each (l : list Element) : bool :=
        match l with
        | [] => true
        | c :: rest => allTags test c && each rest
        end) (children e).

Definition plainTag (name : string) : bool :=
  negb (isEmpty name) && allChars isTagChar name.

(** The segments of the path [generateAbsoluteXPath] prints for an element
    of the document. *)
Fixpoint absoluteSegments (d : Dom) (up : list nat) : list string :=
  if Node_eqb (ElementNode InDocument up) (body d) then ["html"; "body"]
  else
    match up with
    | [] => ["html"]
    | position :: up' =>
        (absoluteSegments d up' ++ [ownSegment d InDocument position up'])%list
    end.

(** A segment of a pattern covers a segment of a path: it is that segment,
    or the segment has an index and the pattern has its tag with a star. *)
Definition Covers (patternSegment pathSegment : string) : Prop :=
  patternSegment = pathSegment
  \/ (exists n, index (parseSegment pathSegment) = Some n)
     /\ patternSegment = wildcardSegment (parseSegment pathSegment).

(** A segment that [parseSegment] and the printing of a literal segment
    leave as it is. *)
Definition Canonical (segment : string) : Prop :=
  literalSegment (parseSegment segment) = segment.

(* ===================================================================== *)
(** ** What the later clicks leave of the pattern *)
(* ===================================================================== *)

(** No tag of the page, in the document or in a removed tree, holds a
    star. *)
Definition StarFree (d : Dom) : Prop :=
  forall r up e,
    elementAt d (ElementNode r up) = Some e ->
    allChars notStar (tagName e) = true.

(** A pattern that [compareXPaths] gave for two paths. *)
Definition FromCompare (p : Pattern) : Prop :=
  exists path1 path2,
    isValid (compareXPaths path1 path2) = true
    /\ p = patternOfCompare (compareXPaths path1 path2).

(** With two or more selected elements, the pattern held is the one of
    type [multiple] or one that [compareXPaths] gave. *)
Definition HeldFromCompare (st : State) : Prop :=
  2 <= List.length (selectedElements st) ->
  exists p, detectedPattern st = Some p
            /\ (p = multiplePattern \/ FromCompare p).

(* ===================================================================== *)
(** ** The second picker on two siblings *)
(* ===================================================================== *)

(** What [getXPathForElement] prints after the slash for an element below
    the document element. *)
Definition segmentText (siblings : list Element) (position : nat)
    (name : string) : string :=
  let index := (1 + PickerVer2.earlierWithTag siblings position name)%N in
  if (1 <? index)%N || PickerVer2.laterHasTag siblings position name
  then name ++ "[" ++ ofNumber index ++ "]"
  else name.

(** The segments of the path [getXPathForElement] prints for an element of
    the document. *)
Fixpoint pickerSegments (d : Dom) (up : list nat) : list string :=
  match up with
  | [] => ["html"]
  | position :: up' =>
      (pickerSegments d up'
       ++ [segmentText (childElements d (ElementNode InDocument up')) position
             (tagNameAt d (ElementNode InDocument up))])%list
  end.

(** The children of an element that carry a tag, in document order. *)
Definition childrenWithTag (d : Dom) (up : list nat) (name : string)
    : list Node :=
  filter (fun child => tagNameAt d child =? name)
    (childNodes d (ElementNode InDocument up)).

(** The item of a list at an index counted from one, [null] past the
    end. *)
Definition itemOrNull (l : list Node) (index : N) : Node :=
  match nthFromOne l index with
  | first :: _ => first
  | [] => NullNode
  end.

(* ===================================================================== *)
(** ** Where the evaluator finds its elements *)
(* ===================================================================== *)

(** An element of the document that lies [depth] levels below the element
    at [up]. *)
Definition AtDepth (d : Dom) (up : list nat) (depth : nat) (n : Node) : Prop :=
  exists down e,
    n = ElementNode InDocument (down ++ up)
    /\ List.length down = depth
    /\ elementAt d n = Some e.

(* ===================================================================== *)
(** ** The second picker: walking up from an element *)
(* ===================================================================== *)

(** [node.parentElement]: [null] for the document element, whose parent is
    the document, and for the root of a removed tree. *)
Definition parentElement (n : Node) : Node :=
  match n with
  | ElementNode r (_ :: up) => ElementNode r up
  | _ => NullNode
  end.

(** The loop shared by [findNearestTable] and [findNearestRow]: from the
    element up through [parentElement], the first element with the tag. *)
Fixpoint nearestWithTag (d : Dom) (name : string) (r : Root) (up : list nat)
    : Node :=
  if hasTag d name (ElementNode r up) then ElementNode r up
  else
    match up with
    | [] => NullNode
    | _ :: up' => nearestWithTag d name r up'
    end.

(** [findNearestTable]; the document has no tag name and no parent
    element. *)
Definition findNearestTable (d : Dom) (element : Node) : Node :=
  match element with
  | ElementNode r up => nearestWithTag d "table" r up
  | _ => NullNode
  end.

(** [findNearestRow]. *)
Definition findNearestRow (d : Dom) (element : Node) : Node :=
  match element with
  | ElementNode r up => nearestWithTag d "tr" r up
  | _ => NullNode
  end.

(** The array [ancestors1] of [findCommonAncestor]: the node and what
    [parentElement] gives in turn, until [null]. *)
Fixpoint ancestorsOrSelf (r : Root) (up : list nat) : list Node :=
  ElementNode r up
  :: match up with
     | [] => []
     | _ :: up' => ancestorsOrSelf r up'
     end.

Definition chainOf (n : Node) : list Node :=
  match n with
  | ElementNode r up => ancestorsOrSelf r up
  | DocumentNode => [DocumentNode]
  | NullNode => []
  end.

(** [findCommonAncestor]: the first node on the way up from [el2] that is
    among the ancestors of [el1], and [document.body] when there is
    none. *)
Definition findCommonAncestor (d : Dom) (el1 el2 : Node) : Node :=
  match find (fun current => existsb (Node_eqb current) (chainOf el1))
          (chainOf el2) with
  | Some current => current
  | None => body d
  end.

(* ===================================================================== *)
(** ** [generateXPath] and the id of an element *)
(* ===================================================================== *)

(** [element.id] of a reference. *)
Definition idAt (d : Dom) (n : Node) : string :=
  match elementAt d n with
  | Some e => elementId e
  | None => EmptyString
  end.

(** The test of [generateXPath] on the id: not empty, and not starting
    with a digit. *)
Definition usableId (value : string) : bool :=
  negb (isEmpty value) && negb (startsWithDigit value).
(* ===================================================================== *)
(** ** The model at work *)
(* ===================================================================== *)

Example compare_li :
  compareXPaths "/html/body/ul[1]/li[1]" "/html/body/ul[1]/li[3]"
  = {| pattern := Some "/html/body/ul[1]/li[*]";
       variableIndices := [3]; isValid := true |}.
Proof. reflexivity. Qed.

Example normalizeText_example :
  normalizeText
    ("  a" ++ String (ascii_of_nat 10) (String (ascii_of_nat 9) "b   c "))
  = "a b c".
Proof. reflexivity. Qed.

(* ===================================================================== *)
(** ** Facts about strings *)
(* ===================================================================== *)

Section StringFacts.

Lemma append_empty_r (s : string) : s ++ EmptyString = s.
Proof. induction s as [|c s IH]; simpl; [reflexivity | now rewrite IH]. Qed.

Lemma append_assoc (a b c : string) : (a ++ b) ++ c = a ++ (b ++ c).
Proof. induction a as [|x a IH]; simpl; [reflexivity | now rewrite IH]. Qed.

Lemma isEmpty_true (s : string) : isEmpty s = true <-> s = EmptyString.
Proof. destruct s; simpl; split; congruence. Qed.

Lemma isEmpty_false (s : string) : isEmpty s = false <-> s <> EmptyString.
Proof. destruct s; simpl; split; congruence. Qed.

Lemma allChars_append (p : ascii -> bool) (a b : string) :
  allChars p (a ++ b) = allChars p a && allChars p b.
Proof.
  induction a as [|x a IH]; simpl; [reflexivity|].
  now rewrite IH, andb_assoc.
Qed.

Lemma span_spec (p : ascii -> bool) (s a b : string) :
  span p s = (a, b) ->
  s = a ++ b /\ allChars p a = true /\ stopsSpan p b.
Proof.
  revert a b; induction s as [|c s IH]; simpl; intros a b H.
  - inversion H; subst; simpl; auto.
  - destruct (p c) eqn:Hc.
    + destruct (span p s) as [a' b'] eqn:Hs.
      inversion H; subst; clear H.
      destruct (IH a' b eq_refl) as (-> & Ha & Hb).
      simpl; rewrite Hc, Ha; auto.
    + inversion H; subst; simpl; auto.
Qed.

Lemma span_exact (p : ascii -> bool) (a b : string) :
  allChars p a = true -> stopsSpan p b -> span p (a ++ b) = (a, b).
Proof.
  induction a as [|c a IH]; simpl; intros Ha Hb.
  - destruct b as [|x b]; simpl in *; [reflexivity | now rewrite Hb].
  - apply andb_prop in Ha as [Hc Ha].
    now rewrite Hc, (IH Ha Hb).
Qed.

Lemma stripPrefix_append (p s : string) : stripPrefix p (p ++ s) = Some s.
Proof.
  induction p as [|c p IH]; simpl; [now destruct s|].
  now rewrite Ascii.eqb_refl.
Qed.

Lemma stripPrefix_spec (p s rest : string) :
  stripPrefix p s = Some rest -> s = p ++ rest.
Proof.
  revert s; induction p as [|c p IH]; intros s H.
  - destruct s; simpl in H; inversion H; reflexivity.
  - destruct s as [|x s]; simpl in H; [discriminate|].
    destruct (Ascii.eqb_spec c x) as [->|]; [|discriminate].
    simpl; f_equal; auto.
Qed.

End StringFacts.

(* ===================================================================== *)
(** ** [parseSegment] against the three shapes *)
(* ===================================================================== *)

Section ParseSegmentFacts.

Lemma matchTagIndex_bare (s : string) :
  BareTag s -> matchTagIndex s = Some (s, None).
Proof.
  intros [Hne Hall]. unfold matchTagIndex.
  rewrite <- (append_empty_r s) at 1.
  rewrite (span_exact isTagChar s EmptyString Hall I).
  apply isEmpty_false in Hne. now rewrite Hne.
Qed.

Lemma matchTagIndex_indexed (name digits : string) :
  name <> EmptyString -> allChars isTagChar name = true ->
  digits <> EmptyString -> allChars isDigit digits = true ->
  matchTagIndex (name ++ "[" ++ digits ++ "]") = Some (name, Some digits).
Proof.
  intros Hn Hname Hd Hdigits. unfold matchTagIndex.
  rewrite (span_exact isTagChar name ("[" ++ digits ++ "]") Hname eq_refl).
  apply isEmpty_false in Hn; rewrite Hn. simpl.
  rewrite (span_exact isDigit digits "]" Hdigits eq_refl).
  apply isEmpty_false in Hd; rewrite Hd. reflexivity.
Qed.

Lemma matchTagIndex_sound (s name : string) (digits : option string) :
  matchTagIndex s = Some (name, digits) ->
  match digits with
  | None => BareTag s /\ name = s
  | Some dg =>
      s = name ++ "[" ++ dg ++ "]"
      /\ name <> EmptyString /\ allChars isTagChar name = true
      /\ dg <> EmptyString /\ allChars isDigit dg = true
  end.
Proof.
  unfold matchTagIndex.
  destruct (span isTagChar s) as [a b] eqn:Hspan.
  apply span_spec in Hspan as (-> & Ha & _).
  destruct (isEmpty a) eqn:Hemp; [discriminate|].
  apply isEmpty_false in Hemp.
  destruct b as [|c b].
  - intros H; inversion H; subst. rewrite append_empty_r. split; [split|]; auto.
  - destruct (Ascii.eqb_spec c "[") as [->|]; [|discriminate].
    destruct (span isDigit b) as [dg closing] eqn:Hdg.
    apply span_spec in Hdg as (-> & Hd & _).
    destruct (isEmpty dg) eqn:Hdemp; simpl; [discriminate|].
    destruct (String.eqb_spec closing "]") as [->|]; [|discriminate].
    intros H; inversion H; subst.
    apply isEmpty_false in Hdemp. auto.
Qed.

Lemma matchIdRef_complete (value : string) :
  value <> EmptyString -> allChars noQuote value = true ->
  matchIdRef (idRefOpen ++ value ++ idRefClose) = Some value.
Proof.
  intros Hne Hall. unfold matchIdRef.
  rewrite stripPrefix_append.
  rewrite (span_exact noQuote value idRefClose Hall eq_refl).
  apply isEmpty_false in Hne; rewrite Hne. reflexivity.
Qed.

Lemma matchIdRef_sound (s value : string) :
  matchIdRef s = Some value ->
  s = idRefOpen ++ value ++ idRefClose
  /\ value <> EmptyString /\ allChars noQuote value = true.
Proof.
  unfold matchIdRef.
  destruct (stripPrefix idRefOpen s) as [rest|] eqn:Hp; [|discriminate].
  apply stripPrefix_spec in Hp as ->.
  destruct (span noQuote rest) as [v closing] eqn:Hs.
  apply span_spec in Hs as (-> & Hv & _).
  destruct (isEmpty v) eqn:Hemp; simpl; [discriminate|].
  destruct (String.eqb_spec closing idRefClose) as [->|]; [|discriminate].
  intros H; inversion H; subst.
  apply isEmpty_false in Hemp. auto.
Qed.

(** The two [match] calls recognise exactly the three shapes. *)
Lemma wellFormed_matches (s : string) :
  WellFormedSegment s <->
  matchTagIndex s <> None \/ matchIdRef s <> None.
Proof.
  split.
  - intros [(name & dg & -> & Hn & Hname & Hd & Hdg) | [Hb | (v & -> & Hv & Hq)]].
    + left. now rewrite matchTagIndex_indexed.
    + left. now rewrite matchTagIndex_bare.
    + right. now rewrite matchIdRef_complete.
  - intros [H | H].
    + destruct (matchTagIndex s) as [[name [dg|]]|] eqn:Hm; [| |congruence].
      * apply matchTagIndex_sound in Hm. left. exists name, dg. exact Hm.
      * apply matchTagIndex_sound in Hm as [Hb _]. right; left; exact Hb.
    + destruct (matchIdRef s) as [v|] eqn:Hm; [|congruence].
      apply matchIdRef_sound in Hm. right; right. exists v. exact Hm.
Qed.

Lemma notWellFormed_fallback (s : string) :
  ~ WellFormedSegment s ->
  parseSegment s = {| tag := s; index := None; id := None |}.
Proof.
  intros H. unfold parseSegment.
  destruct (matchTagIndex s) as [[name dg]|] eqn:H1.
  - exfalso. apply H, wellFormed_matches. left. congruence.
  - destruct (matchIdRef s) as [v|] eqn:H2; [|reflexivity].
    exfalso. apply H, wellFormed_matches. right. congruence.
Qed.

Lemma starSegment_notWellFormed : ~ WellFormedSegment "li[*]".
Proof.
  intros H. apply wellFormed_matches in H. vm_compute in H.
  destruct H as [H | H]; now apply H.
Qed.

End ParseSegmentFacts.

(** C8, as the code has it: on an input that is none of [tag[n]], a bare
    tag, or a stable-id reference token, [parseSegment] does not fail; it
    returns the segment whose tag is the whole input, with no index and no
    id. *)
Theorem parseSegment_fallback_returns (s : string) :
  ~ WellFormedSegment s ->
  callParseSegment (Some s)
  = Returned {| tag := s; index := None; id := None |}.
Proof.
  intros H. unfold callParseSegment. now rewrite notWellFormed_fallback.
Qed.

Lemma parseSegment_fallback_returns_witness :
  ~ WellFormedSegment "li[*]"
  /\ callParseSegment (Some "li[*]")
     = Returned {| tag := "li[*]"; index := None; id := None |}.
Proof.
  split.
  - exact starSegment_notWellFormed.
  - apply (parseSegment_fallback_returns "li[*]" starSegment_notWellFormed).
Defined.

(** C8 as the specification states it fails on the pattern segment [li[*]]:
    the input is none of the three shapes, and the call returns a segment
    instead of failing with [MalformedSegmentError]. *)
Lemma parseSegment_no_MalformedSegmentError :
  (~ WellFormedSegment "li[*]")
  /\ callParseSegment (Some "li[*]")
     = Returned {| tag := "li[*]"; index := None; id := None |}
  /\ callParseSegment (Some "li[*]") <> Thrown MalformedSegmentError.
Proof.
  split; [exact starSegment_notWellFormed|].
  split; [reflexivity | discriminate].
Qed.

(* ===================================================================== *)
(** ** Splitting a path and printing a pattern *)
(* ===================================================================== *)

Section SplitFacts.

Lemma split_plain (s : string) :
  allChars noSlash s = true -> split slash s = [s].
Proof.
  induction s as [|c s IH]; simpl; intros H; [reflexivity|].
  apply andb_prop in H as [Hc Hs]. unfold noSlash in Hc.
  apply negb_true_iff in Hc. rewrite Hc, (IH Hs). reflexivity.
Qed.

Lemma split_append (a rest : string) :
  allChars noSlash a = true ->
  split slash (a ++ String slash rest) = a :: split slash rest.
Proof.
  induction a as [|c a IH]; simpl; intros H.
  - reflexivity.
  - apply andb_prop in H as [Hc Ha]. unfold noSlash in Hc.
    apply negb_true_iff in Hc. rewrite Hc, (IH Ha). reflexivity.
Qed.

Lemma split_pieces (s : string) :
  Forall (fun piece => allChars noSlash piece = true) (split slash s).
Proof.
  induction s as [|c s IH]; simpl.
  - constructor; [reflexivity | constructor].
  - destruct (c =? slash)%char eqn:Hc.
    + constructor; [reflexivity | exact IH].
    + destruct (split slash s) as [|piece pieces].
      * constructor; [|constructor]. simpl. unfold noSlash. now rewrite Hc.
      * inversion IH; subst. constructor; [|assumption].
        simpl. unfold noSlash at 1. now rewrite Hc.
Qed.

Lemma parseXPathToSegments_split (path : string) :
  parseXPathToSegments path = filter nonEmptyb (split slash path).
Proof.
  unfold parseXPathToSegments.
  induction path as [|c path IH]; simpl; [reflexivity|].
  destruct (c =? slash)%char eqn:Hc; simpl.
  - exact IH.
  - rewrite Hc. reflexivity.
Qed.

Lemma parseXPathToSegments_plain (path : string) :
  Forall PlainSegment (parseXPathToSegments path).
Proof.
  rewrite parseXPathToSegments_split.
  apply Forall_forall. intros piece Hin.
  apply filter_In in Hin as [Hin Hne].
  split.
  - apply isEmpty_false. unfold nonEmptyb in Hne.
    now apply negb_true_iff in Hne.
  - pose proof (split_pieces path) as H.
    rewrite Forall_forall in H. now apply H.
Qed.

Lemma join_cons (piece : string) (rest : list string) :
  rest <> [] ->
  join "/" (piece :: rest) = piece ++ String slash (join "/" rest).
Proof. destruct rest; [congruence | reflexivity]. Qed.

Lemma split_join (pieces : list string) :
  Forall PlainSegment pieces ->
  filter nonEmptyb (split slash (join "/" pieces)) = pieces.
Proof.
  induction pieces as [|piece rest IH]; intros H; [reflexivity|].
  inversion H as [|? ? [Hne Hplain] Hrest]; subst.
  destruct rest as [|next rest'].
  - simpl. rewrite (split_plain _ Hplain). simpl.
    unfold nonEmptyb. apply isEmpty_false in Hne. now rewrite Hne.
  - rewrite join_cons by discriminate.
    rewrite (split_append _ _ Hplain). simpl filter.
    unfold nonEmptyb at 1. apply isEmpty_false in Hne. rewrite Hne. simpl.
    f_equal. now apply IH.
Qed.

(** The segments of a printed pattern are the segments it was printed
    from. *)
Lemma parse_printed (pieces : list string) :
  Forall PlainSegment pieces ->
  parseXPathToSegments ("/" ++ join "/" pieces) = pieces.
Proof.
  intros H. rewrite parseXPathToSegments_split. simpl.
  now apply split_join.
Qed.

End SplitFacts.

(* ===================================================================== *)
(** ** The loop of [compareXPaths] *)
(* ===================================================================== *)

Section CompareFacts.

Lemma compareLoop_eq (segments1 segments2 : list string) :
  forall i acc vars,
    compareLoop i segments1 segments2 acc vars
    = if tagsAgreeb segments1 segments2
      then Some ((acc ++ loopSegments segments1 segments2)%list,
                 (vars ++ loopVariable i segments1 segments2)%list)
      else None.
Proof.
  revert segments2.
  induction segments1 as [|a rest1 IH]; intros [|b rest2] i acc vars;
    simpl; rewrite ?app_nil_r; try reflexivity.
  destruct (tag (parseSegment a) =? tag (parseSegment b)); simpl;
    [|reflexivity].
  unfold loopSegment.
  destruct (indexVaries (parseSegment a) (parseSegment b));
    rewrite IH; destruct (tagsAgreeb rest1 rest2);
    rewrite <- ?app_assoc; reflexivity.
Qed.

Lemma indexVaries_spec (a b : Segment) :
  indexVaries a b = true <->
  exists m n, index a = Some m /\ index b = Some n /\ m <> n.
Proof.
  unfold indexVaries, indexDiffers, notNull.
  destruct (index a) as [m|], (index b) as [n|]; simpl.
  - rewrite !andb_true_r, negb_true_iff, N.eqb_neq. split.
    + intros H. exists m, n. auto.
    + intros (m' & n' & Hm & Hn & Hne). congruence.
  - split; [discriminate|]. intros (? & ? & _ & H & _). discriminate.
  - split; [discriminate|]. intros (? & ? & H & _). discriminate.
  - split; [discriminate|]. intros (? & ? & H & _). discriminate.
Qed.

Lemma includesIndex_In (l : list nat) (i : nat) :
  includesIndex l i = true <-> In i l.
Proof.
  unfold includesIndex. rewrite existsb_exists. split.
  - intros (x & Hin & Heq). apply Nat.eqb_eq in Heq. now subst.
  - intros H. exists i. split; [assumption | apply Nat.eqb_refl].
Qed.

Lemma tagsAgreeb_spec (segments1 segments2 : list string) :
  List.length segments1 = List.length segments2 ->
  (tagsAgreeb segments1 segments2 = true <->
   forall j, j < List.length segments1 ->
     tag (parseSegment (nth j segments1 EmptyString))
     = tag (parseSegment (nth j segments2 EmptyString))).
Proof.
  revert segments2.
  induction segments1 as [|a rest1 IH]; intros [|b rest2] Hlen;
    simpl in *; try discriminate.
  - split; [intros _ j Hj; lia | reflexivity].
  - injection Hlen as Hlen. rewrite andb_true_iff, String.eqb_eq, (IH _ Hlen).
    split.
    + intros [Hab Hrest] [|j] Hj; [assumption | apply Hrest; lia].
    + intros H. split; [apply (H 0); lia|].
      intros j Hj. apply (H (S j)). lia.
Qed.

Lemma loopSegments_length (segments1 segments2 : list string) :
  List.length segments1 = List.length segments2 ->
  List.length (loopSegments segments1 segments2) = List.length segments1.
Proof.
  revert segments2.
  induction segments1 as [|a rest1 IH]; intros [|b rest2] Hlen;
    simpl in *; try discriminate; [reflexivity|].
  f_equal. apply IH. now injection Hlen.
Qed.

Lemma loopSegments_nth (segments1 segments2 : list string) :
  List.length segments1 = List.length segments2 ->
  forall j, j < List.length segments1 ->
    nth j (loopSegments segments1 segments2) EmptyString
    = loopSegment (nth j segments1 EmptyString) (nth j segments2 EmptyString).
Proof.
  revert segments2.
  induction segments1 as [|a rest1 IH]; intros [|b rest2] Hlen j Hj;
    simpl in *; try discriminate; try lia.
  destruct j as [|j]; [reflexivity|].
  apply IH; [now injection Hlen | lia].
Qed.

Lemma loopVariable_In (segments1 segments2 : list string) :
  List.length segments1 = List.length segments2 ->
  forall i k,
    In k (loopVariable i segments1 segments2) <->
    exists j, k = i + j /\ j < List.length segments1
              /\ indexVaries (parseSegment (nth j segments1 EmptyString))
                   (parseSegment (nth j segments2 EmptyString)) = true.
Proof.
  revert segments2.
  induction segments1 as [|a rest1 IH]; intros [|b rest2] Hlen i k;
    simpl in *; try discriminate.
  - split; [contradiction | intros (j & _ & Hj & _); lia].
  - injection Hlen as Hlen.
    destruct (indexVaries (parseSegment a) (parseSegment b)) eqn:Hv; simpl;
      rewrite (IH _ Hlen (S i) k); split.
    + intros [<- | (j & -> & Hj & Hvj)].
      * exists 0. repeat split; [lia | lia | assumption].
      * exists (S j). repeat split; [lia | lia | assumption].
    + intros ([|j] & -> & Hj & Hvj).
      * left. lia.
      * right. exists j. repeat split; [lia | lia | assumption].
    + intros (j & -> & Hj & Hvj).
      exists (S j). repeat split; [lia | lia | assumption].
    + intros ([|j] & -> & Hj & Hvj).
      * congruence.
      * exists j. repeat split; [lia | lia | assumption].
Qed.

Lemma loopVariable_sorted (segments1 segments2 : list string) :
  forall i, StronglySorted lt (loopVariable i segments1 segments2)
            /\ Forall (fun k => i <= k) (loopVariable i segments1 segments2).
Proof.
  revert segments2.
  induction segments1 as [|a rest1 IH]; intros [|b rest2] i;
    simpl; try (split; constructor).
  destruct (IH rest2 (S i)) as [Hs Hge].
  destruct (indexVaries (parseSegment a) (parseSegment b)).
  - split.
    + constructor; [assumption|].
      eapply Forall_impl; [|exact Hge]. simpl. intros; lia.
    + constructor; [lia|].
      eapply Forall_impl; [|exact Hge]. simpl. intros; lia.
  - split; [assumption|].
    eapply Forall_impl; [|exact Hge]. simpl. intros; lia.
Qed.

End CompareFacts.

Section PlainFacts.

Lemma allChars_impl (p q : ascii -> bool) (s : string) :
  (forall c, p c = true -> q c = true) ->
  allChars p s = true -> allChars q s = true.
Proof.
  intros Hpq. induction s as [|c s IH]; simpl; [reflexivity|].
  intros H. apply andb_prop in H as [Hc Hs].
  now rewrite (Hpq c Hc), (IH Hs).
Qed.

Lemma isTagChar_noSlash (c : ascii) : isTagChar c = true -> noSlash c = true.
Proof.
  destruct c as [[|] [|] [|] [|] [|] [|] [|] [|]]; vm_compute; congruence.
Qed.

Lemma isDigit_noSlash (c : ascii) : isDigit c = true -> noSlash c = true.
Proof.
  destruct c as [[|] [|] [|] [|] [|] [|] [|] [|]]; vm_compute; congruence.
Qed.

Lemma uint_digits (u : Decimal.uint) :
  allChars isDigit (NilEmpty.string_of_uint u) = true.
Proof. induction u; simpl; auto. Qed.

Lemma ofNumber_digits (n : N) : allChars isDigit (ofNumber n) = true.
Proof.
  unfold ofNumber, NilZero.string_of_uint.
  destruct (N.to_uint n); try apply uint_digits. reflexivity.
Qed.

Lemma ofNumber_nonempty (n : N) : ofNumber n <> EmptyString.
Proof.
  unfold ofNumber, NilZero.string_of_uint.
  destruct (N.to_uint n); simpl; discriminate.
Qed.

Lemma plain_append (a b : string) :
  PlainSegment a -> allChars noSlash b = true -> PlainSegment (a ++ b).
Proof.
  intros [Hne Ha] Hb. split.
  - destruct a; [congruence | discriminate].
  - now rewrite allChars_append, Ha, Hb.
Qed.

Lemma tag_plain (s : string) :
  PlainSegment s -> PlainSegment (tag (parseSegment s)).
Proof.
  intros Hs. unfold parseSegment.
  destruct (matchTagIndex s) as [[name dg]|] eqn:Hm.
  - apply matchTagIndex_sound in Hm. simpl.
    destruct dg as [dg|].
    + destruct Hm as (_ & Hne & Hall & _). split; [assumption|].
      eapply allChars_impl; [apply isTagChar_noSlash | exact Hall].
    + destruct Hm as [_ ->]. exact Hs.
  - destruct (matchIdRef s); simpl; [|exact Hs].
    split; [discriminate | reflexivity].
Qed.

Lemma wildcardSegment_plain (s : string) :
  PlainSegment s -> PlainSegment (wildcardSegment (parseSegment s)).
Proof.
  intros Hs. unfold wildcardSegment.
  apply plain_append; [now apply tag_plain | reflexivity].
Qed.

Lemma literalSegment_plain (s : string) :
  PlainSegment s -> PlainSegment (literalSegment (parseSegment s)).
Proof.
  intros Hs. unfold literalSegment.
  destruct (index (parseSegment s)) as [n|]; [|now apply tag_plain].
  apply plain_append; [now apply tag_plain|].
  simpl. rewrite allChars_append. simpl.
  rewrite (allChars_impl isDigit noSlash _ isDigit_noSlash (ofNumber_digits n)).
  reflexivity.
Qed.

Lemma loopSegments_plain (segments1 segments2 : list string) :
  Forall PlainSegment segments1 ->
  Forall PlainSegment (loopSegments segments1 segments2).
Proof.
  revert segments2.
  induction segments1 as [|a rest1 IH]; intros [|b rest2] H; simpl;
    try constructor.
  - inversion H; subst. unfold loopSegment.
    destruct (indexVaries _ _);
      [now apply wildcardSegment_plain | now apply literalSegment_plain].
  - inversion H; subst. now apply IH.
Qed.

End PlainFacts.

Section CompareXPathsFacts.

Variables path1 path2 : string.

Let segments1 := parseXPathToSegments path1.
Let segments2 := parseXPathToSegments path2.

(** The three ways out of [compareXPaths]. *)
Lemma compareXPaths_cases :
  (List.length segments1 = List.length segments2
   /\ tagsAgreeb segments1 segments2 = true
   /\ loopVariable 0 segments1 segments2 <> []
   /\ compareXPaths path1 path2
      = {| pattern := Some ("/" ++ join "/" (loopSegments segments1 segments2));
           variableIndices := loopVariable 0 segments1 segments2;
           isValid := true |})
  \/ ((List.length segments1 <> List.length segments2
       \/ tagsAgreeb segments1 segments2 = false
       \/ loopVariable 0 segments1 segments2 = [])
      /\ compareXPaths path1 path2 = notComparable).
Proof.
  unfold compareXPaths. fold segments1 segments2.
  destruct (Nat.eqb_spec (List.length segments1) (List.length segments2))
    as [Hlen | Hlen]; simpl; [|right; auto].
  rewrite compareLoop_eq. simpl.
  destruct (tagsAgreeb segments1 segments2) eqn:Htags; [|right; auto].
  destruct (loopVariable 0 segments1 segments2) as [|k ks] eqn:Hvars; simpl;
    [right; auto|].
  left. repeat split; auto. discriminate.
Qed.

Lemma comparable_loop :
  Comparable path1 path2 <->
  List.length segments1 = List.length segments2
  /\ tagsAgreeb segments1 segments2 = true
  /\ loopVariable 0 segments1 segments2 <> [].
Proof.
  unfold Comparable, segmentCount, IndexVariesAt, segmentAt.
  fold segments1 segments2. split.
  - intros (Hlen & Htags & (i & Hi & Hv)). split; [assumption|]. split.
    + now apply tagsAgreeb_spec.
    + intros Hnil.
      assert (Hin : In i (loopVariable 0 segments1 segments2)).
      { apply (loopVariable_In _ _ Hlen). exists i.
        repeat split; [assumption|]. now apply indexVaries_spec. }
      rewrite Hnil in Hin. contradiction.
  - intros (Hlen & Htags & Hne). split; [assumption|]. split.
    + now apply tagsAgreeb_spec.
    + destruct (loopVariable 0 segments1 segments2) as [|k ks] eqn:Hvars;
        [congruence|].
      assert (Hin : In k (loopVariable 0 segments1 segments2))
        by (rewrite Hvars; now left).
      apply (loopVariable_In _ _ Hlen) in Hin as (j & -> & Hj & Hv).
      exists j. split; [assumption|]. now apply indexVaries_spec.
Qed.

Lemma compareXPaths_comparable :
  Comparable path1 path2 -> PatternFor path1 path2 (compareXPaths path1 path2).
Proof.
  intros Hc. pose proof Hc as (Hlen & Htags & Hne)%comparable_loop.
  destruct compareXPaths_cases as [(_ & _ & _ & Heq) | [[H | [H | H]] _]];
    [|congruence..].
  rewrite Heq. unfold PatternFor; simpl.
  pose proof (parseXPathToSegments_plain path1) as Hplain.
  fold segments1 in Hplain.
  pose proof (parse_printed _ (loopSegments_plain segments1 segments2 Hplain))
    as Hprinted.
  exists ("/" ++ join "/" (loopSegments segments1 segments2)).
  split; [reflexivity|]. split; [apply loopVariable_sorted|]. split; [|split].
  - intros i. unfold segmentCount, IndexVariesAt, segmentAt.
    fold segments1 segments2.
    rewrite (loopVariable_In _ _ Hlen). split.
    + intros (j & -> & Hj & Hv). split; [assumption|].
      now apply indexVaries_spec.
    + intros [Hi Hv]. exists i. repeat split; [assumption|].
      now apply indexVaries_spec.
  - unfold segmentCount. rewrite Hprinted. fold segments1.
    now apply loopSegments_length.
  - intros i Hi. unfold segmentCount in Hi. fold segments1 in Hi.
    rewrite Hprinted, (loopSegments_nth _ _ Hlen i Hi).
    unfold loopSegment, segmentAt. fold segments1.
    destruct (indexVaries _ _) eqn:Hv.
    + assert (Hin : includesIndex (loopVariable 0 segments1 segments2) i = true).
      { apply includesIndex_In, (loopVariable_In _ _ Hlen).
        exists i. auto. }
      now rewrite Hin.
    + destruct (includesIndex _ i) eqn:Hin; [|reflexivity].
      apply includesIndex_In, (loopVariable_In _ _ Hlen) in Hin
        as (j & Hij & _ & Hvj).
      simpl in Hij. subst j. congruence.
Qed.

Lemma compareXPaths_notComparable :
  ~ Comparable path1 path2 -> compareXPaths path1 path2 = notComparable.
Proof.
  intros Hn.
  destruct compareXPaths_cases as [(Hlen & Htags & Hne & _) | [_ Heq]];
    [|exact Heq].
  exfalso. apply Hn, comparable_loop. auto.
Qed.

End CompareXPathsFacts.

Lemma not_comparable_self (path : string) : ~ Comparable path path.
Proof.
  intros (_ & _ & (i & _ & (m & n & Hm & Hn & Hne))). congruence.
Qed.


Lemma comparable_rows :
  Comparable "/html/body/table[1]/tr[1]/td[2]" "/html/body/table[1]/tr[3]/td[2]".
Proof. apply comparable_loop. vm_compute. repeat split; discriminate. Qed.

Lemma comparable_mixed :
  Comparable "/html/body/div[1]/span" "/html/body/div[2]/span[1]".
Proof. apply comparable_loop. vm_compute. repeat split; discriminate. Qed.

Lemma comparable_mixed_indexed :
  Comparable "/html/body/div[1]/span[1]" "/html/body/div[2]/span".
Proof. apply comparable_loop. vm_compute. repeat split; discriminate. Qed.

Section NumberFacts.

Lemma parseInt_ofNumber (n : N) : parseInt (ofNumber n) = n.
Proof.
  unfold parseInt, ofNumber, NilZero.string_of_uint.
  pose proof (DecimalN.Unsigned.of_to n) as Hn.
  destruct (N.to_uint n) eqn:Hd;
    try (rewrite <- Hd, NilEmpty.usu, Hd; exact Hn).
  simpl. simpl in Hn. now subst.
Qed.

End NumberFacts.

Lemma parseSegment_indexed (name : string) (n : N) :
  name <> EmptyString -> allChars isTagChar name = true ->
  parseSegment (name ++ "[" ++ ofNumber n ++ "]")
  = {| tag := name; index := Some n; id := None |}.
Proof.
  intros Hne Hname. unfold parseSegment.
  rewrite (matchTagIndex_indexed name (ofNumber n) Hne Hname
             (ofNumber_nonempty n) (ofNumber_digits n)).
  simpl. now rewrite parseInt_ofNumber.
Qed.

(** What [parseSegment] returns with an index, it read from a tag
    followed by bracketed digits. *)
Lemma parseSegment_with_index (s : string) (n : N) :
  index (parseSegment s) = Some n ->
  tag (parseSegment s) <> EmptyString
  /\ allChars isTagChar (tag (parseSegment s)) = true
  /\ id (parseSegment s) = None.
Proof.
  unfold parseSegment.
  destruct (matchTagIndex s) as [[name [digits|]]|] eqn:Hm.
  - apply matchTagIndex_sound in Hm. simpl. tauto.
  - discriminate.
  - destruct (matchIdRef s); discriminate.
Qed.

(** What [parseSegment] returns without an index, with a tag made of the
    characters of a tag name, is the segment itself as the tag. *)
Lemma parseSegment_without_index (s : string) :
  index (parseSegment s) = None ->
  allChars isTagChar (tag (parseSegment s)) = true ->
  tag (parseSegment s) = s.
Proof.
  unfold parseSegment.
  destruct (matchTagIndex s) as [[name [digits|]]|] eqn:Hm.
  - discriminate.
  - apply matchTagIndex_sound in Hm as [_ ->]. reflexivity.
  - destruct (matchIdRef s); [|reflexivity].
    intros _ Hstar. vm_compute in Hstar. discriminate.
Qed.

(** C10: at a position where the tag names agree and exactly one of the two
    indices is null, [compareXPaths] does not make the position a wildcard
    and does not give up.  The pattern holds there the first path's tag
    followed by the first path's index in brackets when it has one, and the
    first path's segment as it is when it has none; read by [parseSegment],
    the segment of the pattern has the tag and the index of the first
    path's segment. *)
Theorem compareXPaths_one_null_index_is_literal (path1 path2 : string) (i : nat) :
  Comparable path1 path2 ->
  i < segmentCount path1 ->
  OneIndexNullAt path1 path2 i ->
  exists text vars,
    compareXPaths path1 path2
    = {| pattern := Some text; variableIndices := vars; isValid := true |}
    /\ ~ In i vars
    /\ nth i (parseXPathToSegments text) EmptyString
       = match index (segmentAt path1 i) with
         | Some n => tag (segmentAt path1 i) ++ "[" ++ ofNumber n ++ "]"
         | None => nth i (parseXPathToSegments path1) EmptyString
         end
    /\ segmentAt text i = segmentAt path1 i.
Proof.
  intros Hc Hi Hnull.
  destruct (compareXPaths_comparable path1 path2 Hc)
    as (text & Heq & _ & Hvars & _ & Hnth).
  exists text, (variableIndices (compareXPaths path1 path2)).
  assert (Hnot : ~ In i (variableIndices (compareXPaths path1 path2))).
  { intros Hin. apply Hvars in Hin as [_ (m & n & Hm & Hn & _)].
    destruct Hnull as [[H _] | [_ H]]; congruence. }
  split; [exact Heq|]. split; [exact Hnot|].
  assert (Hprinted : nth i (parseXPathToSegments text) EmptyString
                     = literalSegment (segmentAt path1 i)).
  { rewrite (Hnth i Hi).
    destruct (includesIndex _ i) eqn:Hin; [|reflexivity].
    now apply includesIndex_In in Hin. }
  assert (Hparsed : segmentAt text i
                    = parseSegment (literalSegment (segmentAt path1 i))).
  { unfold segmentAt at 1. now rewrite Hprinted. }
  rewrite Hprinted, Hparsed. clear Hprinted Hparsed.
  pose (segment1 := nth i (parseXPathToSegments path1) EmptyString).
  unfold OneIndexNullAt in Hnull.
  change (segmentAt path1 i) with (parseSegment segment1) in *.
  unfold literalSegment.
  destruct (index (parseSegment segment1)) as [n|] eqn:Hindex.
  - split; [reflexivity|].
    destruct (parseSegment_with_index segment1 n Hindex) as (Hne & Hchars & Hid).
    rewrite (parseSegment_indexed _ n Hne Hchars).
    destruct (parseSegment segment1) as [name found ref]. simpl in *.
    now subst.
  - assert (Hsecond : exists n, index (segmentAt path2 i) = Some n).
    { destruct Hnull as [[_ H] | [H _]]; [|congruence].
      destruct (index (segmentAt path2 i)) as [n|]; [now exists n | congruence]. }
    destruct Hsecond as (n & Hn).
    destruct (parseSegment_with_index _ n Hn) as (_ & Hchars & _).
    destruct Hc as (_ & Htags & _).
    fold (segmentAt path2 i) in Hchars. rewrite <- (Htags i Hi) in Hchars.
    change (segmentAt path1 i) with (parseSegment segment1) in Hchars.
    rewrite (parseSegment_without_index segment1 Hindex Hchars).
    split; reflexivity.
Qed.

Lemma compareXPaths_one_null_index_is_literal_witness :
  compareXPaths "/html/body/div[1]/span[1]" "/html/body/div[2]/span"
  = {| pattern := Some "/html/body/div[*]/span[1]";
       variableIndices := [2];
       isValid := true |}
  /\ compareXPaths "/html/body/div[1]/span" "/html/body/div[2]/span[1]"
     = {| pattern := Some "/html/body/div[*]/span";
          variableIndices := [2];
          isValid := true |}
  /\ (exists text vars,
        compareXPaths "/html/body/div[1]/span[1]" "/html/body/div[2]/span"
        = {| pattern := Some text; variableIndices := vars; isValid := true |}
        /\ ~ In 3 vars
        /\ nth 3 (parseXPathToSegments text) EmptyString = "span[1]"
        /\ segmentAt text 3
           = {| tag := "span"; index := Some 1%N; id := None |})
  /\ (exists text vars,
        compareXPaths "/html/body/div[1]/span" "/html/body/div[2]/span[1]"
        = {| pattern := Some text; variableIndices := vars; isValid := true |}
        /\ ~ In 3 vars
        /\ nth 3 (parseXPathToSegments text) EmptyString = "span"
        /\ segmentAt text 3
           = {| tag := "span"; index := None; id := None |}).
Proof.
  split; [reflexivity|]. split; [reflexivity|]. split.
  - apply (compareXPaths_one_null_index_is_literal
             "/html/body/div[1]/span[1]" "/html/body/div[2]/span" 3).
    + exact comparable_mixed_indexed.
    + vm_compute. lia.
    + right. split; vm_compute; [discriminate | reflexivity].
  - apply (compareXPaths_one_null_index_is_literal
             "/html/body/div[1]/span" "/html/body/div[2]/span[1]" 3).
    + exact comparable_mixed.
    + vm_compute. lia.
    + left. split; vm_compute; [reflexivity | discriminate].
Defined.


(* ===================================================================== *)
(** ** The loop of [detect2DPattern] and its caller *)
(* ===================================================================== *)

Section DetectFacts.

Lemma detectLoop_Some (existing : list nat) (segments1 segments2 : list string) :
  forall i acc vars found segs vars' found',
    detectLoop existing i segments1 segments2 acc vars found
    = Some (segs, vars', found') ->
    tagsAgreeb segments1 segments2 = true
    /\ exists extra, vars' = (vars ++ extra)%list.
Proof.
  revert segments2.
  induction segments1 as [|a rest1 IH]; intros [|b rest2] i acc vars found
    segs vars' found' H; simpl in *;
    try (inversion H; subst; split; [reflexivity | exists []; now rewrite app_nil_r]).
  destruct (tag (parseSegment a) =? tag (parseSegment b)); simpl in *;
    [|discriminate].
  destruct (includesIndex existing i).
  - now apply IH in H.
  - destruct (notNull _ && notNull _ && indexDiffers _ _).
    + apply IH in H as [Ht (extra & ->)]. split; [assumption|].
      exists (i :: extra). now rewrite <- app_assoc.
    + now apply IH in H.
Qed.

Lemma tagMismatch_tagsAgreeb (path1 path2 : string) :
  segmentCount path1 = segmentCount path2 ->
  TagMismatch path1 path2 ->
  tagsAgreeb (parseXPathToSegments path1) (parseXPathToSegments path2) = false.
Proof.
  intros Hlen (i & Hi & _ & Hne).
  destruct (tagsAgreeb _ _) eqn:Ht; [|reflexivity].
  exfalso. apply Hne.
  exact (proj1 (tagsAgreeb_spec _ _ Hlen) Ht i Hi).
Qed.

Lemma detect2DPattern_mismatch (existingPattern : string)
    (existingVariableIndices : list nat) (newXPath : string) :
  TagMismatch existingPattern newXPath ->
  detect2DPattern existingPattern existingVariableIndices newXPath = notDetected.
Proof.
  intros Hm. unfold detect2DPattern.
  destruct (Nat.eqb_spec (List.length (parseXPathToSegments existingPattern))
              (List.length (parseXPathToSegments newXPath))) as [Hlen|];
    simpl; [|reflexivity].
  destruct (detectLoop _ _ _ _ _ _ _) as [[[segs vars] found]|] eqn:Hloop;
    [|reflexivity].
  apply detectLoop_Some in Hloop as [Ht _].
  rewrite (tagMismatch_tagsAgreeb _ _ Hlen Hm) in Ht. discriminate.
Qed.

Lemma detect2DPattern_incl (existingPattern : string)
    (existingVariableIndices : list nat) (newXPath : string) :
  incl existingVariableIndices
    (variableIndices2D
       (detect2DPattern existingPattern existingVariableIndices newXPath))
  \/ isValid2D (detect2DPattern existingPattern existingVariableIndices newXPath)
     = false.
Proof.
  unfold detect2DPattern.
  destruct (negb _); [now right|].
  destruct (detectLoop _ _ _ _ _ _ _) as [[[segs vars] found]|] eqn:Hloop;
    [|now right].
  left. apply detectLoop_Some in Hloop as [_ (extra & ->)].
  destruct found; simpl.
  - apply incl_appl, incl_refl.
  - apply incl_refl.
Qed.

End DetectFacts.

(** C3: when [detect2DPattern] succeeds, every position of the existing
    variable positions is among the variable positions it returns. *)
Theorem detect2DPattern_keeps_wildcards (existingPattern : string)
    (existingVariableIndices : list nat) (newXPath : string) (i : nat) :
  isValid2D (detect2DPattern existingPattern existingVariableIndices newXPath)
  = true ->
  In i existingVariableIndices ->
  In i (variableIndices2D
          (detect2DPattern existingPattern existingVariableIndices newXPath)).
Proof.
  intros Hvalid Hin.
  destruct (detect2DPattern_incl existingPattern existingVariableIndices newXPath)
    as [Hincl | Hinvalid].
  - now apply Hincl.
  - congruence.
Qed.

Lemma detect2DPattern_keeps_wildcards_witness :
  detect2DPattern "/html/body/ul[1]/li[*]" [3] "/html/body/ul[2]/li[*]"
  = {| pattern2D := Some "/html/body/ul[*]/li[*][*]";
       variableIndices2D := [3; 2];
       isValid2D := true;
       is2D := true |}
  /\ In 3 (variableIndices2D
             (detect2DPattern "/html/body/ul[1]/li[*]" [3]
                "/html/body/ul[2]/li[*]")).
Proof.
  split; [reflexivity|].
  apply (detect2DPattern_keeps_wildcards "/html/body/ul[1]/li[*]" [3]
           "/html/body/ul[2]/li[*]" 3).
  - reflexivity.
  - simpl. auto.
Defined.

(* ===================================================================== *)
(** ** Starred segments under [parseSegment] *)
(* ===================================================================== *)

Section StarFacts.

Lemma includes_here (needle rest : string) :
  includes needle (needle ++ rest) = true.
Proof.
  destruct (needle ++ rest) eqn:H; simpl; rewrite <- H, stripPrefix_append;
    reflexivity.
Qed.

Lemma includes_append (needle a rest : string) :
  includes needle rest = true -> includes needle (a ++ rest) = true.
Proof.
  intros H. induction a as [|c a IH]; simpl; [exact H|].
  destruct (stripPrefix needle (String c (a ++ rest))); [reflexivity|exact IH].
Qed.

Lemma allChars_last (p : ascii -> bool) (a : string) (c : ascii) (rest : string) :
  allChars p (a ++ String c rest) = true -> p c = true.
Proof.
  rewrite allChars_append. intros [_ H]%andb_prop. simpl in H.
  now apply andb_prop in H.
Qed.

(** A name followed by a starred bracket matches neither expression of
    [parseSegment]: its tag is the whole text. *)
Lemma parseSegment_starred (name : string) :
  name <> EmptyString -> allChars isTagChar name = true ->
  parseSegment (name ++ "[*]")
  = {| tag := name ++ "[*]"; index := None; id := None |}.
Proof.
  intros Hne Hall. unfold parseSegment.
  assert (H1 : matchTagIndex (name ++ "[*]") = None).
  { unfold matchTagIndex.
    rewrite (span_exact isTagChar name "[*]" Hall eq_refl).
    apply isEmpty_false in Hne. now rewrite Hne. }
  assert (H2 : matchIdRef (name ++ "[*]") = None).
  { unfold matchIdRef. destruct name as [|c name]; [congruence|].
    simpl in Hall. apply andb_prop in Hall as [Hc _].
    change (stripPrefix idRefOpen (String c name ++ "[*]"))
      with (if ("*" =? c)%char
            then stripPrefix (String "[" (String "@" (String "i" (String "d"
                   (String "=" (String dquote EmptyString))))))
                   (name ++ "[*]")
            else None).
    destruct (Ascii.eqb_spec "*" c) as [<-|]; [discriminate|reflexivity]. }
  now rewrite H1, H2.
Qed.

(** The tag [parseSegment] reads off a segment that holds no starred
    bracket is never a name followed by one. *)
Lemma unstarred_tag (name segment : string) :
  includes "[*]" segment = false ->
  tag (parseSegment segment) <> name ++ "[*]".
Proof.
  intros Hinc Heq. unfold parseSegment in Heq.
  destruct (matchTagIndex segment) as [[found digits]|] eqn:H1.
  - simpl in Heq. subst found.
    assert (Hall : allChars isTagChar (name ++ "[*]") = true).
    { destruct digits; apply matchTagIndex_sound in H1.
      - tauto.
      - destruct H1 as [[_ Hall] <-]. exact Hall. }
    apply allChars_last in Hall. discriminate.
  - destruct (matchIdRef segment) as [value|] eqn:H2; simpl in Heq.
    + destruct name as [|c [|c' name]]; discriminate.
    + subst segment.
      rewrite (includes_append "[*]" name "[*]" eq_refl) in Hinc. discriminate.
Qed.

(** A pattern of [compareXPaths] and a path with as many segments, none
    holding a starred bracket, differ in the tag at a variable position. *)
Lemma compare_pattern_mismatch (path1 path2 existingPattern newXPath : string) :
  pattern (compareXPaths path1 path2) = Some existingPattern ->
  (forall segment, In segment (parseXPathToSegments newXPath) ->
                   includes "[*]" segment = false) ->
  segmentCount existingPattern = segmentCount newXPath ->
  TagMismatch existingPattern newXPath.
Proof.
  intros Hpat Hnew Hlen.
  assert (Hc : Comparable path1 path2).
  { destruct (compareXPaths_cases path1 path2)
      as [(Hl & Htags & Hne & _) | [_ Heq]].
    - apply comparable_loop. auto.
    - rewrite Heq in Hpat. discriminate. }
  destruct (compareXPaths_comparable path1 path2 Hc)
    as (text & Hres & _ & Hvars & Hcount & Hnth).
  rewrite Hres in Hpat. simpl in Hpat. injection Hpat as ->.
  destruct Hc as (_ & _ & (i & Hi & Hv)).
  exists i. split; [lia|]. split; [lia|].
  unfold segmentAt at 1. rewrite (Hnth i Hi).
  assert (Hin : includesIndex (variableIndices (compareXPaths path1 path2)) i
                = true).
  { apply includesIndex_In, Hvars. auto. }
  rewrite Hin. unfold wildcardSegment.
  destruct Hv as (m & n & Hm & _ & _).
  assert (Hname : tag (segmentAt path1 i) <> EmptyString
                  /\ allChars isTagChar (tag (segmentAt path1 i)) = true).
  { unfold segmentAt in *. unfold parseSegment in *.
    destruct (matchTagIndex _) as [[found [digits|]]|] eqn:H1.
    - apply matchTagIndex_sound in H1. simpl. tauto.
    - discriminate.
    - destruct (matchIdRef _); discriminate. }
  rewrite (parseSegment_starred _ (proj1 Hname) (proj2 Hname)). simpl.
  intros Heq. symmetry in Heq. revert Heq. apply unstarred_tag.
  apply Hnew, nth_In. unfold segmentCount in *. lia.
Qed.

End StarFacts.

(** X1: a pattern returned by [compareXPaths] is rejected by
    [detect2DPattern] for every new path none of whose segments holds a
    starred bracket, whatever the variable positions: the tag test reads
    the tag of a pattern segment [li[*]] as the whole text. *)
Theorem detect2DPattern_rejects_unstarred_paths
    (path1 path2 existingPattern : string) (existingVariableIndices : list nat)
    (newXPath : string) :
  pattern (compareXPaths path1 path2) = Some existingPattern ->
  (forall segment, In segment (parseXPathToSegments newXPath) ->
                   includes "[*]" segment = false) ->
  detect2DPattern existingPattern existingVariableIndices newXPath = notDetected.
Proof.
  intros Hpat Hnew.
  destruct (Nat.eq_dec (segmentCount existingPattern) (segmentCount newXPath))
    as [Hlen | Hlen].
  - apply detect2DPattern_mismatch.
    exact (compare_pattern_mismatch path1 path2 existingPattern newXPath
             Hpat Hnew Hlen).
  - unfold detect2DPattern. unfold segmentCount in Hlen.
    apply Nat.eqb_neq in Hlen. now rewrite Hlen.
Qed.

Lemma detect2DPattern_rejects_unstarred_paths_witness :
  pattern (compareXPaths "/html/body/ul[1]/li[1]" "/html/body/ul[1]/li[2]")
  = Some "/html/body/ul[1]/li[*]"
  /\ detect2DPattern "/html/body/ul[1]/li[*]" [3] "/html/body/ul[2]/li[1]"
     = notDetected
  /\ detect2DPattern "/html/body/ul[1]/li[*]" [3] "/html/body/ul[1]/li[3]"
     = notDetected.
Proof.
  assert (Hpat : pattern (compareXPaths "/html/body/ul[1]/li[1]"
                            "/html/body/ul[1]/li[2]")
                 = Some "/html/body/ul[1]/li[*]") by reflexivity.
  split; [exact Hpat|]. split.
  - apply (detect2DPattern_rejects_unstarred_paths
             "/html/body/ul[1]/li[1]" "/html/body/ul[1]/li[2]"
             "/html/body/ul[1]/li[*]" [3] "/html/body/ul[2]/li[1]" Hpat).
    intros segment Hin. vm_compute in Hin.
    repeat (destruct Hin as [<- | Hin]; [reflexivity|]). contradiction.
  - apply (detect2DPattern_rejects_unstarred_paths
             "/html/body/ul[1]/li[1]" "/html/body/ul[1]/li[2]"
             "/html/body/ul[1]/li[*]" [3] "/html/body/ul[1]/li[3]" Hpat).
    intros segment Hin. vm_compute in Hin.
    repeat (destruct Hin as [<- | Hin]; [reflexivity|]). contradiction.
Defined.

Section UpdatePatternFacts.

Variable d : Dom.

Lemma extendWithLatest_invalid (st : State) (current : Pattern)
    (paths : list string) (text : string) :
  patternXPath current = Some text ->
  detect2DPattern text (patternVariableIndices current) (last paths EmptyString)
  = notDetected ->
  extendWithLatest d st current paths
  = assignMatched st (findMatchingElements d (Some text)).
Proof.
  intros Hx Hd. unfold extendWithLatest, detectWith.
  rewrite Hx, Hd. reflexivity.
Qed.

Lemma updatePattern_three (st : State) (current : Pattern) :
  3 <= List.length (selectedElements st) ->
  detectedPattern st = Some current ->
  patternType current <> TMultiple ->
  updatePattern d st
  = extendWithLatest d st current
      (map (fun sel => generateAbsoluteXPath d (element sel))
         (selectedElements st)).
Proof.
  intros Hlen Hp Ht. unfold updatePattern.
  destruct (selectedElements st) as [|a [|b [|c rest]]]; simpl in Hlen; try lia.
  rewrite Hp.
  destruct (patternType current); simpl; try reflexivity. congruence.
Qed.

End UpdatePatternFacts.

(** C7: when the tag name of the new path differs from the pattern's at
    some position, [detect2DPattern] returns the invalid result; and when
    [updatePattern], with three or more selected elements, makes that call
    for the pattern it holds and the path of the element selected last, it
    leaves [detectedPattern] and the selection as they were and only
    evaluates the held pattern again. *)
Theorem detect2DPattern_tag_mismatch_keeps_pattern (existingPattern : string)
    (existingVariableIndices : list nat) (newXPath : string) :
  TagMismatch existingPattern newXPath ->
  detect2DPattern existingPattern existingVariableIndices newXPath = notDetected
  /\ forall d st current,
       3 <= List.length (selectedElements st) ->
       detectedPattern st = Some current ->
       patternType current <> TMultiple ->
       patternXPath current = Some existingPattern ->
       patternVariableIndices current = existingVariableIndices ->
       latestAbsoluteXPath d st = newXPath ->
       updatePattern d st
       = assignMatched st (findMatchingElements d (Some existingPattern))
       /\ detectedPattern (finalState (updatePattern d st)) = Some current
       /\ selectedElements (finalState (updatePattern d st))
          = selectedElements st.
Proof.
  intros Hm.
  pose proof (detect2DPattern_mismatch existingPattern existingVariableIndices
                newXPath Hm) as Hd.
  split; [exact Hd|].
  intros d st current Hlen Hp Ht Hx Hv Hlatest.
  assert (Hu : updatePattern d st
               = assignMatched st
                   (findMatchingElements d (Some existingPattern))).
  { rewrite (updatePattern_three d st current Hlen Hp Ht).
    apply extendWithLatest_invalid; [exact Hx|].
    fold (latestAbsoluteXPath d st). now rewrite Hv, Hlatest. }
  split; [exact Hu|].
  rewrite Hu. destruct (findMatchingElements d (Some existingPattern)); simpl; auto.
Qed.

Lemma detect2DPattern_tag_mismatch_keeps_pattern_witness :
  detect2DPattern "/html/body/table[1]/tr[*]/td[1]" [3]
    "/html/body/div[1]/p[1]/span[1]" = notDetected
  /\ updatePattern sampleDom spanPushed
     = assignMatched spanPushed
         (findMatchingElements sampleDom
            (Some "/html/body/table[1]/tr[*]/td[1]"))
  /\ detectedPattern (finalState (updatePattern sampleDom spanPushed))
     = Some {| patternType := T1d;
               patternXPath := Some "/html/body/table[1]/tr[*]/td[1]";
               patternVariableIndices := [3] |}
  /\ selectedElements (finalState (updatePattern sampleDom spanPushed))
     = selectedElements spanPushed.
Proof.
  assert (Hm : TagMismatch "/html/body/table[1]/tr[*]/td[1]"
                 "/html/body/div[1]/p[1]/span[1]").
  { exists 2. vm_compute. repeat split; try lia. discriminate. }
  destruct (detect2DPattern_tag_mismatch_keeps_pattern
              "/html/body/table[1]/tr[*]/td[1]" [3]
              "/html/body/div[1]/p[1]/span[1]" Hm) as [Hd Hcaller].
  split; [exact Hd|].
  apply (Hcaller sampleDom spanPushed
           {| patternType := T1d;
              patternXPath := Some "/html/body/table[1]/tr[*]/td[1]";
              patternVariableIndices := [3] |}).
  - vm_compute. lia.
  - reflexivity.
  - discriminate.
  - reflexivity.
  - reflexivity.
  - reflexivity.
Defined.

(* ===================================================================== *)
(** ** Deselection *)
(* ===================================================================== *)

Section DeselectFacts.

Variable d : Dom.

Lemma assignMatched_selected (st : State) (o : Outcome (list Node)) :
  selectedElements (finalState (assignMatched st o)) = selectedElements st.
Proof. destruct o; reflexivity. Qed.

Lemma assignMatched_pattern (st : State) (o : Outcome (list Node)) :
  detectedPattern (finalState (assignMatched st o)) = detectedPattern st.
Proof. destruct o; reflexivity. Qed.

Lemma extendWithLatest_selected (st : State) (current : Pattern)
    (paths : list string) :
  selectedElements (finalState (extendWithLatest d st current paths))
  = selectedElements st.
Proof.
  unfold extendWithLatest.
  destruct (detectWith current _) as [result|]; [|reflexivity].
  destruct (isValid2D result); now rewrite assignMatched_selected.
Qed.

(** [updatePattern] never touches the selection. *)
Lemma updatePattern_selected (st : State) :
  selectedElements (finalState (updatePattern d st)) = selectedElements st.
Proof.
  unfold updatePattern.
  destruct (selectedElements st) as [|a [|b [|c rest]]] eqn:Hsel;
    repeat match goal with
      | |- context [if ?b then _ else _] => destruct b
      | |- context [match detectedPattern st with _ => _ end] =>
          destruct (detectedPattern st)
      end;
    rewrite ?assignMatched_selected, ?extendWithLatest_selected;
    simpl; exact Hsel.
Qed.




End DeselectFacts.




(* ===================================================================== *)
(** ** Nodes outside the document *)
(* ===================================================================== *)

Section DetachedFacts.

Lemma removed_never_reaches (k : nat) (up : list nat) :
  ~ ReachesDocument (ElementNode (Detached k) up).
Proof.
  induction up as [|i up IH]; intros H; inversion H; subst; simpl in *.
  - match goal with Hp : ReachesDocument NullNode |- _ => inversion Hp end.
    congruence.
  - now apply IH.
Qed.

Lemma removed_is_not_body (d : Dom) (k : nat) (up : list nat) :
  Node_eqb (ElementNode (Detached k) up) (body d) = false.
Proof.
  unfold body. destruct (tagName (documentElement d) =? "html"); [|reflexivity].
  destruct (findPosition _ _); reflexivity.
Qed.

Lemma removed_root_path (d : Dom) (k : nat) :
  generateAbsoluteXPath d (ElementNode (Detached k) []) = EmptyString.
Proof.
  cbn [generateAbsoluteXPath absoluteXPathOfElement].
  now rewrite removed_is_not_body.
Qed.

Lemma removed_inner_path (d : Dom) (k position : nat) (up : list nat) :
  generateAbsoluteXPath d (ElementNode (Detached k) (position :: up))
  = generateAbsoluteXPath d (ElementNode (Detached k) up)
    ++ "/" ++ ownSegment d (Detached k) position up.
Proof.
  cbn [generateAbsoluteXPath absoluteXPathOfElement].
  now rewrite removed_is_not_body.
Qed.

End DetachedFacts.

(** C9, as the code has it: for an element with no path to the document,
    [generateAbsoluteXPath] does not fail.  It returns the empty string for
    the root of the removed tree and, below that root, the path of the
    parent followed by the element's own segment; and [updatePattern]
    leaves every entry in the selection. *)
Theorem detached_node_gets_a_path_and_stays (d : Dom) (k : nat) :
  (forall up, ~ ReachesDocument (ElementNode (Detached k) up))
  /\ callGenerateAbsoluteXPath d (ElementNode (Detached k) [])
     = Returned EmptyString
  /\ (forall position up,
        callGenerateAbsoluteXPath d (ElementNode (Detached k) (position :: up))
        = Returned (generateAbsoluteXPath d (ElementNode (Detached k) up)
                    ++ "/" ++ ownSegment d (Detached k) position up))
  /\ (forall st,
        selectedElements (finalState (updatePattern d st))
        = selectedElements st).
Proof.
  split; [apply removed_never_reaches|].
  unfold callGenerateAbsoluteXPath.
  split; [now rewrite removed_root_path|].
  split; [intros; now rewrite removed_inner_path|].
  apply updatePattern_selected.
Qed.

(** C9 as the specification states it fails on the sample page: the root
    of the removed tree has no parent, the call returns the empty string
    instead of failing with [DetachedNodeError], and [updatePattern] keeps
    the node both in the selection and among the matched elements. *)
Lemma detached_node_is_not_dropped :
  parentNode sampleDetached = NullNode
  /\ callGenerateAbsoluteXPath sampleDom sampleDetached = Returned EmptyString
  /\ callGenerateAbsoluteXPath sampleDom sampleDetached
     <> Thrown DetachedNodeError
  /\ (exists st',
        updatePattern sampleDom staleSelection = Normal st'
        /\ map element (selectedElements st')
           = [sampleCell 0 0; sampleDetached]
        /\ matchedElements st' = [sampleCell 0 0; sampleDetached]).
Proof.
  split; [reflexivity|]. split; [reflexivity|]. split; [discriminate|].
  eexists. split; [vm_compute; reflexivity|]. split; reflexivity.
Qed.


(* ===================================================================== *)
(** ** The recursive evaluator *)
(* ===================================================================== *)

Section TreeFacts.

Lemma elementCount_eq (e : Element) :
  elementCount e = S (totalCount (children e)).
Proof.
  destruct e as [t i c x cs]. unfold totalCount. simpl. f_equal.
  induction cs as [|c' cs IH]; simpl; [reflexivity | now rewrite IH].
Qed.

Lemma descend_app (e : Element) (down1 down2 : list nat) :
  descend e (down1 ++ down2)
  = match descend e down1 with
    | Some e' => descend e' down2
    | None => None
    end.
Proof.
  revert e. induction down1 as [|i down1 IH]; intros e; simpl; [reflexivity|].
  destruct (nth_error (children e) i); [apply IH | reflexivity].
Qed.

Lemma elementAt_child (d : Dom) (r : Root) (up : list nat) (i : nat) (e : Element) :
  elementAt d (ElementNode r up) = Some e ->
  elementAt d (ElementNode r (i :: up)) = nth_error (children e) i.
Proof.
  unfold elementAt. destruct (rootElement d r) as [root|]; [|discriminate].
  intros H. simpl rev. rewrite descend_app, H. simpl.
  destruct (nth_error (children e) i); reflexivity.
Qed.

Lemma elementCount_positive (e : Element) : 1 <= elementCount e.
Proof. rewrite elementCount_eq. lia. Qed.

Lemma nth_error_count (l : list Element) (i : nat) (c : Element) :
  nth_error l i = Some c -> elementCount c <= totalCount l.
Proof.
  revert i. induction l as [|x l IH]; intros [|i] H; simpl in *;
    try discriminate; unfold totalCount in *; simpl.
  - inversion H; subst. lia.
  - specialize (IH i H). lia.
Qed.

End TreeFacts.

Section CollectFacts.

Variable d : Dom.

Lemma bind_returned {A : Type} (o : Outcome A) :
  (let* r := o in Returned r) = o.
Proof. destruct o; reflexivity. Qed.

(** The wildcard loop is the concatenation, in child order, of the
    sub-results of the children that carry the tag. *)
Lemma wildcardLoop_concat (f : Node -> Outcome (list Node)) (name : string)
    (childList results : list Node) :
  wildcardLoop d f name childList results
  = (let* found := concatOutcomes f (filter (hasTag d name) childList) in
     Returned (results ++ found)%list).
Proof.
  revert results. induction childList as [|child rest IH]; intros results; simpl.
  - now rewrite app_nil_r.
  - destruct (hasTag d name child); simpl; [|apply IH].
    destruct (f child) as [sub|]; simpl; [|reflexivity].
    rewrite IH.
    destruct (concatOutcomes f (filter (hasTag d name) rest)); simpl;
      [now rewrite app_assoc | reflexivity].
Qed.

Lemma includes_star_not_sentinel (segment : string) :
  includes "[*]" segment = true ->
  (segment =? "html") = false /\ (segment =? "body") = false.
Proof.
  intros H. split.
  - destruct (String.eqb_spec segment "html") as [->|]; [discriminate | reflexivity].
  - destruct (String.eqb_spec segment "body") as [->|]; [discriminate | reflexivity].
Qed.

Lemma collectRemaining_wildcard (segment : string) (rest : list string)
    (currentNode : Node) :
  includes "[*]" segment = true ->
  currentNode <> NullNode ->
  collectRemaining d (segment :: rest) currentNode
  = concatOutcomes (collectRemaining d rest)
      (filter (hasTag d (tag (parseSegment (replaceFirst "[*]" "[1]" segment))))
         (childNodes d currentNode)).
Proof.
  intros Hstar Hnode.
  destruct (includes_star_not_sentinel segment Hstar) as [Hhtml Hbody].
  cbn [collectRemaining]. rewrite Hhtml, Hbody, Hstar. simpl.
  destruct currentNode; [congruence| |];
    now rewrite wildcardLoop_concat, bind_returned.
Qed.

Lemma weight_positive (n : Node) : 1 <= weight d n.
Proof.
  unfold weight. destruct n; try apply elementCount_positive.
  - simpl. lia.
  - destruct (elementAt d _); [apply elementCount_positive | lia].
Qed.

Lemma children_weight_from (r : Root) (up : list nat) (cs : list Element) :
  forall start,
    (forall i c, nth_error cs i = Some c ->
       elementAt d (ElementNode r ((start + i) :: up)) = Some c) ->
    map (weight d)
      (map (fun i => ElementNode r (i :: up)) (seq start (List.length cs)))
    = map elementCount cs.
Proof.
  induction cs as [|c cs IH]; intros start H; [reflexivity|].
  cbn [List.length seq map]. f_equal.
  - pose proof (H 0 c eq_refl) as H0. rewrite Nat.add_0_r in H0.
    unfold weight. now rewrite H0.
  - apply IH. intros i c' Hi. specialize (H (S i) c' Hi).
    now rewrite Nat.add_succ_r in H.
Qed.

Lemma children_weight (n : Node) :
  n <> NullNode ->
  list_sum (map (weight d) (childNodes d n)) <= weight d n.
Proof.
  intros Hn. destruct n as [| |r up]; [congruence| |].
  - simpl. lia.
  - unfold childNodes, childElements. cbn [weight].
    destruct (elementAt d (ElementNode r up)) as [e|] eqn:He; [|simpl; lia].
    rewrite (children_weight_from r up (children e) 0).
    + rewrite elementCount_eq. unfold totalCount. lia.
    + intros i c Hi. change (0 + i) with i.
      now rewrite (elementAt_child d r up i e He).
Qed.

Lemma wildcardLoop_bound (f : Node -> Outcome (list Node)) (name : string) :
  BoundedBy d f ->
  forall childList results found,
    wildcardLoop d f name childList results = Returned found ->
    List.length found
    <= List.length results + list_sum (map (weight d) childList).
Proof.
  intros Hf. induction childList as [|child rest IH]; intros results found H;
    simpl in *.
  - inversion H; subst. lia.
  - destruct (hasTag d name child).
    + destruct (f child) as [sub|] eqn:Hsub; simpl in H; [|discriminate].
      apply IH in H. rewrite length_app in H.
      pose proof (Hf child sub Hsub). lia.
    + apply IH in H. lia.
Qed.

Lemma fixedLoop_bound (f : Node -> Outcome (list Node)) (name : string)
    (targetIndex : N) :
  BoundedBy d f ->
  forall childList count results found,
    fixedLoop d f name targetIndex childList count results = Returned found ->
    List.length found
    <= List.length results + list_sum (map (weight d) childList).
Proof.
  intros Hf. induction childList as [|child rest IH];
    intros count results found H; simpl in *.
  - inversion H; subst. lia.
  - destruct (hasTag d name child).
    + destruct ((count + 1 =? targetIndex)%N).
      * destruct (f child) as [sub|] eqn:Hsub; simpl in H; [|discriminate].
        inversion H; subst. rewrite length_app.
        pose proof (Hf child sub Hsub). lia.
      * apply IH in H. lia.
    + apply IH in H. lia.
Qed.

Lemma findPosition_nth {A : Type} (p : A -> bool) (l : list A) (i : nat) :
  findPosition p l = Some i -> exists x, nth_error l i = Some x /\ p x = true.
Proof.
  revert i. induction l as [|x l IH]; intros i H; simpl in H; [discriminate|].
  destruct (p x) eqn:Hp.
  - inversion H; subst. exists x. auto.
  - destruct (findPosition p l) as [j|]; [|discriminate].
    inversion H; subst. destruct (IH j eq_refl) as (y & Hy & Hpy).
    exists y. auto.
Qed.

Lemma body_weight : weight d (body d) <= weight d documentElementNode.
Proof.
  unfold body.
  destruct (tagName (documentElement d) =? "html");
    [|apply weight_positive].
  destruct (findPosition _ _) as [i|] eqn:Hf; [|apply weight_positive].
  apply findPosition_nth in Hf as (c & Hc & _).
  unfold weight, documentElementNode.
  rewrite (elementAt_child d InDocument [] i (documentElement d) eq_refl), Hc.
  change (elementAt d (ElementNode InDocument []))
    with (Some (documentElement d)).
  pose proof (elementCount_eq (documentElement d)).
  pose proof (nth_error_count _ _ _ Hc). lia.
Qed.

Lemma collectRemaining_bound (segments : list string) :
  BoundedBy d (collectRemaining d segments).
Proof.
  induction segments as [|segment rest IH]; intros n found H.
  - simpl in H. inversion H; subst.
    destruct (Node_eqb n DocumentNode); simpl; [lia | apply weight_positive].
  - cbn [collectRemaining] in H.
    destruct ((segment =? "html") && Node_eqb n DocumentNode) eqn:Hhtml.
    + apply andb_prop in Hhtml as [_ Hn].
      destruct n; try discriminate.
      apply IH in H. exact H.
    + destruct ((segment =? "body") && Node_eqb n documentElementNode) eqn:Hbody.
      * apply andb_prop in Hbody as [_ Hn].
        assert (n = documentElementNode) as ->.
        { destruct n as [| |[|k] [|i up]]; simpl in Hn; try discriminate.
          reflexivity. }
        apply IH in H. pose proof body_weight. lia.
      * assert (Hn : n <> NullNode) by (intros ->; discriminate).
        pose proof (children_weight n Hn) as Hw.
        destruct (includes "[*]" segment).
        -- assert (Hb : List.length found
                        <= 0 + list_sum (map (weight d) (childNodes d n))).
           { destruct n; [congruence| |];
               exact (wildcardLoop_bound _ _ IH _ _ _ H). }
           lia.
        -- assert (Hb : List.length found
                        <= 0 + list_sum (map (weight d) (childNodes d n))).
           { destruct n; [congruence| |];
               exact (fixedLoop_bound _ _ _ IH _ _ _ _ H). }
           lia.
Qed.

Lemma childNodes_not_null (n child : Node) :
  In child (childNodes d n) -> child <> NullNode.
Proof.
  destruct n as [| |r up]; simpl.
  - contradiction.
  - intros [<- | []]. discriminate.
  - intros Hin. apply in_map_iff in Hin as (i & <- & _). discriminate.
Qed.

Lemma wildcardLoop_returns (f : Node -> Outcome (list Node)) (name : string) :
  ReturnsOnNodes f ->
  forall childList results,
    (forall child, In child childList -> child <> NullNode) ->
    exists found, wildcardLoop d f name childList results = Returned found.
Proof.
  intros Hf. induction childList as [|child rest IH]; intros results Hc; simpl.
  - eauto.
  - destruct (hasTag d name child).
    + destruct (Hf child (Hc child (or_introl eq_refl))) as (sub & ->). simpl.
      apply IH. intros c Hin. apply Hc. now right.
    + apply IH. intros c Hin. apply Hc. now right.
Qed.

Lemma fixedLoop_returns (f : Node -> Outcome (list Node)) (name : string)
    (targetIndex : N) :
  ReturnsOnNodes f ->
  forall childList count results,
    (forall child, In child childList -> child <> NullNode) ->
    exists found,
      fixedLoop d f name targetIndex childList count results = Returned found.
Proof.
  intros Hf. induction childList as [|child rest IH];
    intros count results Hc; simpl.
  - eauto.
  - destruct (hasTag d name child).
    + destruct ((count + 1 =? targetIndex)%N).
      * destruct (Hf child (Hc child (or_introl eq_refl))) as (sub & ->). simpl.
        eauto.
      * apply IH. intros c Hin. apply Hc. now right.
    + apply IH. intros c Hin. apply Hc. now right.
Qed.

Lemma collectRemaining_returns (segments : list string) :
  body d <> NullNode -> ReturnsOnNodes (collectRemaining d segments).
Proof.
  intros Hbody. induction segments as [|segment rest IH]; intros n Hn.
  - simpl. eauto.
  - cbn [collectRemaining].
    destruct ((segment =? "html") && Node_eqb n DocumentNode);
      [apply IH; discriminate|].
    destruct ((segment =? "body") && Node_eqb n documentElementNode);
      [apply IH; exact Hbody|].
    destruct n; [congruence| |];
      (destruct (includes "[*]" segment);
       [apply wildcardLoop_returns | apply fixedLoop_returns];
       solve [exact IH | apply childNodes_not_null]).
Qed.

Lemma skipn_nth_error {A : Type} (l : list A) (i : nat) (x : A) :
  nth_error l i = Some x -> skipn i l = x :: skipn (S i) l.
Proof.
  revert i. induction l as [|y l IH]; intros [|i] H; simpl in *;
    try discriminate.
  - now inversion H.
  - now apply IH.
Qed.

End CollectFacts.


(* ===================================================================== *)
(** ** The grid of [extract2DData] *)
(* ===================================================================== *)

Section SortFacts.

Context {A : Type} (key : A -> N).

Lemma insertByKey_perm (x : A) (l : list A) :
  Permutation (insertByKey key x l) (x :: l).
Proof.
  induction l as [|y l IH]; simpl; [reflexivity|].
  destruct (key x <=? key y)%N; [reflexivity|].
  rewrite IH. apply perm_swap.
Qed.

Lemma sortByKey_perm (l : list A) : Permutation (sortByKey key l) l.
Proof.
  induction l as [|x l IH]; simpl; [reflexivity|].
  unfold sortByKey in *. simpl. rewrite insertByKey_perm. now constructor.
Qed.

Lemma insertByKey_sorted (x : A) (l : list A) :
  StronglySorted (keyLe key) l -> StronglySorted (keyLe key) (insertByKey key x l).
Proof.
  induction l as [|y l IH]; intros Hs; simpl.
  - constructor; constructor.
  - inversion Hs as [|? ? Hl Hy]; subst.
    destruct (N.leb_spec (key x) (key y)) as [Hle | Hlt].
    + constructor; [assumption|]. constructor; [exact Hle|].
      eapply Forall_impl; [|exact Hy]. unfold keyLe. intros; lia.
    + constructor; [now apply IH|].
      apply Forall_forall. intros z Hz.
      apply (Permutation_in _ (insertByKey_perm x l)) in Hz as [<- | Hz].
      * unfold keyLe. lia.
      * rewrite Forall_forall in Hy. now apply Hy.
Qed.

Lemma sortByKey_sorted (l : list A) : StronglySorted (keyLe key) (sortByKey key l).
Proof.
  induction l as [|x l IH]; simpl; [constructor|].
  now apply insertByKey_sorted.
Qed.

End SortFacts.

Section SortMapFacts.

Lemma sortByKey_map {A B : Type} (key : A -> N) (key' : B -> N) (f : A -> B)
    (l : list A) :
  (forall x, key' (f x) = key x) ->
  sortByKey key' (map f l) = map f (sortByKey key l).
Proof.
  intros Hk. induction l as [|x l IH]; [reflexivity|].
  unfold sortByKey in *. simpl. rewrite IH.
  generalize (fold_right (insertByKey key) [] l). intros sorted.
  induction sorted as [|y sorted IHs]; simpl; [reflexivity|].
  rewrite !Hk. destruct (key x <=? key y)%N; simpl; [reflexivity|].
  now rewrite IHs.
Qed.

Lemma sorted_nodup_strict (l : list N) :
  NoDup l -> StronglySorted (keyLe (fun k => k)) l -> StronglySorted N.lt l.
Proof.
  induction l as [|x l IH]; intros Hn Hs; [constructor|].
  inversion Hn; subst. inversion Hs as [|? ? Hl Hx]; subst.
  constructor; [now apply IH|].
  apply Forall_forall. intros y Hy.
  rewrite Forall_forall in Hx. specialize (Hx y Hy). unfold keyLe in Hx.
  assert (x <> y) by (intros ->; contradiction). lia.
Qed.

End SortMapFacts.

Section RowMapFacts.

Lemma hasRow_In (k : N) (m : RowMap) :
  hasRow k m = true <-> In k (map fst m).
Proof.
  induction m as [|[k0 cells] m IH]; simpl; [split; [discriminate | contradiction]|].
  rewrite orb_true_iff, N.eqb_eq, IH. reflexivity.
Qed.

Lemma getRow_ensureRow (k k' : N) (m : RowMap) :
  getRow k' (ensureRow k m) = getRow k' m.
Proof.
  unfold ensureRow. destruct (hasRow k m); [reflexivity|].
  induction m as [|[k0 cells] m IH]; simpl.
  - now destruct (k =? k')%N.
  - now destruct (k0 =? k')%N.
Qed.

Lemma ensureRow_keys (k : N) (m : RowMap) :
  map fst (ensureRow k m)
  = if hasRow k m then map fst m else (map fst m ++ [k])%list.
Proof.
  unfold ensureRow. destruct (hasRow k m); [reflexivity|].
  now rewrite map_app.
Qed.

Lemma pushToRow_keys (k : N) (c : Cell) (m : RowMap) :
  map fst (pushToRow k c m) = map fst m.
Proof.
  induction m as [|[k0 cells] m IH]; simpl; [reflexivity|].
  destruct (k0 =? k)%N; simpl; [reflexivity | now rewrite IH].
Qed.

Lemma getRow_pushToRow (k k' : N) (c : Cell) (m : RowMap) :
  In k (map fst m) ->
  getRow k' (pushToRow k c m)
  = if (k' =? k)%N then (getRow k m ++ [c])%list else getRow k' m.
Proof.
  induction m as [|[k0 cells] m IH]; simpl; [contradiction|].
  intros Hin.
  destruct (N.eqb_spec k0 k) as [-> | Hne]; simpl.
  - rewrite (N.eqb_sym k k'). destruct (k' =? k)%N; reflexivity.
  - destruct Hin as [Heq | Hin]; [congruence|].
    rewrite (IH Hin).
    destruct (N.eqb_spec k0 k') as [-> | Hne'].
    + destruct (N.eqb_spec k' k) as [-> | _]; [congruence | reflexivity].
    + reflexivity.
Qed.

Variable d : Dom.
Variables rowVarIndex colVarIndex : nat.

Lemma represents_nil : Represents d rowVarIndex colVarIndex [] [].
Proof.
  split; [constructor|]. split.
  - intros k. simpl. split; [contradiction | intros (n & [] & _)].
  - reflexivity.
Qed.

Lemma represents_push (m : RowMap) (nodes : list Node) (n : Node) :
  Represents d rowVarIndex colVarIndex m nodes ->
  Represents d rowVarIndex colVarIndex
    (pushToRow (keyOf d rowVarIndex n) (cellOf d colVarIndex n)
       (ensureRow (keyOf d rowVarIndex n) m))
    (nodes ++ [n]).
Proof.
  intros (Hnodup & Hkeys & Hrows).
  set (k := keyOf d rowVarIndex n).
  assert (Hpresent : In k (map fst (ensureRow k m))).
  { rewrite ensureRow_keys. destruct (hasRow k m) eqn:Hh.
    - now apply hasRow_In.
    - apply in_or_app. right. now left. }
  split; [|split].
  - rewrite pushToRow_keys, ensureRow_keys.
    destruct (hasRow k m) eqn:Hh; [assumption|].
    apply NoDup_app; [assumption | repeat constructor; intros [] |].
    intros x Hx [<- | []].
    apply hasRow_In in Hx. congruence.
  - intros k'. rewrite pushToRow_keys, ensureRow_keys.
    assert (Hin : In k' (map fst m ++ [k]) <->
                  exists n', In n' (nodes ++ [n]) /\ keyOf d rowVarIndex n' = k').
    { rewrite in_app_iff, Hkeys. split.
      - intros [(n' & Hn' & Hk') | [<- | []]].
        + exists n'. split; [apply in_or_app; now left | assumption].
        + exists n. split; [apply in_or_app; right; now left | reflexivity].
      - intros (n' & Hn' & Hk'). apply in_app_or in Hn' as [Hn' | [<- | []]].
        + left. exists n'. auto.
        + right. left. exact Hk'. }
    destruct (hasRow k m) eqn:Hh; [|exact Hin].
    rewrite <- Hin, in_app_iff. apply hasRow_In in Hh.
    split; [now left|]. intros [H | [<- | []]]; assumption.
  - intros k'. rewrite (getRow_pushToRow _ _ _ _ Hpresent), !getRow_ensureRow.
    rewrite filter_app, map_app, !Hrows. simpl. fold k.
    destruct (N.eqb_spec k' k) as [-> | Hne].
    + now rewrite N.eqb_refl.
    + destruct (N.eqb_spec k k') as [-> | _]; [congruence|].
      simpl. now rewrite app_nil_r.
Qed.

Lemma keyAtPosition_keyOf (n : Node) (i : nat) :
  i < List.length (pathSegmentsOf d n) ->
  keyAtPosition (pathSegmentsOf d n) i = Returned (keyOf d i n).
Proof.
  intros Hi. unfold keyAtPosition, keyOf.
  destruct (nth_error (pathSegmentsOf d n) i) as [segment|] eqn:Hnth.
  - simpl. now rewrite (nth_error_nth _ _ _ Hnth).
  - apply nth_error_None in Hnth. lia.
Qed.

Lemma normalizedTextOf_textOf (n : Node) :
  n <> NullNode -> normalizedTextOf d n = Returned (textOf d n).
Proof. destruct n; [congruence | reflexivity | reflexivity]. Qed.

Variable segmentCount' : nat.
Hypothesis rowInRange : rowVarIndex < segmentCount'.
Hypothesis colInRange : colVarIndex < segmentCount'.

Lemma addMatchedElement_eq (m : RowMap) (n : Node) :
  n <> NullNode ->
  addMatchedElement d segmentCount' rowVarIndex colVarIndex m n
  = Returned
      (if hasSegmentCount d segmentCount' n
       then pushToRow (keyOf d rowVarIndex n) (cellOf d colVarIndex n)
              (ensureRow (keyOf d rowVarIndex n) m)
       else m).
Proof.
  intros Hn. unfold addMatchedElement, hasSegmentCount.
  fold (pathSegmentsOf d n).
  destruct (Nat.eqb_spec (List.length (pathSegmentsOf d n)) segmentCount')
    as [Hlen | Hlen]; simpl; [|reflexivity].
  rewrite !keyAtPosition_keyOf by lia. simpl.
  now rewrite (normalizedTextOf_textOf n Hn).
Qed.

Lemma collectRows_represents (matched : list Node) :
  Forall (fun n => n <> NullNode) matched ->
  forall m processed,
    Represents d rowVarIndex colVarIndex m processed ->
    exists m',
      collectRows d segmentCount' rowVarIndex colVarIndex matched m = Returned m'
      /\ Represents d rowVarIndex colVarIndex m'
           (processed ++ filter (hasSegmentCount d segmentCount') matched).
Proof.
  induction 1 as [|n matched Hn Hrest IH]; intros m processed Hm; simpl.
  - exists m. now rewrite app_nil_r.
  - rewrite (addMatchedElement_eq m n Hn). simpl.
    destruct (hasSegmentCount d segmentCount' n).
    + destruct (IH _ (processed ++ [n])%list (represents_push m processed n Hm))
        as (m' & Hc & Hr).
      exists m'. split; [exact Hc|]. simpl.
      now rewrite <- app_assoc in Hr.
    + apply IH. exact Hm.
Qed.

End RowMapFacts.

Lemma matrixOfRows_represents (d : Dom) (rowVarIndex colVarIndex : nat)
    (m : RowMap) (nodes : list Node) :
  Represents d rowVarIndex colVarIndex m nodes ->
  exists rowKeys,
    matrixOfRows m
    = map (fun k => map (textOf d)
                      (sortByKey (keyOf d colVarIndex)
                         (rowNodes d rowVarIndex k nodes)))
        rowKeys
    /\ StronglySorted N.lt rowKeys
    /\ (forall k, In k rowKeys <->
                  exists n, In n nodes /\ keyOf d rowVarIndex n = k).
Proof.
  intros (Hnodup & Hkeys & Hrows).
  exists (sortByKey (fun k => k) (map fst m)).
  pose proof (sortByKey_perm (fun k : N => k) (map fst m)) as Hperm.
  split; [|split].
  - unfold matrixOfRows. apply map_ext. intros k.
    rewrite Hrows.
    rewrite (sortByKey_map (keyOf d colVarIndex) colIndex (cellOf d colVarIndex))
      by reflexivity.
    rewrite map_map. reflexivity.
  - apply sorted_nodup_strict; [|apply sortByKey_sorted].
    eapply Permutation_NoDup; [symmetry; exact Hperm | exact Hnodup].
  - intros k. rewrite <- Hkeys. split; apply Permutation_in;
      [exact Hperm | symmetry; exact Hperm].
Qed.

Lemma first_two_are_least (rowVarIndex colVarIndex : nat) (more : list nat) :
  StronglySorted lt (rowVarIndex :: colVarIndex :: more) ->
  forall i, In i (rowVarIndex :: colVarIndex :: more) ->
    rowVarIndex <= i /\ (i <> rowVarIndex -> colVarIndex <= i).
Proof.
  intros Hs i Hin.
  inversion Hs as [|? ? Hs' Hrow]; subst.
  inversion Hs' as [|? ? _ Hcol]; subst.
  rewrite Forall_forall in Hrow, Hcol.
  destruct Hin as [<- | [<- | Hin]].
  - split; [lia | congruence].
  - specialize (Hrow colVarIndex (or_introl eq_refl)). split; lia.
  - pose proof (Hrow i (or_intror Hin)). pose proof (Hcol i Hin). split; lia.
Qed.

(** C5: for a pattern with at least two variable positions, [extract2DData]
    groups the matched nodes by the index at the first variable position,
    lists the rows by ascending row key, and inside a row lists the texts by
    ascending index at the second variable position; when the variable
    positions are in ascending order, as [compareXPaths] records them, the
    first is the leftmost and the second the next one.  The matched nodes
    are those whose path has as many segments as the pattern. *)
Theorem extract2DData_rows_and_columns (d : Dom) (st : State) (p : Pattern)
    (text : string) (rowVarIndex colVarIndex : nat) (more : list nat) :
  detectedPattern st = Some p ->
  patternXPath p = Some text ->
  patternVariableIndices p = rowVarIndex :: colVarIndex :: more ->
  rowVarIndex < segmentCount text ->
  colVarIndex < segmentCount text ->
  Forall (fun n => n <> NullNode) (matchedElements st) ->
  exists rowKeys,
    extract2DData d st
    = Returned
        {| data :=
             Matrix
               (map (fun k =>
                       map (textOf d)
                         (sortByKey (keyOf d colVarIndex)
                            (rowNodes d rowVarIndex k
                               (gridNodes d text (matchedElements st)))))
                  rowKeys);
           infoType := T2d;
           infoXPath := Some text |}
    /\ StronglySorted N.lt rowKeys
    /\ (forall k, In k rowKeys <->
                  exists n, In n (gridNodes d text (matchedElements st))
                            /\ keyOf d rowVarIndex n = k)
    /\ (forall k,
          let row := rowNodes d rowVarIndex k
                       (gridNodes d text (matchedElements st)) in
          StronglySorted (keyLe (keyOf d colVarIndex))
            (sortByKey (keyOf d colVarIndex) row)
          /\ Permutation (sortByKey (keyOf d colVarIndex) row) row)
    /\ (StronglySorted lt (patternVariableIndices p) ->
        forall i, In i (patternVariableIndices p) ->
          rowVarIndex <= i /\ (i <> rowVarIndex -> colVarIndex <= i)).
Proof.
  intros Hp Hx Hv Hrow Hcol Hnodes.
  destruct (collectRows_represents d rowVarIndex colVarIndex (segmentCount text)
              Hrow Hcol (matchedElements st) Hnodes [] []
              (represents_nil d rowVarIndex colVarIndex))
    as (m & Hcollect & Hrep).
  simpl in Hrep.
  destruct (matrixOfRows_represents d rowVarIndex colVarIndex m _ Hrep)
    as (rowKeys & Hmatrix & Hsorted & Hkeys).
  exists rowKeys. split; [|split; [exact Hsorted | split; [exact Hkeys | split]]].
  - unfold extract2DData. rewrite Hp, Hv. simpl.
    unfold extract2DMatrix. rewrite Hx, Hv.
    unfold segmentCount in Hcollect. rewrite Hcollect. simpl.
    now rewrite Hmatrix.
  - intros k row. split; [apply sortByKey_sorted | apply sortByKey_perm].
  - rewrite Hv. apply first_two_are_least.
Qed.

Lemma extract2DData_rows_and_columns_witness :
  extract2DData sampleDom twoAxes
  = Returned {| data := Matrix [["a"; "b"; "c"]; ["d"; "e"; "f"]];
                infoType := T2d;
                infoXPath := Some "/html/body/table[1]/tr[*]/td[*]" |}
  /\ exists rowKeys,
       extract2DData sampleDom twoAxes
       = Returned
           {| data :=
                Matrix
                  (map (fun k =>
                          map (textOf sampleDom)
                            (sortByKey (keyOf sampleDom 4)
                               (rowNodes sampleDom 3 k
                                  (gridNodes sampleDom
                                     "/html/body/table[1]/tr[*]/td[*]"
                                     (matchedElements twoAxes)))))
                     rowKeys);
              infoType := T2d;
              infoXPath := Some "/html/body/table[1]/tr[*]/td[*]" |}
       /\ StronglySorted N.lt rowKeys.
Proof.
  split; [vm_compute; reflexivity|].
  destruct (extract2DData_rows_and_columns sampleDom twoAxes
              {| patternType := T2d;
                 patternXPath := Some "/html/body/table[1]/tr[*]/td[*]";
                 patternVariableIndices := [3; 4] |}
              "/html/body/table[1]/tr[*]/td[*]" 3 4 [])
    as (rowKeys & Heq & Hsorted & _).
  - reflexivity.
  - reflexivity.
  - reflexivity.
  - vm_compute. lia.
  - vm_compute. lia.
  - vm_compute. repeat constructor; discriminate.
  - exists rowKeys. split; [exact Heq | exact Hsorted].
Defined.


(* ===================================================================== *)
(** ** From a node to its path and back *)
(* ===================================================================== *)

Section NodeEqFacts.

Lemma positions_eqb_eq (a b : list nat) : positions_eqb a b = true <-> a = b.
Proof.
  revert b. induction a as [|i a IH]; intros [|j b]; simpl;
    try (split; [discriminate | discriminate]); [split; reflexivity|].
  rewrite andb_true_iff, Nat.eqb_eq, IH. split.
  - intros [-> ->]. reflexivity.
  - intros H. inversion H. auto.
Qed.

Lemma Node_eqb_eq (a b : Node) : Node_eqb a b = true <-> a = b.
Proof.
  destruct a as [| |r up], b as [| |r' up']; simpl;
    try (split; [discriminate | discriminate]); try (split; reflexivity).
  rewrite andb_true_iff, positions_eqb_eq. split.
  - intros [Hr ->]. destruct r, r'; simpl in Hr; try discriminate;
      [reflexivity | apply Nat.eqb_eq in Hr; now subst].
  - intros H. inversion H; subst. split; [|reflexivity].
    destruct r'; simpl; [reflexivity | apply Nat.eqb_refl].
Qed.

End NodeEqFacts.

Section LocationPathFacts.

Lemma split_not_nil (sep : ascii) (s : string) : split sep s <> [].
Proof.
  destruct s as [|c s]; simpl; [discriminate|].
  destruct (c =? sep)%char; [discriminate|].
  destruct (split sep s); discriminate.
Qed.

Lemma split_snoc (a seg : string) :
  allChars noSlash seg = true ->
  split slash (a ++ String slash seg) = (split slash a ++ [seg])%list.
Proof.
  intros Hseg. induction a as [|c a IH]; simpl.
  - now rewrite (split_plain seg Hseg).
  - rewrite IH. destruct (c =? slash)%char; [reflexivity|].
    pose proof (split_not_nil slash a) as Hne.
    destruct (split slash a) as [|piece pieces]; [congruence | reflexivity].
Qed.

Lemma parseSteps_snoc (pieces : list string) (piece : string)
    (steps : list Step) (st : Step) :
  parseSteps pieces = Some steps ->
  parseStep piece = Some st ->
  parseSteps (pieces ++ [piece]) = Some (steps ++ [st])%list.
Proof.
  revert steps. induction pieces as [|p pieces IH]; intros steps Hs Hp; simpl in *.
  - inversion Hs; subst. now rewrite Hp.
  - destruct (parseStep p) as [st0|]; [|discriminate].
    destruct (parseSteps pieces) as [sts|]; [|discriminate].
    inversion Hs; subst. now rewrite (IH sts eq_refl Hp).
Qed.

Lemma parseLocationPath_snoc (path seg : string) (steps : list Step) (st : Step) :
  parseLocationPath path = Some steps ->
  allChars noSlash seg = true ->
  parseStep seg = Some st ->
  parseLocationPath (path ++ "/" ++ seg) = Some (steps ++ [st])%list.
Proof.
  destruct path as [|c rest]; [discriminate|].
  change (String c rest ++ "/" ++ seg) with (String c (rest ++ String slash seg)).
  cbn [parseLocationPath].
  destruct (c =? slash)%char; [|discriminate].
  intros Hs Hseg Hp.
  rewrite (split_snoc rest seg Hseg).
  now apply parseSteps_snoc.
Qed.

Lemma isNameStart_isNameChar (c : ascii) :
  isNameStart c = true -> isNameChar c = true.
Proof. unfold isNameChar. now intros ->. Qed.

Lemma isName_chars (name : string) :
  isName name = true -> name <> EmptyString /\ allChars isNameChar name = true.
Proof.
  destruct name as [|c rest]; simpl; [discriminate|].
  intros H. apply andb_prop in H as [Hc Hrest].
  split; [discriminate|]. now rewrite (isNameStart_isNameChar c Hc).
Qed.

Lemma isNameChar_noSlash (c : ascii) : isNameChar c = true -> noSlash c = true.
Proof.
  destruct c as [[|] [|] [|] [|] [|] [|] [|] [|]]; vm_compute; congruence.
Qed.

Lemma isNameChar_notStar (c : ascii) : isNameChar c = true -> notStar c = true.
Proof.
  destruct c as [[|] [|] [|] [|] [|] [|] [|] [|]]; vm_compute; congruence.
Qed.

Lemma isDigit_notStar (c : ascii) : isDigit c = true -> notStar c = true.
Proof.
  destruct c as [[|] [|] [|] [|] [|] [|] [|] [|]]; vm_compute; congruence.
Qed.

Lemma parseStep_indexed (name : string) (n : N) :
  isName name = true ->
  parseStep (name ++ "[" ++ ofNumber n ++ "]")
  = Some {| nameTest := name; positionTest := Some n |}.
Proof.
  intros Hname. destruct (isName_chars name Hname) as [Hne Hchars].
  unfold parseStep.
  rewrite (span_exact isNameChar name ("[" ++ ofNumber n ++ "]") Hchars eq_refl).
  rewrite Hname. simpl.
  rewrite (span_exact isDigit (ofNumber n) "]" (ofNumber_digits n) eq_refl).
  pose proof (ofNumber_nonempty n) as Hd. apply isEmpty_false in Hd.
  rewrite Hd. simpl. now rewrite parseInt_ofNumber.
Qed.

Lemma ownSegment_chars (p : ascii -> bool) (name : string) (n : N) :
  (forall c, isNameChar c = true -> p c = true) ->
  (forall c, isDigit c = true -> p c = true) ->
  p "["%char = true -> p "]"%char = true ->
  isName name = true ->
  allChars p (name ++ "[" ++ ofNumber n ++ "]") = true.
Proof.
  intros Hn Hd Ho Hc Hname.
  destruct (isName_chars name Hname) as [_ Hchars].
  rewrite allChars_append. simpl. rewrite allChars_append. simpl.
  rewrite (allChars_impl isNameChar p name Hn Hchars).
  rewrite (allChars_impl isDigit p _ Hd (ofNumber_digits n)).
  now rewrite Ho, Hc.
Qed.

Lemma includes_star_false (s : string) :
  allChars notStar s = true -> includes "[*]" s = false.
Proof.
  induction s as [|c s IH]; [reflexivity|].
  intros H. simpl in H. apply andb_prop in H as [Hc Hs].
  cbn [includes stripPrefix]. rewrite (IH Hs).
  destruct ("[" =? c)%char; [|reflexivity].
  destruct s as [|b s']; [reflexivity|].
  simpl in Hs. apply andb_prop in Hs as [Hb _].
  unfold notStar in Hb. apply negb_true_iff in Hb.
  rewrite Ascii.eqb_sym in Hb. now rewrite Hb.
Qed.

Lemma split_chars (p : ascii -> bool) (sep : ascii) (s : string) :
  allChars p s = true ->
  Forall (fun piece => allChars p piece = true) (split sep s).
Proof.
  induction s as [|c s IH]; simpl; intros H.
  - repeat constructor.
  - apply andb_prop in H as [Hc Hs]. specialize (IH Hs).
    destruct (c =? sep)%char; [constructor; [reflexivity | exact IH]|].
    destruct (split sep s) as [|piece pieces].
    + constructor; [simpl; now rewrite Hc | constructor].
    + inversion IH; subst. constructor; [simpl|assumption].
      rewrite Hc. assumption.
Qed.

Lemma wildcardPositions_none (segments : list string) :
  Forall (fun piece => allChars notStar piece = true) segments ->
  forall i, wildcardPositions i segments = [].
Proof.
  induction 1 as [|segment rest Hseg _ IH]; intros i; simpl; [reflexivity|].
  now rewrite (includes_star_false segment Hseg), IH.
Qed.

Lemma path_without_star (path : string) :
  allChars notStar path = true ->
  wildcardPositions 0 (parseXPathToSegments path) = [].
Proof.
  intros H. apply wildcardPositions_none.
  rewrite parseXPathToSegments_split.
  apply Forall_forall. intros piece Hin. apply filter_In in Hin as [Hin _].
  pose proof (split_chars notStar slash path H) as Hall.
  rewrite Forall_forall in Hall. now apply Hall.
Qed.

End LocationPathFacts.

Section RoundTripFacts.

Variable d : Dom.

Lemma evaluateSteps_app (steps1 steps2 : list Step) (context : list Node) :
  evaluateSteps d (steps1 ++ steps2) context
  = evaluateSteps d steps2 (evaluateSteps d steps1 context).
Proof.
  revert context. induction steps1 as [|st steps1 IH]; intros context; simpl;
    [reflexivity | apply IH].
Qed.

Lemma elementAt_parent (r : Root) (i : nat) (up : list nat) (e : Element) :
  elementAt d (ElementNode r (i :: up)) = Some e ->
  exists p, elementAt d (ElementNode r up) = Some p
            /\ nth_error (children p) i = Some e.
Proof.
  unfold elementAt. destruct (rootElement d r) as [root|]; [|discriminate].
  simpl rev. rewrite descend_app.
  destruct (descend root (rev up)) as [p|]; [|discriminate].
  simpl. intros H. exists p. split; [reflexivity|].
  destruct (nth_error (children p) i); [exact H | discriminate].
Qed.

Lemma tagNameAt_child (r : Root) (up : list nat) (p c : Element) (j : nat) :
  elementAt d (ElementNode r up) = Some p ->
  nth_error (children p) j = Some c ->
  tagNameAt d (ElementNode r (j :: up)) = tagName c.
Proof.
  intros Hp Hc. unfold tagNameAt.
  now rewrite (elementAt_child d r up j p Hp), Hc.
Qed.

Lemma countSameTagBefore_eq (name : string) (siblings : list Element) :
  name <> EmptyString ->
  forall position index,
    countSameTagBefore siblings position name index
    = (index + N.of_nat (sameTagBefore siblings position name))%N.
Proof.
  intros Hname. unfold sameTagBefore.
  induction siblings as [|s siblings IH]; intros [|position] index; simpl;
    try (now rewrite N.add_0_r).
  rewrite IH.
  destruct (String.eqb_spec (tagName s) name) as [Heq | Hne]; simpl.
  - assert (isEmpty (tagName s) = false) as ->
        by (apply isEmpty_false; congruence).
    simpl. lia.
  - rewrite andb_false_r. lia.
Qed.

Lemma nth_named (mk : nat -> Node) (P : Node -> bool) (name : string)
    (siblings : list Element) :
  forall start position e,
    (forall j c, nth_error siblings j = Some c ->
                 P (mk (start + j)) = (tagName c =? name)) ->
    nth_error siblings position = Some e ->
    tagName e = name ->
    nth_error (filter P (map mk (seq start (List.length siblings))))
      (sameTagBefore siblings position name)
    = Some (mk (start + position)).
Proof.
  unfold sameTagBefore.
  induction siblings as [|s siblings IH]; intros start position e HP He Hname;
    [destruct position; discriminate|].
  cbn [List.length seq map filter].
  pose proof (HP 0 s eq_refl) as H0. rewrite Nat.add_0_r in H0.
  assert (Hrest : forall j c, nth_error siblings j = Some c ->
                    P (mk (S start + j)) = (tagName c =? name)).
  { intros j c Hj. specialize (HP (S j) c Hj).
    now rewrite Nat.add_succ_r in HP. }
  destruct position as [|position]; simpl in He.
  - inversion He; subst s. rewrite H0, Hname, String.eqb_refl. simpl.
    now rewrite Nat.add_0_r.
  - specialize (IH (S start) position e Hrest He Hname).
    rewrite Nat.add_succ_r. simpl in IH. cbn [firstn filter].
    rewrite H0. destruct (tagName s =? name); simpl; exact IH.
Qed.

Lemma filter_none (mk : nat -> Node) (P : Node -> bool) :
  forall len start,
    (forall j, j < len -> P (mk (start + j)) = false) ->
    filter P (map mk (seq start len)) = [].
Proof.
  induction len as [|len IH]; intros start HP; [reflexivity|].
  cbn [seq map filter].
  pose proof (HP 0 ltac:(lia)) as H0. rewrite Nat.add_0_r in H0. rewrite H0.
  apply IH. intros j Hj. specialize (HP (S j) ltac:(lia)).
  now rewrite Nat.add_succ_r in HP.
Qed.

Lemma filter_unique (mk : nat -> Node) (P : Node -> bool) (b : nat) :
  forall len start,
    (forall j, j < len -> (P (mk (start + j)) = true <-> start + j = b)) ->
    start <= b < start + len ->
    filter P (map mk (seq start len)) = [mk b].
Proof.
  induction len as [|len IH]; intros start HP Hb; [lia|].
  cbn [seq map filter].
  pose proof (HP 0 ltac:(lia)) as H0. rewrite Nat.add_0_r in H0.
  assert (Hrest : forall j, j < len ->
                    (P (mk (S start + j)) = true <-> S start + j = b)).
  { intros j Hj. specialize (HP (S j) ltac:(lia)).
    now rewrite Nat.add_succ_r in HP. }
  destruct (Nat.eq_dec start b) as [-> | Hne].
  - rewrite (proj2 H0 eq_refl). f_equal.
    apply filter_none. intros j Hj.
    destruct (P (mk (S b + j))) eqn:Hp; [|reflexivity].
    apply (Hrest j Hj) in Hp. lia.
  - destruct (P (mk start)) eqn:Hs;
      [exfalso; apply Hne, H0; reflexivity|].
    apply IH; [exact Hrest | lia].
Qed.

End RoundTripFacts.

Section RoundTrip.

Variable d : Dom.
Variable b : nat.
Hypothesis Hhtml : tagName (documentElement d) = "html".
Hypothesis Hbody : body d = ElementNode InDocument [b].
Hypothesis Hunique :
  forall j c, nth_error (children (documentElement d)) j = Some c ->
              (tagName c = "body" <-> j = b).
Hypothesis Hnames : NamedElements d.

Lemma select_html : selectStep d htmlStep DocumentNode = [documentElementNode].
Proof.
  unfold selectStep, htmlStep. simpl. unfold tagNameAt. simpl.
  now rewrite Hhtml.
Qed.

Lemma body_in_range : b < List.length (children (documentElement d)).
Proof.
  revert Hbody. unfold body. rewrite Hhtml. simpl.
  destruct (findPosition _ _) as [i|] eqn:Hf; [|discriminate].
  intros H. inversion H; subst i.
  apply findPosition_nth in Hf as (c & Hc & _).
  apply nth_error_Some. congruence.
Qed.

Lemma select_body :
  selectStep d bodyStep documentElementNode = [ElementNode InDocument [b]].
Proof.
  unfold selectStep, bodyStep, documentElementNode.
  cbn [nameTest positionTest childNodes]. unfold childElements.
  change (elementAt d (ElementNode InDocument []))
    with (Some (documentElement d)).
  apply (filter_unique (fun i => ElementNode InDocument [i])).
  - intros j Hj. simpl.
    destruct (nth_error (children (documentElement d)) j) as [c|] eqn:Hc;
      [|apply nth_error_None in Hc; lia].
    rewrite (tagNameAt_child d InDocument [] (documentElement d) c j eq_refl Hc).
    rewrite String.eqb_eq. now apply Hunique.
  - pose proof body_in_range. lia.
Qed.

Lemma select_own (position : nat) (up : list nat) (p e : Element) :
  elementAt d (ElementNode InDocument up) = Some p ->
  nth_error (children p) position = Some e ->
  isName (tagName e) = true ->
  selectStep d (ownStep d position up) (ElementNode InDocument up)
  = [ElementNode InDocument (position :: up)].
Proof.
  intros Hp He Hname.
  destruct (isName_chars _ Hname) as [Hne _].
  unfold selectStep, ownStep. cbn [nameTest positionTest childNodes].
  unfold childElements. rewrite Hp.
  rewrite (tagNameAt_child d InDocument up p e position Hp He).
  rewrite (countSameTagBefore_eq (tagName e) (children p) Hne).
  assert (Hnth :
    nth_error
      (filter (fun child => tagNameAt d child =? tagName e)
         (map (fun i => ElementNode InDocument (i :: up))
            (seq 0 (List.length (children p)))))
      (sameTagBefore (children p) position (tagName e))
    = Some (ElementNode InDocument (position :: up))).
  { apply (nth_named (fun i => ElementNode InDocument (i :: up))
             (fun child => tagNameAt d child =? tagName e) (tagName e)
             (children p) 0 position e).
    - intros j c Hc. cbv beta. change (0 + j) with j.
      now rewrite (tagNameAt_child d InDocument up p c j Hp Hc).
    - exact He.
    - reflexivity. }
  unfold nthFromOne.
  set (k := sameTagBefore (children p) position (tagName e)) in *.
  destruct (1 + N.of_nat k)%N eqn:Hidx; [lia|].
  rewrite <- Hidx.
  replace (N.to_nat (1 + N.of_nat k) - 1) with k by lia.
  now rewrite Hnth.
Qed.

Lemma element_is_body (up : list nat) :
  Node_eqb (ElementNode InDocument up) (body d) = positions_eqb up [b].
Proof. rewrite Hbody. reflexivity. Qed.

(** The path of an element of the document parses into its steps, holds no
    star, and its steps lead from the document to the element alone. *)
Lemma absolute_path_steps (up : list nat) :
  forall e,
    elementAt d (ElementNode InDocument up) = Some e ->
    parseLocationPath (absoluteXPathOfElement d InDocument up)
    = Some (stepsTo d b up)
    /\ allChars notStar (absoluteXPathOfElement d InDocument up) = true
    /\ evaluateSteps d (stepsTo d b up) [DocumentNode]
       = [ElementNode InDocument up].
Proof.
  induction up as [|position up IH]; intros e He.
  - cbn [absoluteXPathOfElement stepsTo]. rewrite element_is_body.
    simpl. rewrite select_html. repeat split; reflexivity.
  - cbn [absoluteXPathOfElement stepsTo]. rewrite element_is_body.
    destruct (positions_eqb (position :: up) [b]) eqn:Hb.
    + apply positions_eqb_eq in Hb. inversion Hb; subst.
      simpl. rewrite select_html. simpl. rewrite select_body.
      repeat split; reflexivity.
    + destruct (elementAt_parent d InDocument position up e He)
        as (p & Hp & Hchild).
      destruct (IH p Hp) as (Hparse & Hstar & Heval).
      pose proof (Hnames _ _ He) as Hname.
      pose proof (tagNameAt_child d InDocument up p e position Hp Hchild)
        as Htag.
      split; [|split].
      * apply parseLocationPath_snoc; [exact Hparse | |].
        -- rewrite Htag.
           apply ownSegment_chars; auto using isNameChar_noSlash, isDigit_noSlash.
        -- unfold ownStep. rewrite Htag. now apply parseStep_indexed.
      * rewrite allChars_append, Hstar. simpl. rewrite Htag.
        apply ownSegment_chars; auto using isNameChar_notStar, isDigit_notStar.
      * rewrite evaluateSteps_app, Heval. simpl.
        rewrite (select_own position up p e Hp Hchild Hname). reflexivity.
Qed.

Lemma round_trip (up : list nat) (e : Element) :
  elementAt d (ElementNode InDocument up) = Some e ->
  findMatchingElements d
    (Some (generateAbsoluteXPath d (ElementNode InDocument up)))
  = Returned [ElementNode InDocument up].
Proof.
  intros He. destruct (absolute_path_steps up e He) as (Hparse & Hstar & Heval).
  unfold findMatchingElements. cbn [generateAbsoluteXPath].
  destruct (absoluteXPathOfElement d InDocument up) as [|c rest] eqn:Hpath;
    [discriminate|].
  cbn [isEmpty]. rewrite (path_without_star _ Hstar). simpl Nat.eqb. cbv iota.
  unfold documentEvaluate. now rewrite Hparse, Heval.
Qed.

End RoundTrip.

Section NamedFacts.

Lemma allNamed_children (e c : Element) (i : nat) :
  allNamed e = true -> nth_error (children e) i = Some c -> allNamed c = true.
Proof.
  destruct e as [t a cl x cs]. simpl. intros H. apply andb_prop in H as [_ H].
  revert i. induction cs as [|c' cs IH]; intros [|i] Hi; simpl in *;
    try discriminate; apply andb_prop in H as [Hc Hrest].
  - now inversion Hi; subst.
  - now apply (IH Hrest i).
Qed.

Lemma allNamed_descend (down : list nat) :
  forall e e', allNamed e = true -> descend e down = Some e' ->
               isName (tagName e') = true.
Proof.
  induction down as [|i down IH]; intros e e' He Hd; simpl in Hd.
  - inversion Hd; subst. destruct e'; simpl in He.
    now apply andb_prop in He as [He _].
  - destruct (nth_error (children e) i) as [c|] eqn:Hc; [|discriminate].
    apply (IH c e'); [|exact Hd]. now apply (allNamed_children e c i).
Qed.

Lemma allNamed_NamedElements (d : Dom) :
  allNamed (documentElement d) = true -> NamedElements d.
Proof.
  intros H up e He. unfold elementAt in He. simpl in He.
  now apply (allNamed_descend (rev up) (documentElement d) e).
Qed.

Lemma sample_skeleton : StandardSkeleton sampleDom.
Proof.
  split; [reflexivity|]. exists 1. split; [reflexivity|].
  intros [|[|[|j]]] c H; simpl in H; inversion H; subst; simpl;
    split; intros; try discriminate; try reflexivity; try lia.
Qed.

End NamedFacts.

(** C2, as the code has it: in a document with the usual skeleton whose
    tags are names, the absolute path of an element attached to the
    document, handed to [findMatchingElements] as a pattern with no
    wildcard, gives back exactly that element. *)
Theorem absolute_path_round_trip (d : Dom) (up : list nat) (e : Element) :
  StandardSkeleton d ->
  NamedElements d ->
  elementAt d (ElementNode InDocument up) = Some e ->
  findMatchingElements d
    (Some (generateAbsoluteXPath d (ElementNode InDocument up)))
  = Returned [ElementNode InDocument up].
Proof.
  intros (Hhtml & b & Hbody & Hunique) Hnames He.
  exact (round_trip d b Hhtml Hbody Hunique Hnames up e He).
Qed.

Lemma absolute_path_round_trip_witness :
  generateAbsoluteXPath sampleDom (sampleCell 1 2)
  = "/html/body/table[1]/tr[2]/td[3]"
  /\ findMatchingElements sampleDom
       (Some (generateAbsoluteXPath sampleDom (sampleCell 1 2)))
     = Returned [sampleCell 1 2].
Proof.
  split; [reflexivity|].
  apply (absolute_path_round_trip sampleDom [2; 1; 1; 1] (leaf "td" "f")).
  - exact sample_skeleton.
  - apply allNamed_NamedElements. reflexivity.
  - reflexivity.
Defined.

(** C2 as the specification states it fails on a page with two [body]
    elements: the [div] of the first body is attached to the tree, the path
    computed for it is also the path of the [div] of the second body, and
    the evaluation returns both. *)
Lemma round_trip_fails_with_two_bodies :
  ReachesDocument (ElementNode InDocument [0; 1])
  /\ elementAt twoBodyDom (ElementNode InDocument [0; 1])
     = Some (leaf "div" "first")
  /\ generateAbsoluteXPath twoBodyDom (ElementNode InDocument [0; 1])
     = "/html/body/div[1]"
  /\ findMatchingElements twoBodyDom (Some "/html/body/div[1]")
     = Returned [ElementNode InDocument [0; 1]; ElementNode InDocument [0; 2]].
Proof.
  split; [|repeat split; reflexivity].
  do 3 (apply reaches_up; [discriminate|]; simpl). apply reaches_here.
Qed.


(* ===================================================================== *)
(** ** The second picker *)
(* ===================================================================== *)

Section AnalyzeFacts.

Lemma bothIndexedb_spec (a b : string) :
  bothIndexedb a b = true <-> BothIndexed a b.
Proof.
  unfold bothIndexedb, BothIndexed. split.
  - destruct (PickerVer2.matchIndexed a) as [[n1 d1]|]; [|discriminate].
    destruct (PickerVer2.matchIndexed b) as [[n2 d2]|]; [|discriminate].
    intros H. apply String.eqb_eq in H. subst. eauto.
  - intros (name & d1 & d2 & -> & ->). apply String.eqb_refl.
Qed.

Lemma analyzeLoop_some (segments1 segments2 : list string) :
  forall i acc vi,
    PickerVer2.analyzeLoop i segments1 segments2 acc vi
    = if analyzableb segments1 segments2
      then match PickerVer2.analyzeLoop i segments1 segments2 acc vi with
           | Some (segs, _) =>
               Some (segs, lastDiffering i segments1 segments2 vi)
           | None => None
           end
      else None.
Proof.
  revert segments2.
  induction segments1 as [|a rest1 IH]; intros [|b rest2] i acc vi;
    simpl; try reflexivity.
  unfold bothIndexedb.
  destruct (a =? b) eqn:Hab; simpl; [apply IH|].
  destruct (PickerVer2.matchIndexed a) as [[n1 d1]|]; [|reflexivity].
  destruct (PickerVer2.matchIndexed b) as [[n2 d2]|]; [|reflexivity].
  destruct (n1 =? n2); simpl; [apply IH | reflexivity].
Qed.

Lemma analyzeLoop_total (segments1 segments2 : list string) :
  forall i acc vi,
    analyzableb segments1 segments2 = true ->
    exists segs,
      PickerVer2.analyzeLoop i segments1 segments2 acc vi
      = Some (segs, lastDiffering i segments1 segments2 vi).
Proof.
  revert segments2.
  induction segments1 as [|a rest1 IH]; intros [|b rest2] i acc vi H;
    simpl in *; eauto.
  apply andb_prop in H as [Hab Hrest]. unfold bothIndexedb in Hab.
  destruct (a =? b) eqn:Heq; simpl in *; [now apply IH|].
  destruct (PickerVer2.matchIndexed a) as [[n1 d1]|]; [|discriminate].
  destruct (PickerVer2.matchIndexed b) as [[n2 d2]|]; [|discriminate].
  rewrite Hab. now apply IH.
Qed.

Lemma analyzeLoop_none (segments1 segments2 : list string) :
  forall i acc vi,
    analyzableb segments1 segments2 = false ->
    PickerVer2.analyzeLoop i segments1 segments2 acc vi = None.
Proof.
  intros i acc vi H. rewrite analyzeLoop_some, H. reflexivity.
Qed.

Lemma analyzableb_spec (segments1 segments2 : list string) :
  List.length segments1 = List.length segments2 ->
  (analyzableb segments1 segments2 = true <->
   forall j, j < List.length segments1 ->
     nth j segments1 EmptyString = nth j segments2 EmptyString
     \/ BothIndexed (nth j segments1 EmptyString) (nth j segments2 EmptyString)).
Proof.
  revert segments2.
  induction segments1 as [|a rest1 IH]; intros [|b rest2] Hlen;
    simpl in *; try discriminate.
  - split; [intros _ j Hj; lia | reflexivity].
  - injection Hlen as Hlen.
    rewrite andb_true_iff, orb_true_iff, String.eqb_eq, bothIndexedb_spec,
      (IH _ Hlen).
    split.
    + intros [Hab Hrest] [|j] Hj; [exact Hab | apply Hrest; lia].
    + intros H. split; [apply (H 0); lia|].
      intros j Hj. apply (H (S j)). lia.
Qed.

(** [lastDiffering] finds the last position where the segments differ. *)
Lemma lastDiffering_spec (segments1 segments2 : list string) :
  List.length segments1 = List.length segments2 ->
  forall i sofar,
    match lastDiffering i segments1 segments2 sofar with
    | Some v =>
        (sofar = Some v
         /\ forall j, j < List.length segments1 ->
              nth j segments1 EmptyString = nth j segments2 EmptyString)
        \/ (exists k, v = i + k /\ k < List.length segments1
                      /\ nth k segments1 EmptyString
                         <> nth k segments2 EmptyString
                      /\ forall j, k < j < List.length segments1 ->
                           nth j segments1 EmptyString
                           = nth j segments2 EmptyString)
    | None =>
        sofar = None
        /\ forall j, j < List.length segments1 ->
             nth j segments1 EmptyString = nth j segments2 EmptyString
    end.
Proof.
  revert segments2.
  induction segments1 as [|a rest1 IH]; intros [|b rest2] Hlen i sofar;
    simpl in *; try discriminate.
  - destruct sofar; [left|]; split; auto; intros; lia.
  - injection Hlen as Hlen.
    specialize (IH rest2 Hlen (S i) (if a =? b then sofar else Some i)).
    destruct (lastDiffering (S i) rest1 rest2 _) as [v|].
    + destruct IH as [[Hso Hall] | (k & -> & Hk & Hne & Hafter)].
      * destruct (String.eqb_spec a b) as [-> | Hab].
        -- left. split; [exact Hso|].
           intros [|j] Hj; [reflexivity | apply Hall; lia].
        -- right. exists 0. inversion Hso; subst.
           repeat split; [lia | lia | exact Hab |].
           intros [|j] Hj; [lia | apply Hall; lia].
      * right. exists (S k). repeat split; [lia | lia | exact Hne |].
        intros [|j] Hj; [lia | apply Hafter; lia].
    + destruct IH as [Hso Hall].
      destruct (String.eqb_spec a b) as [-> | Hab]; [|discriminate].
      split; [exact Hso|].
      intros [|j] Hj; [reflexivity | apply Hall; lia].
Qed.

End AnalyzeFacts.

Section AnalyzePairFacts.

Variables path1 path2 : string.

Let segments1 := PickerVer2.slashSegments path1.
Let segments2 := PickerVer2.slashSegments path2.

Lemma analyzeXPathPair_analyzable :
  Analyzable path1 path2 ->
  exists info,
    PickerVer2.analyzeXPathPair path1 path2 = Some info
    /\ PickerVer2.variableIndex info < slashSegmentCount path1
    /\ slashSegmentAt path1 (PickerVer2.variableIndex info)
       <> slashSegmentAt path2 (PickerVer2.variableIndex info)
    /\ forall j,
         PickerVer2.variableIndex info < j < slashSegmentCount path1 ->
         slashSegmentAt path1 j = slashSegmentAt path2 j.
Proof.
  unfold Analyzable, slashSegmentCount, slashSegmentAt.
  fold segments1 segments2.
  intros (Hlen & Hall & (i & Hi & Hdiff)).
  apply (analyzableb_spec _ _ Hlen) in Hall.
  destruct (analyzeLoop_total segments1 segments2 0 [] None Hall)
    as (segs & Hloop).
  pose proof (lastDiffering_spec segments1 segments2 Hlen 0 None) as Hlast.
  unfold PickerVer2.analyzeXPathPair. fold segments1 segments2.
  rewrite (proj2 (Nat.eqb_eq _ _) Hlen). simpl. rewrite Hloop.
  destruct (lastDiffering 0 segments1 segments2 None) as [v|].
  - destruct Hlast as [[Hso _] | (k & -> & Hk & Hne & Hafter)];
      [discriminate|].
    eexists. split; [reflexivity|]. simpl.
    split; [exact Hk|]. split; [exact Hne | exact Hafter].
  - destruct Hlast as [_ Hsame]. exfalso. apply Hdiff. now apply Hsame.
Qed.

Lemma analyzeXPathPair_not_analyzable :
  ~ Analyzable path1 path2 -> PickerVer2.analyzeXPathPair path1 path2 = None.
Proof.
  intros Hn. unfold PickerVer2.analyzeXPathPair. fold segments1 segments2.
  destruct (Nat.eqb_spec (List.length segments1) (List.length segments2))
    as [Hlen | Hlen]; simpl; [|reflexivity].
  destruct (analyzableb segments1 segments2) eqn:Hall;
    [|now rewrite analyzeLoop_none].
  destruct (analyzeLoop_total segments1 segments2 0 [] None Hall)
    as (segs & Hloop).
  rewrite Hloop.
  pose proof (lastDiffering_spec segments1 segments2 Hlen 0 None) as Hlast.
  destruct (lastDiffering 0 segments1 segments2 None) as [v|]; [|reflexivity].
  exfalso. apply Hn.
  destruct Hlast as [[Hso _] | (k & -> & Hk & Hne & _)]; [discriminate|].
  unfold Analyzable, slashSegmentCount, slashSegmentAt.
  fold segments1 segments2.
  split; [exact Hlen|]. split; [now apply analyzableb_spec|].
  exists k. auto.
Qed.

End AnalyzePairFacts.

Section ProbeFacts.

Variable d : Dom.
Variable info : PickerVer2.PatternInfo.

Lemma probeLoop_spec (iterationsLeft : nat) :
  forall index elements,
    exists hits,
      PickerVer2.probeLoop d info iterationsLeft index elements
      = (elements ++ hits)%list
      /\ List.length hits <= iterationsLeft
      /\ (forall j, j < List.length hits ->
            nth j hits NullNode
            = PickerVer2.getElementByXPath d
                (PickerVer2.probePath info (index + N.of_nat j))
            /\ nth j hits NullNode <> NullNode)
      /\ (List.length hits < iterationsLeft ->
          PickerVer2.getElementByXPath d
            (PickerVer2.probePath info (index + N.of_nat (List.length hits)))
          = NullNode).
Proof.
  induction iterationsLeft as [|left IH]; intros index elements; simpl.
  - exists []. rewrite app_nil_r.
    split; [reflexivity|]. split; [simpl; lia|].
    split; [intros j Hj; simpl in Hj; lia | simpl; lia].
  - destruct (PickerVer2.getElementByXPath d (PickerVer2.probePath info index))
      as [| |r up] eqn:Hget.
    + exists []. rewrite app_nil_r.
      split; [reflexivity|]. split; [simpl; lia|].
      split; [intros j Hj; simpl in Hj; lia|].
      intros _. simpl. now rewrite N.add_0_r.
    + destruct (IH (index + 1)%N (elements ++ [DocumentNode])%list)
        as (hits & Heq & Hlen & Hhits & Hstop).
      exists (DocumentNode :: hits). rewrite Heq, <- app_assoc.
      cbn [app List.length].
      split; [reflexivity|]. split; [lia|]. split.
      * intros [|j] Hj.
        -- cbn [nth]. change (N.of_nat 0) with 0%N.
           rewrite N.add_0_r, Hget. split; [reflexivity | discriminate].
        -- specialize (Hhits j ltac:(lia)). cbn [nth].
           replace (index + N.of_nat (S j))%N with (index + 1 + N.of_nat j)%N
             by lia.
           exact Hhits.
      * intros Hlt.
        replace (index + N.of_nat (S (List.length hits)))%N
          with (index + 1 + N.of_nat (List.length hits))%N by lia.
        apply Hstop. lia.
    + destruct (IH (index + 1)%N (elements ++ [ElementNode r up])%list)
        as (hits & Heq & Hlen & Hhits & Hstop).
      exists (ElementNode r up :: hits). rewrite Heq, <- app_assoc.
      cbn [app List.length].
      split; [reflexivity|]. split; [lia|]. split.
      * intros [|j] Hj.
        -- cbn [nth]. change (N.of_nat 0) with 0%N.
           rewrite N.add_0_r, Hget. split; [reflexivity | discriminate].
        -- specialize (Hhits j ltac:(lia)). cbn [nth].
           replace (index + N.of_nat (S j))%N with (index + 1 + N.of_nat j)%N
             by lia.
           exact Hhits.
      * intros Hlt.
        replace (index + N.of_nat (S (List.length hits)))%N
          with (index + 1 + N.of_nat (List.length hits))%N by lia.
        apply Hstop. lia.
Qed.

(** [collectElementsByPattern] returns the elements found for the indices
    one, two, and so on, up to the first index that finds none, and never
    more than a thousand of them. *)
Lemma collectElementsByPattern_spec :
  let found := PickerVer2.collectElementsByPattern d info in
  List.length found <= 1000
  /\ (forall j, j < List.length found ->
        nth j found NullNode
        = PickerVer2.getElementByXPath d
            (PickerVer2.probePath info (N.of_nat (S j)))
        /\ nth j found NullNode <> NullNode)
  /\ (List.length found < 1000 ->
      PickerVer2.getElementByXPath d
        (PickerVer2.probePath info (N.of_nat (S (List.length found))))
      = NullNode).
Proof.
  unfold PickerVer2.collectElementsByPattern.
  destruct (probeLoop_spec PickerVer2.maxIterations 1%N [])
    as (hits & Heq & Hlen & Hhits & Hstop).
  rewrite Heq. cbn [app]. cbv zeta.
  change PickerVer2.maxIterations with 1000 in *.
  split; [exact Hlen|]. split.
  - intros j Hj. destruct (Hhits j Hj) as [H1 H2].
    replace (N.of_nat (S j)) with (1 + N.of_nat j)%N by lia. auto.
  - intros Hlt.
    replace (N.of_nat (S (List.length hits)))
      with (1 + N.of_nat (List.length hits))%N by lia.
    now apply Hstop.
Qed.

End ProbeFacts.

(** C1, as the code has it.  [compareXPaths] does what the claim says: for
    two paths with the same number of segments whose tag names agree at
    every position and whose indices vary somewhere, it returns a pattern
    whose wildcard positions are exactly the positions where both indices
    are non-null and differ, every other position holding the first path's
    tag with its index; otherwise, and for a path compared with itself, it
    returns the invalid result.  [analyzeXPathPair] of the second picker
    returns a pattern exactly when, in addition, the segments at every
    position are equal or both indexed with one name; of the positions that
    vary it reports the last. *)
Theorem compare_in_both_pickers (path1 path2 : string) :
  ((Comparable path1 path2 ->
    PatternFor path1 path2 (compareXPaths path1 path2))
   /\ (~ Comparable path1 path2 ->
       compareXPaths path1 path2 = notComparable)
   /\ compareXPaths path1 path1 = notComparable)
  /\ ((Analyzable path1 path2 ->
       exists info,
         PickerVer2.analyzeXPathPair path1 path2 = Some info
         /\ PickerVer2.variableIndex info < slashSegmentCount path1
         /\ slashSegmentAt path1 (PickerVer2.variableIndex info)
            <> slashSegmentAt path2 (PickerVer2.variableIndex info)
         /\ forall j,
              PickerVer2.variableIndex info < j < slashSegmentCount path1 ->
              slashSegmentAt path1 j = slashSegmentAt path2 j)
      /\ (~ Analyzable path1 path2 ->
          PickerVer2.analyzeXPathPair path1 path2 = None)).
Proof.
  split; [split; [|split]|split].
  - apply compareXPaths_comparable.
  - apply compareXPaths_notComparable.
  - apply compareXPaths_notComparable, not_comparable_self.
  - apply analyzeXPathPair_analyzable.
  - apply analyzeXPathPair_not_analyzable.
Qed.

Lemma compare_in_both_pickers_witness :
  Comparable "/html/body/table[1]/tr[1]/td[2]" "/html/body/table[1]/tr[3]/td[2]"
  /\ PatternFor "/html/body/table[1]/tr[1]/td[2]"
       "/html/body/table[1]/tr[3]/td[2]"
       {| pattern := Some "/html/body/table[1]/tr[*]/td[2]";
          variableIndices := [3];
          isValid := true |}.
Proof.
  split; [exact comparable_rows|].
  exact (proj1 (proj1 (compare_in_both_pickers
                         "/html/body/table[1]/tr[1]/td[2]"
                         "/html/body/table[1]/tr[3]/td[2]")) comparable_rows).
Defined.

(** C1 as the specification states it fails on [analyzeXPathPair]: the two
    paths have four segments each, the tags agree at every position and
    the indices of the third segment are non-null and differ, yet the
    result is [null], because the last segment has an index in one path
    only. *)
Lemma analyzeXPathPair_gives_up_on_one_index :
  Comparable "/html/body/div[1]/span" "/html/body/div[2]/span[1]"
  /\ IndexVariesAt "/html/body/div[1]/span" "/html/body/div[2]/span[1]" 2
  /\ PickerVer2.analyzeXPathPair "/html/body/div[1]/span"
       "/html/body/div[2]/span[1]" = None
  /\ compareXPaths "/html/body/div[1]/span" "/html/body/div[2]/span[1]"
     = {| pattern := Some "/html/body/div[*]/span";
          variableIndices := [2];
          isValid := true |}.
Proof.
  split; [exact comparable_mixed|].
  split; [|split; reflexivity].
  exists 1%N, 2%N. repeat split; [discriminate].
Qed.

(** C4, as the code has it.  [collectElementsWithWildcard] does what the
    claim says: at a wildcard segment it goes into every child that has the
    tag, in child order, and concatenates what it finds; what it returns
    from the document is no longer than the number of elements of the
    document, and it does return when the document has a body.
    [collectElementsByPattern] of the second picker tries the indices one,
    two, and so on at its one wildcard position and stops at the first
    index that finds no element, or after a thousand. *)
Theorem wildcard_resolution_in_both_pickers (d : Dom) :
  (forall segments i segment node,
     nth_error segments i = Some segment ->
     includes "[*]" segment = true ->
     node <> NullNode ->
     collectElementsWithWildcard d segments i node
     = concatOutcomes (collectElementsWithWildcard d segments (S i))
         (filter
            (hasTag d (tag (parseSegment (replaceFirst "[*]" "[1]" segment))))
            (childNodes d node)))
  /\ (forall segments found,
        collectElementsWithWildcard d segments 0 DocumentNode = Returned found ->
        List.length found <= elementCount (documentElement d))
  /\ (body d <> NullNode ->
      forall segments,
        exists found,
          collectElementsWithWildcard d segments 0 DocumentNode = Returned found)
  /\ (forall info,
        let found := PickerVer2.collectElementsByPattern d info in
        List.length found <= 1000
        /\ (forall j, j < List.length found ->
              nth j found NullNode
              = PickerVer2.getElementByXPath d
                  (PickerVer2.probePath info (N.of_nat (S j)))
              /\ nth j found NullNode <> NullNode)
        /\ (List.length found < 1000 ->
            PickerVer2.getElementByXPath d
              (PickerVer2.probePath info (N.of_nat (S (List.length found))))
            = NullNode)).
Proof.
  split; [|split; [|split]].
  - intros segments i segment node Hnth Hstar Hnode.
    unfold collectElementsWithWildcard.
    rewrite (skipn_nth_error segments i segment Hnth).
    now apply collectRemaining_wildcard.
  - intros segments found H.
    apply (collectRemaining_bound d _ DocumentNode found H).
  - intros Hbody segments.
    apply (collectRemaining_returns d _ Hbody). discriminate.
  - intros info. apply collectElementsByPattern_spec.
Qed.

Lemma wildcard_resolution_in_both_pickers_witness :
  collectElementsWithWildcard sampleDom
    ["html"; "body"; "table[1]"; "tr[*]"; "td[2]"] 3
    (ElementNode InDocument [1; 1])
  = Returned [sampleCell 0 1; sampleCell 1 1]
  /\ collectElementsWithWildcard sampleDom
       ["html"; "body"; "table[1]"; "tr[*]"; "td[2]"] 3
       (ElementNode InDocument [1; 1])
     = concatOutcomes
         (collectElementsWithWildcard sampleDom
            ["html"; "body"; "table[1]"; "tr[*]"; "td[2]"] 4)
         (filter (hasTag sampleDom "tr")
            (childNodes sampleDom (ElementNode InDocument [1; 1]))).
Proof.
  split; [reflexivity|].
  apply (proj1 (wildcard_resolution_in_both_pickers sampleDom)
           ["html"; "body"; "table[1]"; "tr[*]"; "td[2]"] 3 "tr[*]"
           (ElementNode InDocument [1; 1])).
  - reflexivity.
  - reflexivity.
  - discriminate.
Defined.

(** C4 as the specification states it fails on [collectElementsByPattern].
    On the list whose second item has no link, the two links selected give
    a pattern with the item position as wildcard; three children have the
    tag, but the evaluation stops at the second and returns the first link
    alone, without the third that was selected.  On the list of 1001 items
    it returns at most a thousand of them, where the recursive evaluator
    returns them all. *)
Lemma collectElementsByPattern_stops_early :
  PickerVer2.analyzeXPathPair "/html/body/ul/li[1]/a" "/html/body/ul/li[3]/a"
  = Some gapInfo
  /\ PickerVer2.getElementByXPath gapDom "/html/body/ul/li[3]/a"
     = ElementNode InDocument [0; 2; 0; 1]
  /\ PickerVer2.collectElementsByPattern gapDom gapInfo
     = [ElementNode InDocument [0; 0; 0; 1]]
  /\ findMatchingElements gapDom (Some "/html/body/ul[1]/li[*]/a[1]")
     = Returned [ElementNode InDocument [0; 0; 0; 1];
                 ElementNode InDocument [0; 2; 0; 1]]
  /\ PickerVer2.analyzeXPathPair "/html/body/ul/li[1]" "/html/body/ul/li[3]"
     = Some longInfo
  /\ List.length (PickerVer2.collectElementsByPattern longDom longInfo) <= 1000
  /\ (exists found,
        findMatchingElements longDom (Some "/html/body/ul[1]/li[*]")
        = Returned found
        /\ List.length found = 1001).
Proof.
  split; [reflexivity|]. split; [reflexivity|].
  split; [vm_compute; reflexivity|]. split; [vm_compute; reflexivity|].
  split; [reflexivity|].
  split; [apply (collectElementsByPattern_spec longDom longInfo)|].
  destruct (findMatchingElements longDom (Some "/html/body/ul[1]/li[*]"))
    as [found|] eqn:Hfound; [|vm_compute in Hfound; discriminate].
  exists found. split; [reflexivity|].
  assert (H : option_map (@List.length Node)
                (match findMatchingElements longDom
                         (Some "/html/body/ul[1]/li[*]") with
                 | Returned l => Some l
                 | Thrown _ => None
                 end) = Some 1001) by (vm_compute; reflexivity).
  rewrite Hfound in H. simpl in H. now inversion H.
Qed.
(* ===================================================================== *)
(** ** Normalised text *)
(* ===================================================================== *)

Section TextFacts.

Lemma lineBreak_isSpace (c : ascii) :
  isLineBreakOrTab c = true -> isSpace c = true.
Proof.
  destruct c as [[|] [|] [|] [|] [|] [|] [|] [|]]; vm_compute; congruence.
Qed.

Lemma space_not_lineBreak (c : ascii) :
  isSpace c = true -> (c =? " ")%char = true -> isLineBreakOrTab c = false.
Proof.
  intros _ H. apply Ascii.eqb_eq in H. now subst.
Qed.

(** The first [replace] of [normalizeText] changes nothing that the second
    does not do: a run of line breaks and tabs is a run of white space. *)
Lemma collapse_redundant (s : string) :
  forall inRun inRun',
    (inRun' = true -> inRun = true) ->
    collapseRuns isSpace inRun (collapseRuns isLineBreakOrTab inRun' s)
    = collapseRuns isSpace inRun s.
Proof.
  induction s as [|c s IH]; intros inRun inRun' Himp; [reflexivity|].
  cbn [collapseRuns].
  destruct (isLineBreakOrTab c) eqn:Hlb.
  - rewrite (lineBreak_isSpace c Hlb).
    destruct inRun'.
    + rewrite (Himp eq_refl). now apply IH.
    + cbn [collapseRuns]. change (isSpace " ") with true. cbv iota.
      destruct inRun; [|f_equal]; now apply IH.
  - cbn [collapseRuns].
    destruct (isSpace c); [destruct inRun; [|f_equal]|f_equal];
      apply IH; intros; congruence.
Qed.

Lemma normalizeText_collapse (content : string) :
  normalizeText content
  = trimEnd (trimStart (collapseRuns isSpace false content)).
Proof.
  unfold normalizeText. destruct content as [|c rest]; [reflexivity|].
  cbn [isEmpty]. now rewrite collapse_redundant.
Qed.

Lemma squeezed_collapse (s : string) :
  forall inRun, squeezed inRun (collapseRuns isSpace inRun s) = true.
Proof.
  induction s as [|c s IH]; intros inRun; [reflexivity|].
  cbn [collapseRuns]. destruct (isSpace c) eqn:Hc.
  - destruct inRun; [apply IH|].
    cbn [squeezed]. change (isSpace " ") with true. cbv iota.
    simpl. apply IH.
  - cbn [squeezed]. rewrite Hc. apply IH.
Qed.

Lemma squeezed_trimStart (s : string) :
  forall a b, squeezed a s = true -> squeezed b (trimStart s) = true.
Proof.
  induction s as [|c s IH]; intros a b H; [reflexivity|].
  cbn [trimStart]. cbn [squeezed] in H. destruct (isSpace c) eqn:Hc.
  - apply andb_prop in H as [_ H]. now apply (IH true).
  - cbn [squeezed]. now rewrite Hc.
Qed.

Lemma squeezed_trimEnd (s : string) :
  forall a, squeezed a s = true -> squeezed a (trimEnd s) = true.
Proof.
  induction s as [|c s IH]; intros a H; [reflexivity|].
  cbn [trimEnd]. cbn [squeezed] in H.
  destruct (isSpace c && isEmpty (trimEnd s)) eqn:Hcond; [reflexivity|].
  cbn [squeezed]. destruct (isSpace c).
  - apply andb_prop in H as [H1 H2]. rewrite H1. simpl. now apply IH.
  - now apply IH.
Qed.

Lemma squeezed_plain (s : string) :
  forall a, squeezed a s = true -> allChars plainSpaced s = true.
Proof.
  induction s as [|c s IH]; intros a H; [reflexivity|].
  cbn [squeezed] in H. cbn [allChars]. unfold plainSpaced at 1.
  destruct (isSpace c).
  - apply andb_prop in H as [H1 H2]. apply andb_prop in H1 as [H1 _].
    rewrite H1. simpl. now apply (IH true).
  - simpl. now apply (IH false).
Qed.

Lemma squeezed_no_double (s : string) :
  forall a, squeezed a s = true -> includes "  " s = false.
Proof.
  induction s as [|c s IH]; intros a H; [reflexivity|].
  cbn [squeezed] in H. cbn [includes stripPrefix].
  destruct (isSpace c) eqn:Hc.
  - apply andb_prop in H as [H1 H2]. apply andb_prop in H1 as [H1 _].
    apply Ascii.eqb_eq in H1. subst c. rewrite Ascii.eqb_refl.
    rewrite (IH true H2).
    destruct s as [|c' s']; [reflexivity|].
    cbn [squeezed] in H2. cbn [stripPrefix].
    destruct (Ascii.eqb_spec " " c') as [<- | Hne]; [|reflexivity].
    change (isSpace " ") with true in H2. simpl in H2. discriminate.
  - rewrite (IH false H).
    destruct (Ascii.eqb_spec " " c) as [<- | Hne]; [discriminate | reflexivity].
Qed.

Lemma squeezed_fixed (s : string) :
  forall a, squeezed a s = true -> collapseRuns isSpace a s = s.
Proof.
  induction s as [|c s IH]; intros a H; [reflexivity|].
  cbn [squeezed] in H. cbn [collapseRuns]. destruct (isSpace c).
  - apply andb_prop in H as [H1 H2]. apply andb_prop in H1 as [H1 Ha].
    apply Ascii.eqb_eq in H1. subst c. apply negb_true_iff in Ha. subst a.
    f_equal. now apply IH.
  - f_equal. now apply IH.
Qed.

Lemma plain_no_lineBreak (s : string) :
  allChars plainSpaced s = true ->
  forall inRun, collapseRuns isLineBreakOrTab inRun s = s.
Proof.
  induction s as [|c s IH]; intros H inRun; [reflexivity|].
  cbn [allChars] in H. apply andb_prop in H as [Hc Hs].
  cbn [collapseRuns].
  assert (Hlb : isLineBreakOrTab c = false).
  { destruct (isLineBreakOrTab c) eqn:Hlb; [|reflexivity].
    unfold plainSpaced in Hc. rewrite (lineBreak_isSpace c Hlb) in Hc.
    simpl in Hc. apply Ascii.eqb_eq in Hc. subst c. discriminate. }
  rewrite Hlb. f_equal. now apply IH.
Qed.

(** A text that does not start with white space. *)
Lemma trimStart_leading (s : string) :
  match trimStart s with
  | String c _ => isSpace c = false
  | EmptyString => True
  end.
Proof.
  induction s as [|c s IH]; [exact I|].
  cbn [trimStart]. destruct (isSpace c) eqn:Hc; [exact IH | exact Hc].
Qed.

Lemma trimEnd_leading (s : string) :
  match s with
  | String c _ => isSpace c = false
  | EmptyString => True
  end ->
  match trimEnd s with
  | String c _ => isSpace c = false
  | EmptyString => True
  end.
Proof.
  destruct s as [|c s]; [trivial|]. intros Hc.
  cbn [trimEnd]. rewrite Hc. simpl. exact Hc.
Qed.

Lemma trimStart_fixed (s : string) :
  match s with
  | String c _ => isSpace c = false
  | EmptyString => True
  end ->
  trimStart s = s.
Proof.
  destruct s as [|c s]; [reflexivity|]. intros Hc. cbn [trimStart].
  now rewrite Hc.
Qed.

Lemma trimEnd_idempotent (s : string) : trimEnd (trimEnd s) = trimEnd s.
Proof.
  induction s as [|c s IH]; [reflexivity|].
  cbn [trimEnd].
  destruct (isSpace c && isEmpty (trimEnd s)) eqn:Hcond; [reflexivity|].
  cbn [trimEnd]. now rewrite IH, Hcond.
Qed.

Lemma trimEnd_trailing (s front : string) : trimEnd s <> front ++ " ".
Proof.
  revert front. induction s as [|c s IH]; intros front.
  - simpl. destruct front; discriminate.
  - cbn [trimEnd].
    destruct (isSpace c && isEmpty (trimEnd s)) eqn:Hcond;
      [destruct front; discriminate|].
    destruct front as [|c' front]; simpl.
    + intros H. inversion H as [[Hc Hrest]]. subst c.
      rewrite Hrest in Hcond. discriminate.
    + intros H. inversion H as [[Hc Hrest]]. now apply (IH front).
Qed.

Lemma normalizeText_squeezed (content : string) :
  squeezed false (normalizeText content) = true.
Proof.
  rewrite normalizeText_collapse.
  apply squeezed_trimEnd, (squeezed_trimStart _ false), squeezed_collapse.
Qed.

Lemma normalizeText_leading (content : string) :
  match normalizeText content with
  | String c _ => isSpace c = false
  | EmptyString => True
  end.
Proof.
  rewrite normalizeText_collapse. apply trimEnd_leading, trimStart_leading.
Qed.

End TextFacts.

(** X2: the text [normalizeText] returns holds no white space but single
    space characters between other characters: no tab, line break or other
    white-space character, no two spaces in a row, no space at the start
    and none at the end. *)
Theorem normalizeText_only_single_spaces (content : string) :
  allChars plainSpaced (normalizeText content) = true
  /\ includes "  " (normalizeText content) = false
  /\ (forall rest, normalizeText content <> String " " rest)
  /\ (forall front, normalizeText content <> front ++ " ").
Proof.
  pose proof (normalizeText_squeezed content) as Hs.
  split; [exact (squeezed_plain _ false Hs)|].
  split; [exact (squeezed_no_double _ false Hs)|].
  split.
  - intros rest Heq. pose proof (normalizeText_leading content) as Hl.
    rewrite Heq in Hl. discriminate.
  - intros front. rewrite normalizeText_collapse. apply trimEnd_trailing.
Qed.

(** X3: [normalizeText] is idempotent: a normalised text is left as it
    is. *)
Theorem normalizeText_idempotent (content : string) :
  normalizeText (normalizeText content) = normalizeText content.
Proof.
  pose proof (normalizeText_squeezed content) as Hs.
  pose proof (normalizeText_leading content) as Hl.
  set (out := normalizeText content) in *.
  unfold normalizeText at 1.
  destruct (isEmpty out) eqn:He; [now apply isEmpty_true in He|].
  rewrite (plain_no_lineBreak out (squeezed_plain _ false Hs)).
  rewrite (squeezed_fixed out false Hs).
  rewrite (trimStart_fixed out Hl).
  unfold out. rewrite normalizeText_collapse. apply trimEnd_idempotent.
Qed.

(** X4: on every element, and on the document, the two pickers read the
    same text: [normalizeText] of the text content is what [getElementText]
    returns.  They differ on [null], where the first throws and the second
    returns the empty string. *)
Theorem normalizedTextOf_is_getElementText (d : Dom) (n : Node) :
  normalizedTextOf d n
  = match n with
    | NullNode => Thrown TypeError
    | _ => Returned (getElementText d n)
    end
  /\ getElementText d NullNode = EmptyString.
Proof.
  split; [|reflexivity].
  destruct n as [| |r up]; [reflexivity | reflexivity|].
  unfold normalizedTextOf, getElementText.
  now rewrite normalizeText_collapse.
Qed.

(* ===================================================================== *)
(** ** The display of the popup *)
(* ===================================================================== *)

Section DisplayFacts.

Lemma split_without (sep : ascii) (s : string) :
  allChars (fun c => negb (c =? sep)%char) s = true -> split sep s = [s].
Proof.
  induction s as [|c s IH]; simpl; intros H; [reflexivity|].
  apply andb_prop in H as [Hc Hs]. apply negb_true_iff in Hc.
  now rewrite Hc, (IH Hs).
Qed.

Lemma split_through (sep : ascii) (a rest : string) :
  allChars (fun c => negb (c =? sep)%char) a = true ->
  split sep (a ++ String sep rest) = a :: split sep rest.
Proof.
  induction a as [|c a IH]; simpl; intros H; [now rewrite Ascii.eqb_refl|].
  apply andb_prop in H as [Hc Ha]. apply negb_true_iff in Hc.
  now rewrite Hc, (IH Ha).
Qed.

(** Cutting at the separator what was joined with it gives the pieces
    back, when there is a piece and no piece holds the separator. *)
Lemma split_join_with (sep : ascii) (pieces : list string) :
  pieces <> [] ->
  Forall (fun piece => allChars (fun c => negb (c =? sep)%char) piece = true)
    pieces ->
  split sep (join (String sep EmptyString) pieces) = pieces.
Proof.
  induction pieces as [|piece rest IH]; intros Hne H; [congruence|].
  inversion H as [|? ? Hpiece Hrest]; subst.
  destruct rest as [|next rest'].
  - simpl. now apply split_without.
  - change (join (String sep EmptyString) (piece :: next :: rest'))
      with (piece ++ String sep (join (String sep EmptyString) (next :: rest'))).
    rewrite (split_through sep _ _ Hpiece). f_equal.
    apply IH; [discriminate | exact Hrest].
Qed.

Lemma oneCell_no_tab (s : string) :
  oneCell s -> allChars (fun c => negb (c =? tab)%char) s = true.
Proof.
  unfold oneCell. apply allChars_impl. intros c H.
  now apply andb_prop in H as [H _].
Qed.

Lemma oneCell_no_lineFeed (s : string) :
  oneCell s -> allChars (fun c => negb (c =? lineFeed)%char) s = true.
Proof.
  unfold oneCell. apply allChars_impl. intros c H.
  now apply andb_prop in H as [_ H].
Qed.

Lemma plainSpaced_oneCell (c : ascii) :
  plainSpaced c = true ->
  negb (c =? tab)%char && negb (c =? lineFeed)%char = true.
Proof.
  destruct c as [[|] [|] [|] [|] [|] [|] [|] [|]]; vm_compute; congruence.
Qed.

Lemma normalizeText_oneCell (content : string) : oneCell (normalizeText content).
Proof.
  unfold oneCell.
  apply (allChars_impl plainSpaced _ _ plainSpaced_oneCell).
  exact (squeezed_plain _ false (normalizeText_squeezed content)).
Qed.

Lemma normalizedTextOf_oneCell (d : Dom) (n : Node) (t : string) :
  normalizedTextOf d n = Returned t -> oneCell t.
Proof.
  destruct n as [| |r up]; simpl; intros H; inversion H; subst.
  - reflexivity.
  - apply normalizeText_oneCell.
Qed.

Lemma mapOutcome_all {A B : Type} (f : A -> Outcome B) (P : B -> Prop) :
  (forall x y, f x = Returned y -> P y) ->
  forall l ys, mapOutcome f l = Returned ys -> Forall P ys.
Proof.
  intros Hf. induction l as [|x l IH]; intros ys H; simpl in H.
  - inversion H. constructor.
  - destruct (f x) as [y|] eqn:Hx; simpl in H; [|discriminate].
    destruct (mapOutcome f l) as [rest|]; simpl in H; [|discriminate].
    inversion H; subst. constructor; [now apply (Hf x) | now apply IH].
Qed.

Lemma joined_row_no_lineFeed (cells : list string) :
  Forall oneCell cells ->
  allChars (fun c => negb (c =? lineFeed)%char)
    (join (String tab EmptyString) cells) = true.
Proof.
  induction 1 as [|cell rest Hcell Hrest IH]; [reflexivity|].
  destruct rest as [|next rest'].
  - simpl. now apply oneCell_no_lineFeed.
  - change (join (String tab EmptyString) (cell :: next :: rest'))
      with (cell ++ String tab (join (String tab EmptyString) (next :: rest'))).
    rewrite allChars_append, (oneCell_no_lineFeed _ Hcell). simpl.
    exact IH.
Qed.

(** The text of a matrix whose rows have cells, none holding a tab or a
    line feed, reads back as the matrix. *)
Lemma pasted_matrix (rows : list (list string)) :
  rows <> [] ->
  Forall (fun row => row <> [] /\ Forall oneCell row) rows ->
  pastedRows (join (String lineFeed EmptyString)
                (map (join (String tab EmptyString)) rows))
  = rows.
Proof.
  intros Hne Hrows. unfold pastedRows.
  rewrite split_join_with.
  - rewrite map_map. rewrite <- (map_id rows) at 2.
    apply map_ext_in. intros row Hin.
    rewrite Forall_forall in Hrows. destruct (Hrows row Hin) as [Hrow Hcells].
    apply split_join_with; [exact Hrow|].
    apply Forall_forall. intros cell Hcell.
    rewrite Forall_forall in Hcells. now apply oneCell_no_tab, Hcells.
  - destruct rows; [congruence | discriminate].
  - apply Forall_forall. intros line Hin.
    apply in_map_iff in Hin as (row & <- & Hrow).
    rewrite Forall_forall in Hrows.
    now apply joined_row_no_lineFeed, Hrows.
Qed.

Lemma pasted_texts (texts : list string) :
  texts <> [] ->
  Forall oneCell texts ->
  pastedRows (join (String lineFeed EmptyString) texts)
  = map (fun t => [t]) texts.
Proof.
  intros Hne Htexts. unfold pastedRows.
  rewrite split_join_with; [|exact Hne|].
  - apply map_ext_in. intros t Hin.
    rewrite Forall_forall in Htexts.
    now apply split_without, oneCell_no_tab, Htexts.
  - apply Forall_forall. intros t Hin.
    rewrite Forall_forall in Htexts. now apply oneCell_no_lineFeed, Htexts.
Qed.

Lemma filled_push (rowKey : N) (cell : Cell) (m : RowMap) :
  oneCell (text cell) ->
  FilledRows m ->
  FilledRows (pushToRow rowKey cell (ensureRow rowKey m)).
Proof.
  intros Hcell. unfold ensureRow, FilledRows.
  induction m as [|[k cells] rest IH]; intros Hm.
  - simpl. rewrite N.eqb_refl. repeat constructor; [discriminate | exact Hcell].
  - inversion Hm as [|? ? [Hne Hcells] Hrest]; subst. simpl in Hne, Hcells.
    cbn [hasRow]. destruct (k =? rowKey)%N eqn:Hk; cbn [orb].
    + cbn [pushToRow]. rewrite Hk. constructor; [|exact Hrest]. simpl. split.
      * destruct cells; discriminate.
      * apply Forall_app. split; [exact Hcells | repeat constructor; exact Hcell].
    + specialize (IH Hrest).
      destruct (hasRow rowKey rest); cbn [pushToRow app]; rewrite Hk;
        (constructor; [split; assumption | exact IH]).
Qed.

Lemma filled_collectRows (d : Dom) (count rowVarIndex colVarIndex : nat)
    (matched : list Node) :
  forall m m',
    FilledRows m ->
    collectRows d count rowVarIndex colVarIndex matched m = Returned m' ->
    FilledRows m'.
Proof.
  induction matched as [|n matched IH]; intros m m' Hm H; simpl in H.
  - now inversion H; subst.
  - destruct (addMatchedElement d count rowVarIndex colVarIndex m n)
      as [m1|] eqn:Hadd; simpl in H; [|discriminate].
    apply (IH m1 m'); [|exact H].
    unfold addMatchedElement in Hadd.
    destruct (negb _); [now inversion Hadd; subst|].
    destruct (keyAtPosition _ rowVarIndex) as [rowKey|]; simpl in Hadd;
      [|discriminate].
    destruct (keyAtPosition _ colVarIndex) as [colKey|]; simpl in Hadd;
      [|discriminate].
    destruct (normalizedTextOf d n) as [t|] eqn:Ht; simpl in Hadd;
      [|discriminate].
    inversion Hadd; subst. apply filled_push; [|exact Hm].
    simpl. exact (normalizedTextOf_oneCell d n t Ht).
Qed.

Lemma getRow_filled (m : RowMap) (k : N) :
  FilledRows m -> In k (map fst m) ->
  getRow k m <> [] /\ Forall (fun c => oneCell (text c)) (getRow k m).
Proof.
  unfold FilledRows. induction m as [|[k' cells] rest IH]; intros Hm Hin;
    [contradiction|].
  inversion Hm as [|? ? Hrow Hrest]; subst. simpl in Hrow.
  cbn [getRow]. destruct (N.eqb_spec k' k) as [-> | Hne]; [exact Hrow|].
  apply IH; [exact Hrest|]. destruct Hin as [Heq | Hin]; [|exact Hin].
  simpl in Heq. congruence.
Qed.

Lemma matrixOfRows_filled (m : RowMap) :
  FilledRows m ->
  Forall (fun row => row <> [] /\ Forall oneCell row) (matrixOfRows m).
Proof.
  intros Hm. unfold matrixOfRows. apply Forall_forall. intros row Hin.
  apply in_map_iff in Hin as (k & <- & Hk).
  apply (Permutation_in _ (sortByKey_perm (fun k => k) (map fst m))) in Hk.
  destruct (getRow_filled m k Hm Hk) as [Hne Hcells].
  pose proof (sortByKey_perm colIndex (getRow k m)) as Hperm.
  split.
  - intros Hnil. apply map_eq_nil in Hnil. rewrite Hnil in Hperm.
    apply Permutation_nil in Hperm. congruence.
  - apply Forall_forall. intros t Ht.
    apply in_map_iff in Ht as (c & <- & Hc).
    apply (Permutation_in _ Hperm) in Hc.
    rewrite Forall_forall in Hcells. now apply Hcells.
Qed.

(** The data of an extraction: texts without tabs and line feeds, in rows
    that are not empty. *)
Lemma extractData_cells (d : Dom) (st : State) (ex : Extraction) :
  extractData d st = Returned ex ->
  match data ex with
  | Texts texts => Forall oneCell texts
  | Matrix rows => Forall (fun row => row <> [] /\ Forall oneCell row) rows
  end.
Proof.
  unfold extractData.
  assert (Hsel : forall ex',
    (let* texts := mapOutcome (fun sel => normalizedTextOf d (element sel))
                     (selectedElements st) in
     Returned {| data := Texts texts; infoType := TMultiple;
                 infoXPath := None |}) = Returned ex' ->
    match data ex' with
    | Texts texts => Forall oneCell texts
    | Matrix rows => Forall (fun row => row <> [] /\ Forall oneCell row) rows
    end).
  { intros ex' H.
    destruct (mapOutcome _ (selectedElements st)) as [texts|] eqn:Hmap;
      simpl in H; [|discriminate].
    inversion H; subst. simpl.
    apply (mapOutcome_all _ oneCell) in Hmap; [exact Hmap|].
    intros sel t. apply normalizedTextOf_oneCell. }
  destruct (detectedPattern st) as [p|]; [|apply Hsel].
  destruct (List.length (matchedElements st) =? 0)%nat; [apply Hsel|].
  destruct (PatternType_eqb (patternType p) T2d).
  - destruct (List.length (patternVariableIndices p) <? 2)%nat; [discriminate|].
    unfold extract2DMatrix.
    destruct (patternXPath p) as [pathText|]; [|discriminate].
    destruct (patternVariableIndices p) as [|rowVarIndex [|colVarIndex more]];
      try discriminate.
    destruct (collectRows _ _ _ _ _ _) as [m|] eqn:Hrows; simpl;
      [|discriminate].
    intros H. inversion H; subst. simpl.
    apply matrixOfRows_filled.
    eapply filled_collectRows; [|exact Hrows]. constructor.
  - destruct (mapOutcome _ (matchedElements st)) as [texts|] eqn:Hmap;
      simpl; [|discriminate].
    intros H. inversion H; subst. simpl.
    apply (mapOutcome_all _ oneCell) in Hmap; [exact Hmap|].
    intros n t. apply normalizedTextOf_oneCell.
Qed.

End DisplayFacts.

(** X5: what [extractData] returns reads back from the popup's display:
    when there is data, cutting the text of [updateDataDisplay] at the
    line feeds and each line at the tabs gives the rows of the data, a list
    of texts being one column.  No extracted text holds a tab or a line
    feed, and no row of a matrix is empty. *)
Theorem display_reads_back (d : Dom) (st : State) (ex : Extraction) :
  extractData d st = Returned ex ->
  rowsOf (data ex) <> [] ->
  pastedRows (updateDataDisplay (Some (data ex)) (Some (infoType ex)))
  = rowsOf (data ex).
Proof.
  intros Hex Hne. pose proof (extractData_cells d st ex Hex) as Hcells.
  unfold updateDataDisplay.
  destruct (data ex) as [texts | rows]; simpl in Hne |- *.
  - destruct texts as [|t texts]; [simpl in Hne; congruence|].
    cbn [List.length Nat.eqb].
    assert (Hgoal : pastedRows (join (String lineFeed EmptyString) (t :: texts))
                    = map (fun t => [t]) (t :: texts))
      by (apply pasted_texts; [discriminate | exact Hcells]).
    destruct (infoType ex); exact Hgoal.
  - destruct rows as [|row rows]; [congruence|].
    cbn [List.length Nat.eqb].
    assert (Hgoal : pastedRows (join (String lineFeed EmptyString)
                                  (map (join (String tab EmptyString))
                                     (row :: rows)))
                    = row :: rows)
      by (apply pasted_matrix; [discriminate | exact Hcells]).
    destruct (infoType ex); exact Hgoal.
Qed.

Lemma display_reads_back_witness :
  extractData sampleDom twoAxes
  = Returned {| data := Matrix [["a"; "b"; "c"]; ["d"; "e"; "f"]];
                infoType := T2d;
                infoXPath := Some "/html/body/table[1]/tr[*]/td[*]" |}
  /\ pastedRows
       (updateDataDisplay (Some (Matrix [["a"; "b"; "c"]; ["d"; "e"; "f"]]))
          (Some T2d))
     = [["a"; "b"; "c"]; ["d"; "e"; "f"]].
Proof.
  assert (Hex : extractData sampleDom twoAxes
                = Returned {| data := Matrix [["a"; "b"; "c"]; ["d"; "e"; "f"]];
                              infoType := T2d;
                              infoXPath := Some "/html/body/table[1]/tr[*]/td[*]" |})
    by (vm_compute; reflexivity).
  split; [exact Hex|].
  apply (display_reads_back sampleDom twoAxes _ Hex). discriminate.
Defined.

(* ===================================================================== *)
(** ** Sessions: what every sequence of events keeps *)
(* ===================================================================== *)

Section SessionFacts.

Variable d : Dom.

Lemma findPosition_none {A : Type} (p : A -> bool) (l : list A) :
  findPosition p l = None -> forall x, In x l -> p x = false.
Proof.
  induction l as [|y l IH]; intros H x Hin; [contradiction|].
  simpl in H. destruct (p y) eqn:Hy; [discriminate|].
  destruct (findPosition p l); [discriminate|].
  destruct Hin as [<- | Hin]; [exact Hy | now apply IH].
Qed.

Lemma findSelected_none (target : Node) (sel : list Selected) :
  findSelected target sel = None -> ~ In target (map element sel).
Proof.
  intros H Hin. apply in_map_iff in Hin as (s & Hs & Hin).
  pose proof (findPosition_none _ _ H s Hin) as Hp. cbv beta in Hp.
  rewrite Hs in Hp.
  assert (Node_eqb target target = true) by now apply Node_eqb_eq.
  congruence.
Qed.

Lemma findSelected_fresh (target : Node) (sel : list Selected) (path : string) :
  ~ In target (map element sel) ->
  findSelected target (sel ++ [{| element := target; xpath := path |}])
  = Some (List.length sel).
Proof.
  unfold findSelected.
  induction sel as [|s sel IH]; intros Hnot; simpl.
  - assert (Node_eqb target target = true) as -> by now apply Node_eqb_eq.
    reflexivity.
  - destruct (Node_eqb (element s) target) eqn:Heq.
    + apply Node_eqb_eq in Heq. exfalso. apply Hnot. now left.
    + rewrite IH; [reflexivity|]. intros Hin. apply Hnot. now right.
Qed.

Lemma removeAt_last {A : Type} (l : list A) (x : A) :
  removeAt (List.length l) (l ++ [x]) = l.
Proof. induction l as [|y l IH]; simpl; [reflexivity | now rewrite IH]. Qed.

Lemma removeAt_incl {A : Type} (l : list A) :
  forall i x, In x (removeAt i l) -> In x l.
Proof.
  induction l as [|y l IH]; intros [|i] x H; simpl in *; auto.
  destruct H as [<- | H]; [now left | right; now apply (IH i)].
Qed.

Lemma removeAt_map {A B : Type} (f : A -> B) (l : list A) :
  forall i, map f (removeAt i l) = removeAt i (map f l).
Proof.
  induction l as [|y l IH]; intros [|i]; simpl; try reflexivity.
  now rewrite IH.
Qed.

Lemma removeAt_NoDup {A : Type} (l : list A) :
  forall i, NoDup l -> NoDup (removeAt i l).
Proof.
  induction l as [|y l IH]; intros [|i] H; simpl; try assumption;
    inversion H; subst; [assumption|].
  constructor; [|now apply IH].
  intros Hin. apply removeAt_incl in Hin. contradiction.
Qed.

Lemma removeAt_length {A : Type} (l : list A) :
  forall i, List.length (removeAt i l) <= List.length l.
Proof.
  induction l as [|y l IH]; intros [|i]; simpl; try lia.
  specialize (IH i). lia.
Qed.

Lemma updatePattern_active (st : State) :
  isSelectionModeActive (finalState (updatePattern d st))
  = isSelectionModeActive st.
Proof.
  unfold updatePattern, extendWithLatest, detectWith, assignMatched.
  repeat match goal with
         | |- context [match ?x with _ => _ end] => destruct x; simpl
         end; reflexivity.
Qed.

(** The selection an event leaves: the one it found, the one it found with
    a new element at the end, the one it found less one entry, or none. *)
Lemma handleEvent_selection (st : State) (ev : Event) :
  selectedElements (handleEvent d st ev) = selectedElements st
  \/ (exists target path,
        ~ In target (map element (selectedElements st))
        /\ selectedElements (handleEvent d st ev)
           = (selectedElements st
              ++ [{| element := target; xpath := path |}])%list)
  \/ (exists i, selectedElements (handleEvent d st ev)
                = removeAt i (selectedElements st))
  \/ selectedElements (handleEvent d st ev) = [].
Proof.
  destruct ev as [target | target | key | |]; cbn [handleEvent].
  - unfold handleElementClick.
    destruct (negb (isSelectionModeActive st)); [now left|].
    destruct (elementAt d target) as [e|]; [|now left].
    destruct (existsb _ (classList e)); [now left|].
    destruct (findSelected target (selectedElements st)) eqn:Hfind; [now left|].
    destruct (generateXPath d target) as [path|]; [|now left].
    right; left. exists target, path. split.
    + now apply findSelected_none.
    + now rewrite updatePattern_selected.
  - unfold handleElementDoubleClick.
    destruct (negb (isSelectionModeActive st)); [now left|].
    destruct (findSelected target (selectedElements st)) as [i|]; [|now left].
    right; right; left. exists i. now rewrite updatePattern_selected.
  - left. unfold handleKeyDown, deactivateSelectionMode.
    destruct (_ && _); [|reflexivity].
    destruct (negb (isSelectionModeActive st)); reflexivity.
  - left. unfold toggleSelectionMode, deactivateSelectionMode.
    destruct (isSelectionModeActive st); reflexivity.
  - right; right; right. reflexivity.
Qed.

Lemma handleEvent_NoDup (st : State) (ev : Event) :
  NoDup (map element (selectedElements st)) ->
  NoDup (map element (selectedElements (handleEvent d st ev))).
Proof.
  intros H.
  destruct (handleEvent_selection st ev)
    as [-> | [(target & path & Hnot & ->) | [(i & ->) | ->]]].
  - exact H.
  - rewrite map_app. simpl. apply NoDup_app; [exact H | | ].
    + repeat constructor. intros [].
    + intros x Hx [<- | []]. contradiction.
  - rewrite removeAt_map. now apply removeAt_NoDup.
  - constructor.
Qed.

Lemma fold_invariant (P : State -> Prop) (events : list Event) :
  (forall st ev, P st -> P (handleEvent d st ev)) ->
  forall st, P st -> P (fold_left (handleEvent d) events st).
Proof.
  intros Hstep. induction events as [|ev events IH]; intros st H; simpl;
    [exact H | apply IH, Hstep, H].
Qed.

(** *** The pattern goes with the selection *)

Lemma type_by_length (l : list nat) :
  ((if (2 <=? List.length l)%nat then T2d else T1d) = T1d
   \/ (if (2 <=? List.length l)%nat then T2d else T1d) = T2d)
  /\ ((if (2 <=? List.length l)%nat then T2d else T1d) = T2d
      <-> 2 <= List.length l).
Proof.
  destruct (Nat.leb_spec 2 (List.length l)); split; auto;
    split; intros; try lia; try reflexivity; discriminate.
Qed.

Lemma patternOfCompare_generalised (xpath1 xpath2 : string) :
  isValid (compareXPaths xpath1 xpath2) = true ->
  Generalised (patternOfCompare (compareXPaths xpath1 xpath2)).
Proof.
  intros Hvalid.
  destruct (compareXPaths_cases xpath1 xpath2)
    as [(_ & _ & Hne & Heq) | [_ Heq]];
    [|rewrite Heq in Hvalid; discriminate].
  rewrite Heq. unfold Generalised, patternOfCompare.
  cbn [patternType patternXPath patternVariableIndices variableIndices pattern].
  destruct (type_by_length
              (loopVariable 0 (parseXPathToSegments xpath1)
                 (parseXPathToSegments xpath2))) as [H1 H2].
  split; [exact H1|]. split; [eauto|]. split; [exact Hne | exact H2].
Qed.

Lemma detectLoop_not_found (existing : list nat)
    (segments1 segments2 : list string) :
  forall i acc vars found segs vars',
    detectLoop existing i segments1 segments2 acc vars found
    = Some (segs, vars', false) ->
    vars' = vars.
Proof.
  revert segments2.
  induction segments1 as [|a rest1 IH]; intros [|b rest2] i acc vars found
    segs vars' H; simpl in H; try (now inversion H).
  destruct (negb (tag (parseSegment a) =? tag (parseSegment b)));
    [discriminate|].
  destruct (includesIndex existing i); [now apply IH in H|].
  destruct (notNull _ && notNull _ && indexDiffers _ _).
  - exfalso. clear IH. revert H.
    generalize (acc ++ [wildcardSegment (parseSegment a)])%list.
    generalize (vars ++ [i])%list. generalize (S i).
    revert rest2.
    induction rest1 as [|a' rest1 IH']; intros [|b' rest2] j vs ac H;
      simpl in H; try (inversion H; fail).
    destruct (negb (tag (parseSegment a') =? tag (parseSegment b')));
      [discriminate|].
    destruct (includesIndex existing j); [now apply IH' in H|].
    destruct (notNull _ && notNull _ && indexDiffers _ _); now apply IH' in H.
  - now apply IH in H.
Qed.

Lemma patternOfDetect_generalised (text : string) (vars : list nat)
    (newXPath : string) :
  vars <> [] ->
  isValid2D (detect2DPattern text vars newXPath) = true ->
  Generalised (patternOfDetect (detect2DPattern text vars newXPath)).
Proof.
  intros Hvars. unfold detect2DPattern.
  destruct (negb _); [discriminate|].
  destruct (detectLoop _ _ _ _ _ _ _) as [[[segs vars'] found]|] eqn:Hloop;
    [|discriminate].
  intros _.
  pose proof (detectLoop_Some _ _ _ _ _ _ _ _ _ _ Hloop) as [_ (extra & Hext)].
  destruct found; unfold Generalised, patternOfDetect;
    cbn [negb patternType patternXPath patternVariableIndices
         variableIndices2D pattern2D is2D].
  - destruct (type_by_length vars') as [H1 H2].
    split; [exact H1|]. split; [eauto|]. split; [|exact H2].
    subst vars'. destruct vars; [congruence | discriminate].
  - apply detectLoop_not_found in Hloop. subst vars'.
    destruct (type_by_length vars) as [H1 H2].
    split; [exact H1|]. split; [eauto|]. split; [exact Hvars | exact H2].
Qed.

Lemma extendWithLatest_generalised (st : State) (current : Pattern)
    (paths : list string) :
  Generalised current ->
  detectedPattern (finalState (extendWithLatest d st current paths))
  = detectedPattern st
  \/ exists p,
       detectedPattern (finalState (extendWithLatest d st current paths))
       = Some p
       /\ Generalised p.
Proof.
  intros (Htype & (text & Htext) & Hvars & Hiff).
  unfold extendWithLatest, detectWith. rewrite Htext.
  destruct (isValid2D (detect2DPattern text _ _)) eqn:Hvalid.
  - right. eexists. rewrite assignMatched_pattern. split; [reflexivity|].
    now apply patternOfDetect_generalised.
  - left. now rewrite assignMatched_pattern.
Qed.

Lemma updatePattern_fits (st : State) :
  (3 <= List.length (selectedElements st) ->
   exists p, detectedPattern st = Some p
             /\ (p = multiplePattern \/ Generalised p)) ->
  PatternFits (finalState (updatePattern d st)).
Proof.
  intros Hheld. unfold PatternFits. rewrite updatePattern_selected.
  destruct (selectedElements st) as [|first [|second others]] eqn:Hsel.
  - unfold updatePattern. now rewrite Hsel.
  - unfold updatePattern. now rewrite Hsel.
  - unfold updatePattern. rewrite Hsel.
    set (paths := map _ (first :: second :: others)).
    set (xpath0 := nth 0 paths EmptyString).
    set (xpath1 := nth 1 paths EmptyString).
    assert (Hmultiple :
      exists p,
        detectedPattern
          (finalState
             (Normal (setMatched (setPattern st (Some multiplePattern))
                        (map element (first :: second :: others)))))
        = Some p
        /\ (p = multiplePattern \/ Generalised p)).
    { exists multiplePattern. split; [reflexivity | now left]. }
    destruct others as [|third others].
    + destruct (isValid (compareXPaths xpath0 xpath1)) eqn:Hvalid;
        [|exact Hmultiple].
      eexists. rewrite assignMatched_pattern. split; [reflexivity|].
      right. now apply patternOfCompare_generalised.
    + destruct Hheld as (held & Hp & Hshape); [simpl; lia|].
      assert (Hextend : forall current,
        Generalised current ->
        exists p,
          detectedPattern (finalState (extendWithLatest d st current paths))
          = Some p
          /\ (p = multiplePattern \/ Generalised p)).
      { intros current Hc.
        destruct (extendWithLatest_generalised st current paths Hc)
          as [Hsame | (p & Hnew & Hgen)].
        - exists held. rewrite Hsame. auto.
        - exists p. auto. }
      assert (Hfirst :
        exists p,
          detectedPattern
            (finalState
               (if isValid (compareXPaths xpath0 xpath1)
                then extendWithLatest d st
                       (patternOfCompare (compareXPaths xpath0 xpath1)) paths
                else Normal (setMatched (setPattern st (Some multiplePattern))
                               (map element
                                  (first :: second :: third :: others)))))
          = Some p
          /\ (p = multiplePattern \/ Generalised p)).
      { destruct (isValid (compareXPaths xpath0 xpath1)) eqn:Hvalid;
          [|exact Hmultiple].
        now apply Hextend, patternOfCompare_generalised. }
      rewrite Hp.
      destruct (PatternType_eqb (patternType held) TMultiple) eqn:Hm;
        [exact Hfirst|].
      apply Hextend. destruct Hshape as [-> | Hgen]; [discriminate | exact Hgen].
Qed.

Lemma handleEvent_fits (st : State) (ev : Event) :
  PatternFits st -> PatternFits (handleEvent d st ev).
Proof.
  intros Hfits.
  assert (Hheld : forall n, 2 <= n -> n <= List.length (selectedElements st) ->
            exists p, detectedPattern st = Some p
                      /\ (p = multiplePattern \/ Generalised p)).
  { intros n Hn Hlen. unfold PatternFits in Hfits.
    destruct (selectedElements st) as [|a [|b rest]]; simpl in Hlen; try lia.
    exact Hfits. }
  destruct ev as [target | target | key | |]; cbn [handleEvent].
  - unfold handleElementClick.
    destruct (negb (isSelectionModeActive st)); [exact Hfits|].
    destruct (elementAt d target) as [e|]; [|exact Hfits].
    destruct (existsb _ (classList e)); [exact Hfits|].
    destruct (findSelected target (selectedElements st)); [exact Hfits|].
    destruct (generateXPath d target) as [path|]; [|exact Hfits].
    apply updatePattern_fits. cbn [setSelected selectedElements detectedPattern].
    rewrite length_app. simpl. intros Hlen.
    apply (Hheld 2); lia.
  - unfold handleElementDoubleClick.
    destruct (negb (isSelectionModeActive st)); [exact Hfits|].
    destruct (findSelected target (selectedElements st)) as [i|];
      [|exact Hfits].
    apply updatePattern_fits. cbn [setSelected selectedElements detectedPattern].
    intros Hlen. pose proof (removeAt_length (selectedElements st) i).
    apply (Hheld 2); lia.
  - unfold handleKeyDown, deactivateSelectionMode.
    destruct (_ && _); [|exact Hfits].
    destruct (negb (isSelectionModeActive st)); exact Hfits.
  - unfold toggleSelectionMode, deactivateSelectionMode.
    destruct (isSelectionModeActive st); exact Hfits.
  - reflexivity.
Qed.

End SessionFacts.

(** X6: whatever the events of a session, the selection never holds the
    same element twice. *)
Theorem selection_never_repeats (d : Dom) (events : list Event) :
  NoDup (map element (selectedElements (runEvents d events))).
Proof.
  unfold runEvents.
  apply (fold_invariant d
           (fun st => NoDup (map element (selectedElements st)))).
  - apply handleEvent_NoDup.
  - constructor.
Qed.

(** X7: whatever the events of a session, the pattern goes with the size
    of the selection: none for an empty selection; for one selected element
    the pattern of type [single] with the path recorded for it; for two or
    more either the pattern of type [multiple] without a path, or a pattern
    of type [1d] or [2d] with a path and at least one variable position,
    of type [2d] exactly when it has two or more. *)
Theorem pattern_goes_with_selection (d : Dom) (events : list Event) :
  PatternFits (runEvents d events).
Proof.
  unfold runEvents. apply fold_invariant.
  - apply handleEvent_fits.
  - reflexivity.
Qed.

(** X8: in no state a session reaches do [extractData] and [extract2DData]
    call each other without end: a pattern of type [2d] has two variable
    positions, so the guard of [extract2DData] lets it through. *)
Theorem extractData_never_exhausts_the_stack (d : Dom) (events : list Event) :
  extractData d (runEvents d events) <> Thrown RangeError
  /\ extract2DData d (runEvents d events) <> Thrown RangeError.
Proof.
  assert (Hfits : PatternFits (runEvents d events)).
  { unfold runEvents. apply fold_invariant;
      [apply handleEvent_fits | reflexivity]. }
  set (st := runEvents d events) in *.
  assert (Htexts : forall (A : Type) (f : A -> Outcome string) (l : list A),
            mapOutcome (fun x => match f x with
                                 | Returned t => Returned t
                                 | Thrown _ => Thrown TypeError
                                 end) l
            <> Thrown RangeError).
  { intros A f l. induction l as [|x l IH]; simpl; [discriminate|].
    destruct (f x); simpl; [|discriminate].
    destruct (mapOutcome _ l) as [ys | failure]; simpl; [discriminate|].
    intros H. inversion H; subst. now apply IH. }
  assert (Hnode : forall n,
            normalizedTextOf d n
            = match normalizedTextOf d n with
              | Returned t => Returned t
              | Thrown _ => Thrown TypeError
              end)
    by (intros [| |r up]; reflexivity).
  assert (Hmap : forall (A : Type) (g : A -> Node) (l : list A),
            mapOutcome (fun x => normalizedTextOf d (g x)) l
            <> Thrown RangeError).
  { intros A g l H. apply (Htexts A (fun x => normalizedTextOf d (g x)) l).
    rewrite <- H. clear H. induction l as [|x l IH]; simpl; [reflexivity|].
    rewrite <- Hnode, IH. reflexivity. }
  assert (Hsel :
    (let* texts := mapOutcome (fun sel => normalizedTextOf d (element sel))
                     (selectedElements st) in
     Returned {| data := Texts texts; infoType := TMultiple;
                 infoXPath := None |}) <> Thrown RangeError).
  { destruct (mapOutcome _ (selectedElements st)) as [ys | failure] eqn:Hm;
      simpl; [discriminate|].
    intros H. inversion H; subst.
    exact (Hmap Selected element (selectedElements st) Hm). }
  assert (Hrows : forall count r c matched m,
            collectRows d count r c matched m <> Thrown RangeError).
  { intros count r c matched.
    induction matched as [|n matched IH]; intros m; simpl; [discriminate|].
    destruct (addMatchedElement d count r c m n) as [m1 | failure] eqn:Hadd;
      simpl; [apply IH|].
    intros H. inversion H; subst. clear IH H.
    unfold addMatchedElement, keyAtPosition, callParseSegment in Hadd.
    destruct (negb _); [discriminate|].
    destruct (nth_error _ r); simpl in Hadd; [|discriminate].
    destruct (nth_error _ c); simpl in Hadd; [|discriminate].
    destruct n as [| |root up]; simpl in Hadd; discriminate. }
  assert (Hmatrix : forall p, extract2DMatrix d st p <> Thrown RangeError).
  { intros p. unfold extract2DMatrix.
    destruct (patternXPath p); [|discriminate].
    destruct (patternVariableIndices p) as [|r [|c more]]; try discriminate.
    destruct (collectRows _ _ _ _ _ _) as [m | failure] eqn:Hc; simpl;
      [discriminate|].
    intros H. inversion H; subst. exact (Hrows _ _ _ _ _ Hc). }
  assert (Hdata : extractData d st <> Thrown RangeError).
  { unfold extractData.
    destruct (detectedPattern st) as [p|] eqn:Hp; [|exact Hsel].
    destruct (List.length (matchedElements st) =? 0)%nat; [exact Hsel|].
    destruct (PatternType_eqb (patternType p) T2d) eqn:Ht.
    - destruct (Nat.ltb_spec (List.length (patternVariableIndices p)) 2)
        as [Hshort|]; [|apply Hmatrix].
      exfalso. unfold PatternFits in Hfits. rewrite Hp in Hfits.
      destruct (selectedElements st) as [|a [|b rest]].
      + discriminate.
      + inversion Hfits; subst. discriminate.
      + destruct Hfits as (q & Hq & [-> | (_ & _ & _ & Hiff)]);
          inversion Hq; subst; [discriminate|].
        destruct (patternType q); try discriminate.
        pose proof (proj1 Hiff eq_refl). lia.
    - destruct (mapOutcome _ (matchedElements st)) as [ys | failure] eqn:Hm;
        simpl; [discriminate|].
      intros H. inversion H; subst.
      exact (Hmap Node (fun n => n) (matchedElements st) Hm). }
  split; [exact Hdata|].
  unfold extract2DData.
  destruct (detectedPattern st) as [p|]; [|exact Hdata].
  destruct (List.length (patternVariableIndices p) <? 2)%nat;
    [exact Hdata | apply Hmatrix].
Qed.

(** X9: a click on an element that is not selected followed by a double
    click on it gives the selection back as it was. *)
Theorem click_then_double_click (d : Dom) (target : Node) (e : Element)
    (st : State) :
  isSelectionModeActive st = true ->
  elementAt d target = Some e ->
  ~ In overlayClass (classList e) ->
  ~ In target (map element (selectedElements st)) ->
  selectedElements
    (finalState
       (handleElementDoubleClick d target
          (finalState (handleElementClick d target st))))
  = selectedElements st.
Proof.
  intros Hactive He Hclass Hfresh.
  assert (Hfind : findSelected target (selectedElements st) = None).
  { unfold findSelected.
    destruct (findPosition _ (selectedElements st)) as [i|] eqn:Hf;
      [|reflexivity].
    apply findPosition_nth in Hf as (s & Hs & Heq).
    apply Node_eqb_eq in Heq. exfalso. apply Hfresh. rewrite <- Heq.
    apply in_map. now apply nth_error_In in Hs. }
  assert (Hpath : exists path, generateXPath d target = Returned path).
  { destruct target as [| |r up]; [discriminate | discriminate|].
    simpl. eauto. }
  destruct Hpath as (path & Hpath).
  assert (Hoverlay : existsb (String.eqb overlayClass) (classList e) = false).
  { destruct (existsb _ (classList e)) eqn:Hex; [|reflexivity].
    apply existsb_exists in Hex as (c & Hin & Hc).
    apply String.eqb_eq in Hc. subst c. contradiction. }
  unfold handleElementClick at 1.
  rewrite Hactive, He, Hoverlay, Hfind, Hpath. cbn [negb].
  set (pushed := setSelected st _).
  unfold handleElementDoubleClick.
  rewrite updatePattern_active, updatePattern_selected.
  cbn [pushed setSelected isSelectionModeActive selectedElements].
  rewrite Hactive. cbn [negb].
  rewrite (findSelected_fresh target (selectedElements st) path Hfresh).
  rewrite updatePattern_selected. cbn [setSelected selectedElements].
  apply removeAt_last.
Qed.

Lemma click_then_double_click_witness :
  selectedElements
    (finalState
       (handleElementDoubleClick sampleDom (sampleCell 1 1)
          (finalState
             (handleElementClick sampleDom (sampleCell 1 1)
                (afterClicks sampleDom [sampleCell 0 0; sampleCell 1 0])))))
  = selectedElements (afterClicks sampleDom [sampleCell 0 0; sampleCell 1 0]).
Proof.
  apply (click_then_double_click sampleDom (sampleCell 1 1) (leaf "td" "e")).
  - reflexivity.
  - reflexivity.
  - simpl. tauto.
  - vm_compute. intros [H | [H | []]]; discriminate.
Defined.

(* ===================================================================== *)
(** ** Printing and parsing segments and paths *)
(* ===================================================================== *)

Section PrintedFacts.

Lemma matchTagIndex_star (rest : string) :
  matchTagIndex (String "*" rest) = None.
Proof. reflexivity. Qed.

Lemma parseSegment_bare (name : string) :
  name <> EmptyString -> allChars isTagChar name = true ->
  parseSegment name = {| tag := name; index := None; id := None |}.
Proof.
  intros Hne Hname. unfold parseSegment.
  now rewrite (matchTagIndex_bare name (conj Hne Hname)).
Qed.

Lemma indexVaries_sym (a b : Segment) : indexVaries a b = indexVaries b a.
Proof.
  unfold indexVaries.
  destruct (index a) as [x|], (index b) as [y|]; simpl; try reflexivity.
  now rewrite N.eqb_sym.
Qed.

Lemma tagsAgreeb_sym (segments1 segments2 : list string) :
  tagsAgreeb segments1 segments2 = tagsAgreeb segments2 segments1.
Proof.
  revert segments2.
  induction segments1 as [|a rest1 IH]; intros [|b rest2]; simpl;
    try reflexivity.
  now rewrite String.eqb_sym, IH.
Qed.

Lemma loopVariable_sym (segments1 segments2 : list string) :
  forall i, loopVariable i segments1 segments2
            = loopVariable i segments2 segments1.
Proof.
  revert segments2.
  induction segments1 as [|a rest1 IH]; intros [|b rest2] i; simpl;
    try reflexivity.
  rewrite (indexVaries_sym (parseSegment b)), IH. reflexivity.
Qed.

Lemma loopSegment_sym (a b : string) :
  tag (parseSegment a) = tag (parseSegment b) ->
  (index (parseSegment a) = None <-> index (parseSegment b) = None) ->
  loopSegment a b = loopSegment b a.
Proof.
  intros Htag Hkind. unfold loopSegment.
  rewrite (indexVaries_sym (parseSegment b)).
  destruct (indexVaries (parseSegment a) (parseSegment b)) eqn:Hv.
  - unfold wildcardSegment. now rewrite Htag.
  - unfold literalSegment. rewrite Htag.
    unfold indexVaries in Hv.
    destruct (index (parseSegment a)) as [x|], (index (parseSegment b)) as [y|];
      simpl in Hv.
    + rewrite !andb_true_r in Hv. apply negb_false_iff, N.eqb_eq in Hv.
      now subst.
    + destruct Hkind as [_ H]. specialize (H eq_refl). discriminate.
    + destruct Hkind as [H _]. specialize (H eq_refl). discriminate.
    + reflexivity.
Qed.

Lemma loopSegments_sym (segments1 segments2 : list string) :
  List.length segments1 = List.length segments2 ->
  tagsAgreeb segments1 segments2 = true ->
  (forall j, j < List.length segments1 ->
     (index (parseSegment (nth j segments1 EmptyString)) = None
      <-> index (parseSegment (nth j segments2 EmptyString)) = None)) ->
  loopSegments segments1 segments2 = loopSegments segments2 segments1.
Proof.
  intros Hlen Htags Hkind.
  apply (nth_ext _ _ EmptyString EmptyString).
  - rewrite !loopSegments_length; auto.
  - intros j Hj. rewrite loopSegments_length in Hj by assumption.
    rewrite (loopSegments_nth _ _ Hlen j Hj).
    rewrite (loopSegments_nth _ _ (eq_sym Hlen) j) by lia.
    apply loopSegment_sym.
    + exact (proj1 (tagsAgreeb_spec _ _ Hlen) Htags j Hj).
    + now apply Hkind.
Qed.

Lemma same_kind_of_not_one_null (path1 path2 : string) :
  (forall i, ~ OneIndexNullAt path1 path2 i) ->
  forall j,
    index (parseSegment (nth j (parseXPathToSegments path1) EmptyString)) = None
    <-> index (parseSegment (nth j (parseXPathToSegments path2) EmptyString))
        = None.
Proof.
  intros Hkind j. specialize (Hkind j).
  unfold OneIndexNullAt, segmentAt in Hkind.
  destruct (index (parseSegment (nth j (parseXPathToSegments path1) EmptyString)));
    destruct (index (parseSegment (nth j (parseXPathToSegments path2) EmptyString)));
    split; intros H; try reflexivity; try discriminate;
    exfalso; apply Hkind; [right | left]; split; congruence.
Qed.

End PrintedFacts.

(** X10: [parseSegment] reads back what the pattern matcher prints: a tag
    followed by a bracketed number gives the tag and the number, a bare tag
    gives the tag and no index, and the id-reference token gives the star,
    no index, and the id. *)
Theorem parseSegment_reads_printed_segment (parsed : Segment) (value : string) :
  tag parsed <> EmptyString ->
  allChars isTagChar (tag parsed) = true ->
  id parsed = None ->
  value <> EmptyString ->
  allChars noQuote value = true ->
  parseSegment (literalSegment parsed) = parsed
  /\ parseSegment (idRefOpen ++ value ++ idRefClose)
     = {| tag := "*"; index := None; id := Some value |}.
Proof.
  intros Hne Hname Hid Hvalue Hquote. split.
  - destruct parsed as [name [n|] i]; simpl in *; subst i;
      unfold literalSegment; simpl.
    + now apply parseSegment_indexed.
    + now apply parseSegment_bare.
  - unfold parseSegment.
    change (idRefOpen ++ value ++ idRefClose)
      with (String "*" (("[@id=" ++ String dquote EmptyString)
                        ++ value ++ idRefClose)).
    rewrite matchTagIndex_star.
    change (String "*" (("[@id=" ++ String dquote EmptyString)
                        ++ value ++ idRefClose))
      with (idRefOpen ++ value ++ idRefClose).
    now rewrite (matchIdRef_complete value Hvalue Hquote).
Qed.

Lemma parseSegment_reads_printed_segment_witness :
  parseSegment (literalSegment {| tag := "td"; index := Some 12%N; id := None |})
  = {| tag := "td"; index := Some 12%N; id := None |}
  /\ parseSegment (idRefOpen ++ "main" ++ idRefClose)
     = {| tag := "*"; index := None; id := Some "main" |}.
Proof.
  apply (parseSegment_reads_printed_segment
           {| tag := "td"; index := Some 12%N; id := None |} "main").
  - discriminate.
  - reflexivity.
  - reflexivity.
  - discriminate.
  - reflexivity.
Defined.

(** X11: the segments [parseXPathToSegments] returns are never empty and
    hold no slash, whatever the slashes of the path; and a path printed
    from such segments, a slash before each, parses into them again. *)
Theorem parseXPathToSegments_round_trip (xpath : string) (pieces : list string) :
  Forall PlainSegment (parseXPathToSegments xpath)
  /\ (Forall PlainSegment pieces ->
      parseXPathToSegments ("/" ++ join "/" pieces) = pieces).
Proof.
  split; [apply parseXPathToSegments_plain | apply parse_printed].
Qed.

Lemma parseXPathToSegments_round_trip_witness :
  Forall PlainSegment (parseXPathToSegments "//html///body/div[2]/")
  /\ parseXPathToSegments ("/" ++ join "/" ["html"; "body"; "div[2]"])
     = ["html"; "body"; "div[2]"].
Proof.
  destruct (parseXPathToSegments_round_trip "//html///body/div[2]/"
              ["html"; "body"; "div[2]"]) as [Hplain Hback].
  split; [exact Hplain|]. apply Hback.
  repeat constructor; discriminate.
Defined.

(** X12: [compareXPaths] finds the same variable positions whichever path
    comes first, and is valid for both orders or for neither; the two
    patterns are the same text when no position has exactly one index
    null. *)
Theorem compareXPaths_order (path1 path2 : string) :
  isValid (compareXPaths path1 path2) = isValid (compareXPaths path2 path1)
  /\ variableIndices (compareXPaths path1 path2)
     = variableIndices (compareXPaths path2 path1)
  /\ ((forall i, ~ OneIndexNullAt path1 path2 i) ->
      pattern (compareXPaths path1 path2)
      = pattern (compareXPaths path2 path1)).
Proof.
  destruct (compareXPaths_cases path1 path2)
    as [(Hlen & Htags & Hne & Heq) | [Hno Heq]];
  destruct (compareXPaths_cases path2 path1)
    as [(Hlen' & Htags' & Hne' & Heq') | [Hno' Heq']];
  rewrite Heq, Heq'; cbn [isValid variableIndices pattern notComparable].
  - split; [reflexivity|]. split; [apply loopVariable_sym|].
    intros Hkind.
    rewrite (loopSegments_sym _ _ Hlen Htags); [reflexivity|].
    intros j _. now apply same_kind_of_not_one_null.
  - exfalso. rewrite tagsAgreeb_sym, loopVariable_sym in Hno'.
    destruct Hno' as [H | [H | H]]; congruence.
  - exfalso. rewrite tagsAgreeb_sym, loopVariable_sym in Hno.
    destruct Hno as [H | [H | H]]; congruence.
  - auto.
Qed.

Lemma compareXPaths_order_witness :
  variableIndices (compareXPaths "/html/body/table[1]/tr[1]/td[2]"
                     "/html/body/table[1]/tr[3]/td[2]")
  = variableIndices (compareXPaths "/html/body/table[1]/tr[3]/td[2]"
                       "/html/body/table[1]/tr[1]/td[2]")
  /\ pattern (compareXPaths "/html/body/table[1]/tr[1]/td[2]"
                "/html/body/table[1]/tr[3]/td[2]")
     = pattern (compareXPaths "/html/body/table[1]/tr[3]/td[2]"
                  "/html/body/table[1]/tr[1]/td[2]").
Proof.
  destruct (compareXPaths_order "/html/body/table[1]/tr[1]/td[2]"
              "/html/body/table[1]/tr[3]/td[2]") as (_ & Hvars & Hpattern).
  split; [exact Hvars|]. apply Hpattern.
  intros i [[H1 H2] | [H1 H2]];
    destruct i as [|[|[|[|[|i]]]]]; vm_compute in H1, H2;
    try discriminate; try (now apply H2); try (now apply H1).
Defined.

(* ===================================================================== *)
(** ** Paths that find their element again *)
(* ===================================================================== *)

Section FullPathFacts.

Variable d : Dom.
Hypothesis Hnames : NamedElements d.

Lemma join_snoc (pieces : list string) (piece : string) :
  pieces <> [] ->
  join "/" (pieces ++ [piece]) = join "/" pieces ++ "/" ++ piece.
Proof.
  induction pieces as [|p rest IH]; intros Hne; [congruence|].
  destruct rest as [|q rest'].
  - reflexivity.
  - change (join "/" ((p :: q :: rest') ++ [piece]))
      with (p ++ "/" ++ join "/" ((q :: rest') ++ [piece])).
    rewrite IH by discriminate.
    change (join "/" (p :: q :: rest')) with (p ++ "/" ++ join "/" (q :: rest')).
    now rewrite !append_assoc.
Qed.

Lemma fullXPathSegments_not_nil (r : Root) (up : list nat) :
  fullXPathSegments d r up <> [].
Proof.
  destruct up as [|position up]; cbn [fullXPathSegments]; [discriminate|].
  intros H. apply app_eq_nil in H as [_ H]. discriminate.
Qed.

Lemma earlierWithTag_eq (siblings : list Element) (position : nat)
    (name : string) :
  PickerVer2.earlierWithTag siblings position name
  = N.of_nat (sameTagBefore siblings position name).
Proof. reflexivity. Qed.

Lemma ownStep_eq (position : nat) (up : list nat) (p e : Element) :
  elementAt d (ElementNode InDocument up) = Some p ->
  nth_error (children p) position = Some e ->
  ownStep d position up
  = {| nameTest := tagName e;
       positionTest :=
         Some (1 + PickerVer2.earlierWithTag (children p) position (tagName e))%N |}.
Proof.
  intros Hp He. unfold ownStep, childElements. rewrite Hp.
  rewrite (tagNameAt_child d InDocument up p e position Hp He).
  pose proof (Hnames _ _ (eq_trans (elementAt_child d InDocument up position p Hp) He))
    as Hname.
  destruct (isName_chars _ Hname) as [Hne _].
  now rewrite (countSameTagBefore_eq (tagName e) (children p) Hne).
Qed.

Lemma select_root :
  selectStep d {| nameTest := tagNameAt d documentElementNode;
                  positionTest := Some 1%N |} DocumentNode
  = [documentElementNode].
Proof.
  unfold selectStep. cbn [nameTest positionTest childNodes filter].
  now rewrite String.eqb_refl.
Qed.

(** The path [computeFullXPath] prints for an element of the document
    parses into its steps, and the steps lead to the element alone. *)
Lemma full_path_steps (up : list nat) :
  forall e,
    elementAt d (ElementNode InDocument up) = Some e ->
    parseLocationPath ("/" ++ join "/" (fullXPathSegments d InDocument up))
    = Some (fullSteps d up)
    /\ evaluateSteps d (fullSteps d up) [DocumentNode]
       = [ElementNode InDocument up].
Proof.
  induction up as [|position up IH]; intros e He.
  - cbn [fullXPathSegments fullSteps join].
    pose proof (Hnames _ _ He) as Hname.
    assert (Htag : tagNameAt d (ElementNode InDocument []) = tagName e)
      by (unfold tagNameAt; now rewrite He).
    split.
    + change ("/" ++ tagNameAt d (ElementNode InDocument [])
                  ++ "[" ++ ofNumber 1 ++ "]")
        with (String slash (tagNameAt d (ElementNode InDocument [])
                            ++ "[" ++ ofNumber 1 ++ "]")).
      cbn [parseLocationPath]. rewrite Ascii.eqb_refl.
      rewrite split_plain.
      * cbn [parseSteps]. unfold documentElementNode. rewrite Htag.
        now rewrite (parseStep_indexed (tagName e) 1 Hname).
      * rewrite Htag.
        apply ownSegment_chars;
          auto using isNameChar_noSlash, isDigit_noSlash.
    + cbn [evaluateSteps flat_map]. rewrite select_root. reflexivity.
  - destruct (elementAt_parent d InDocument position up e He)
      as (p & Hp & Hchild).
    destruct (IH p Hp) as (Hparse & Heval).
    pose proof (Hnames _ _ He) as Hname.
    pose proof (tagNameAt_child d InDocument up p e position Hp Hchild) as Htag.
    cbn [fullXPathSegments fullSteps].
    rewrite (join_snoc _ _ (fullXPathSegments_not_nil InDocument up)).
    rewrite <- append_assoc. unfold childElements. rewrite Hp, Htag.
    split.
    + apply parseLocationPath_snoc; [exact Hparse | |].
      * apply ownSegment_chars;
          auto using isNameChar_noSlash, isDigit_noSlash.
      * rewrite (ownStep_eq position up p e Hp Hchild).
        now apply parseStep_indexed.
    + rewrite evaluateSteps_app, Heval. cbn [evaluateSteps flat_map].
      rewrite (select_own d position up p e Hp Hchild Hname). reflexivity.
Qed.

(** *** The second picker *)

Lemma no_earlier {A : Type} (P : A -> bool) (l : list A) :
  forall n, List.length (filter P (firstn n l)) = 0 ->
            forall j c, j < n -> nth_error l j = Some c -> P c = false.
Proof.
  induction l as [|x l IH]; intros [|n] H j c Hj Hc;
    try lia; try (destruct j; discriminate).
  cbn [firstn filter] in H. destruct (P x) eqn:Hx; [discriminate|].
  destruct j as [|j]; simpl in Hc.
  - now inversion Hc; subst.
  - apply (IH n H j c); [lia | exact Hc].
Qed.

Lemma no_later {A : Type} (P : A -> bool) (l : list A) :
  forall n, existsb P (skipn (S n) l) = false ->
            forall j c, n < j -> nth_error l j = Some c -> P c = false.
Proof.
  induction l as [|x l IH]; intros n H j c Hj Hc;
    [destruct j; discriminate|].
  destruct j as [|j]; [lia|]. simpl in Hc. cbn [skipn] in H.
  destruct n as [|n].
  - destruct (P c) eqn:Hpc; [|reflexivity].
    rewrite <- H. symmetry. apply existsb_exists. exists c.
    split; [now apply nth_error_In in Hc | exact Hpc].
  - apply (IH n H j c); [lia | exact Hc].
Qed.

Lemma parseStep_bare (name : string) :
  isName name = true ->
  parseStep name = Some {| nameTest := name; positionTest := None |}.
Proof.
  intros Hname. destruct (isName_chars name Hname) as [_ Hchars].
  unfold parseStep. rewrite <- (append_empty_r name) at 1.
  rewrite (span_exact isNameChar name EmptyString Hchars I).
  now rewrite Hname.
Qed.

Lemma select_picker (position : nat) (up : list nat) (p e : Element) :
  elementAt d (ElementNode InDocument up) = Some p ->
  nth_error (children p) position = Some e ->
  selectStep d (pickerStep d position up) (ElementNode InDocument up)
  = [ElementNode InDocument (position :: up)].
Proof.
  intros Hp He.
  pose proof (Hnames _ _ (eq_trans (elementAt_child d InDocument up position p Hp) He))
    as Hname.
  pose proof (tagNameAt_child d InDocument up p e position Hp He) as Htag.
  unfold pickerStep, childElements. rewrite Hp, Htag.
  destruct ((1 <? 1 + PickerVer2.earlierWithTag (children p) position (tagName e))%N
            || PickerVer2.laterHasTag (children p) position (tagName e))
    eqn:Hindexed.
  - rewrite <- (ownStep_eq position up p e Hp He).
    exact (select_own d position up p e Hp He Hname).
  - apply orb_false_iff in Hindexed as [Hfirst Hlast].
    unfold selectStep. cbn [nameTest positionTest childNodes].
    unfold childElements. rewrite Hp.
    apply (filter_unique (fun i => ElementNode InDocument (i :: up))).
    + intros j Hj. change (0 + j) with j.
      destruct (nth_error (children p) j) as [c|] eqn:Hc;
        [|apply nth_error_None in Hc; lia].
      rewrite (tagNameAt_child d InDocument up p c j Hp Hc).
      rewrite String.eqb_eq. split.
      * intros Hsame.
        destruct (Nat.lt_trichotomy j position) as [Hlt | [Heq | Hgt]];
          [exfalso | exact Heq | exfalso].
        -- apply N.ltb_ge in Hfirst.
           unfold PickerVer2.earlierWithTag in Hfirst.
           assert (Hzero : List.length
                             (filter (fun s => tagName s =? tagName e)
                                (firstn position (children p))) = 0) by lia.
           pose proof (no_earlier _ _ _ Hzero j c Hlt Hc) as Hno.
           cbv beta in Hno. rewrite Hsame, String.eqb_refl in Hno.
           discriminate.
        -- unfold PickerVer2.laterHasTag in Hlast.
           pose proof (no_later _ _ _ Hlast j c Hgt Hc) as Hno.
           cbv beta in Hno. rewrite Hsame, String.eqb_refl in Hno.
           discriminate.
      * intros ->. congruence.
    + assert (position < List.length (children p))
        by (apply nth_error_Some; congruence).
      lia.
Qed.

Lemma segmentOf_step (position : nat) (up : list nat) (p e : Element) :
  elementAt d (ElementNode InDocument up) = Some p ->
  nth_error (children p) position = Some e ->
  exists seg,
    PickerVer2.segmentOf (children p) position (tagName e) = "/" ++ seg
    /\ allChars noSlash seg = true
    /\ parseStep seg = Some (pickerStep d position up).
Proof.
  intros Hp He.
  pose proof (Hnames _ _ (eq_trans (elementAt_child d InDocument up position p Hp) He))
    as Hname.
  pose proof (tagNameAt_child d InDocument up p e position Hp He) as Htag.
  unfold PickerVer2.segmentOf, pickerStep.
  unfold childElements. rewrite Hp, Htag.
  destruct ((1 <? 1 + PickerVer2.earlierWithTag (children p) position (tagName e))%N
            || PickerVer2.laterHasTag (children p) position (tagName e)).
  - eexists. split; [reflexivity|]. split.
    + apply ownSegment_chars;
        auto using isNameChar_noSlash, isDigit_noSlash.
    + now apply parseStep_indexed.
  - exists (tagName e). split; [reflexivity|]. split.
    + destruct (isName_chars _ Hname) as [_ Hchars].
      exact (allChars_impl _ _ _ isNameChar_noSlash Hchars).
    + now apply parseStep_bare.
Qed.

Lemma picker_path_steps (Hhtml : tagName (documentElement d) = "html")
    (up : list nat) :
  forall e,
    elementAt d (ElementNode InDocument up) = Some e ->
    parseLocationPath (PickerVer2.xpathOfElement d InDocument up)
    = Some (pickerSteps d up)
    /\ evaluateSteps d (pickerSteps d up) [DocumentNode]
       = [ElementNode InDocument up].
Proof.
  induction up as [|position up IH]; intros e He.
  - cbn [PickerVer2.xpathOfElement pickerSteps evaluateSteps flat_map].
    rewrite (select_html d Hhtml). split; reflexivity.
  - destruct (elementAt_parent d InDocument position up e He)
      as (p & Hp & Hchild).
    destruct (IH p Hp) as (Hparse & Heval).
    pose proof (tagNameAt_child d InDocument up p e position Hp Hchild) as Htag.
    destruct (segmentOf_step position up p e Hp Hchild)
      as (seg & Hseg & Hplain & Hstep).
    cbn [PickerVer2.xpathOfElement pickerSteps].
    unfold childElements. rewrite Hp, Htag, Hseg.
    split.
    + now apply parseLocationPath_snoc.
    + rewrite evaluateSteps_app, Heval. cbn [evaluateSteps flat_map].
      rewrite (select_picker position up p e Hp Hchild). reflexivity.
Qed.

End FullPathFacts.

(** X13: the path [computeFullXPath] prints for an element of the
    document, evaluated from the document, selects that element and no
    other, in every document whose tags are names. *)
Theorem computeFullXPath_round_trip (d : Dom) (up : list nat) (e : Element) :
  NamedElements d ->
  elementAt d (ElementNode InDocument up) = Some e ->
  documentEvaluate d (computeFullXPath d (ElementNode InDocument up))
  = [ElementNode InDocument up].
Proof.
  intros Hnames He.
  destruct (full_path_steps d Hnames up e He) as [Hparse Heval].
  unfold documentEvaluate, computeFullXPath. now rewrite Hparse.
Qed.

Lemma computeFullXPath_round_trip_witness :
  computeFullXPath twoBodyDom (ElementNode InDocument [0; 2])
  = "/html[1]/body[2]/div[1]"
  /\ documentEvaluate twoBodyDom
       (computeFullXPath twoBodyDom (ElementNode InDocument [0; 2]))
     = [ElementNode InDocument [0; 2]].
Proof.
  split; [reflexivity|].
  apply (computeFullXPath_round_trip twoBodyDom [0; 2] (leaf "div" "second")).
  - apply allNamed_NamedElements. reflexivity.
  - reflexivity.
Defined.

(** X14: in a document whose document element is [html] and whose tags are
    names, [getElementByXPath] applied to the path [getXPathForElement]
    returns for an element of the document gives that element back. *)
Theorem getXPathForElement_round_trip (d : Dom) (up : list nat) (e : Element) :
  tagName (documentElement d) = "html" ->
  NamedElements d ->
  elementAt d (ElementNode InDocument up) = Some e ->
  exists path,
    PickerVer2.getXPathForElement d (ElementNode InDocument up) = Returned path
    /\ PickerVer2.getElementByXPath d path = ElementNode InDocument up.
Proof.
  intros Hhtml Hnames He.
  destruct (picker_path_steps d Hnames Hhtml up e He) as [Hparse Heval].
  eexists. split; [reflexivity|].
  unfold PickerVer2.getElementByXPath, documentEvaluate.
  now rewrite Hparse, Heval.
Qed.

Lemma getXPathForElement_round_trip_witness :
  exists path,
    PickerVer2.getXPathForElement twoBodyDom (ElementNode InDocument [0; 2])
    = Returned path
    /\ PickerVer2.getElementByXPath twoBodyDom path
       = ElementNode InDocument [0; 2].
Proof.
  apply (getXPathForElement_round_trip twoBodyDom [0; 2] (leaf "div" "second")).
  - reflexivity.
  - apply allNamed_NamedElements. reflexivity.
  - reflexivity.
Defined.

(* ===================================================================== *)
(** ** The elements a generalised pattern matches *)
(* ===================================================================== *)

Section CoverFacts.

Variable d : Dom.
Hypothesis Htags : PlainTags d.

Lemma absoluteSegments_not_nil (up : list nat) : absoluteSegments d up <> [].
Proof.
  destruct up as [|position up]; cbn [absoluteSegments];
    destruct (Node_eqb _ (body d)); try discriminate.
  intros H. apply app_eq_nil in H as [_ H]. discriminate.
Qed.

Lemma absolute_path_printed (up : list nat) :
  absoluteXPathOfElement d InDocument up
  = "/" ++ join "/" (absoluteSegments d up).
Proof.
  induction up as [|position up IH]; cbn [absoluteXPathOfElement absoluteSegments];
    destruct (Node_eqb _ (body d)); try reflexivity.
  rewrite IH, (join_snoc _ _ (absoluteSegments_not_nil up)).
  unfold ownSegment. now rewrite <- !append_assoc.
Qed.

Lemma isTagChar_notStar (c : ascii) : isTagChar c = true -> notStar c = true.
Proof.
  destruct c as [[|] [|] [|] [|] [|] [|] [|] [|]]; vm_compute; congruence.
Qed.

Lemma printed_segment_chars (p : ascii -> bool) (name : string) (n : N) :
  (forall c, isTagChar c = true -> p c = true) ->
  (forall c, isDigit c = true -> p c = true) ->
  p "["%char = true -> p "]"%char = true ->
  allChars isTagChar name = true ->
  allChars p (name ++ "[" ++ ofNumber n ++ "]") = true.
Proof.
  intros Hn Hd Ho Hc Hname.
  rewrite allChars_append. simpl. rewrite allChars_append. simpl.
  rewrite (allChars_impl isTagChar p name Hn Hname).
  rewrite (allChars_impl isDigit p _ Hd (ofNumber_digits n)).
  now rewrite Ho, Hc.
Qed.

Lemma child_tag (position : nat) (up : list nat) (p e : Element) :
  elementAt d (ElementNode InDocument up) = Some p ->
  nth_error (children p) position = Some e ->
  tagNameAt d (ElementNode InDocument (position :: up)) = tagName e
  /\ tagName e <> EmptyString
  /\ allChars isTagChar (tagName e) = true.
Proof.
  intros Hp He.
  split; [exact (tagNameAt_child d InDocument up p e position Hp He)|].
  apply (Htags (position :: up)).
  now rewrite (elementAt_child d InDocument up position p Hp).
Qed.

Lemma ownSegment_eq (position : nat) (up : list nat) (p e : Element) :
  elementAt d (ElementNode InDocument up) = Some p ->
  nth_error (children p) position = Some e ->
  ownSegment d InDocument position up
  = tagName e ++ "["
    ++ ofNumber (1 + N.of_nat (sameTagBefore (children p) position (tagName e)))
    ++ "]".
Proof.
  intros Hp He. destruct (child_tag position up p e Hp He) as (Htag & Hne & _).
  unfold ownSegment, childElements. rewrite Hp, Htag.
  now rewrite (countSameTagBefore_eq (tagName e) (children p) Hne).
Qed.

Lemma ownSegment_parsed (position : nat) (up : list nat) (p e : Element) :
  elementAt d (ElementNode InDocument up) = Some p ->
  nth_error (children p) position = Some e ->
  parseSegment (ownSegment d InDocument position up)
  = {| tag := tagName e;
       index := Some (1 + N.of_nat (sameTagBefore (children p) position
                                      (tagName e)))%N;
       id := None |}.
Proof.
  intros Hp He. destruct (child_tag position up p e Hp He) as (_ & Hne & Hchars).
  rewrite (ownSegment_eq position up p e Hp He).
  now apply parseSegment_indexed.
Qed.

(** The segments of the path of an element: plain, and canonical. *)
Lemma absoluteSegments_shape (up : list nat) :
  forall e,
    elementAt d (ElementNode InDocument up) = Some e ->
    Forall (fun s => PlainSegment s /\ Canonical s) (absoluteSegments d up).
Proof.
  induction up as [|position up IH]; intros e He; cbn [absoluteSegments];
    destruct (Node_eqb _ (body d));
    try (repeat constructor; discriminate).
  destruct (elementAt_parent d InDocument position up e He) as (p & Hp & Hchild).
  apply Forall_app. split; [exact (IH p Hp)|].
  constructor; [|constructor].
  destruct (child_tag position up p e Hp Hchild) as (_ & Hne & Hchars).
  split.
  - rewrite (ownSegment_eq position up p e Hp Hchild). split.
    + destruct (tagName e); [congruence | discriminate].
    + apply printed_segment_chars;
        auto using isTagChar_noSlash, isDigit_noSlash.
  - unfold Canonical. rewrite (ownSegment_parsed position up p e Hp Hchild).
    now rewrite (ownSegment_eq position up p e Hp Hchild).
Qed.

Lemma absolute_path_segments (up : list nat) (e : Element) :
  elementAt d (ElementNode InDocument up) = Some e ->
  parseXPathToSegments (generateAbsoluteXPath d (ElementNode InDocument up))
  = absoluteSegments d up.
Proof.
  intros He. cbn [generateAbsoluteXPath]. rewrite absolute_path_printed.
  apply parse_printed.
  apply (Forall_impl _ (fun s H => proj1 H) (absoluteSegments_shape up e He)).
Qed.

(** *** The loops of the evaluator, below the document element *)

Lemma wildcardLoop_returns_in (f : Node -> Outcome (list Node)) (name : string) :
  forall childList results,
    (forall child, In child childList -> exists found, f child = Returned found) ->
    exists found, wildcardLoop d f name childList results = Returned found.
Proof.
  induction childList as [|child rest IH]; intros results Hc; simpl.
  - eauto.
  - destruct (hasTag d name child).
    + destruct (Hc child (or_introl eq_refl)) as (sub & ->). simpl.
      apply IH. intros c Hin. apply Hc. now right.
    + apply IH. intros c Hin. apply Hc. now right.
Qed.

Lemma fixedLoop_returns_in (f : Node -> Outcome (list Node)) (name : string)
    (targetIndex : N) :
  forall childList count results,
    (forall child, In child childList -> exists found, f child = Returned found) ->
    exists found,
      fixedLoop d f name targetIndex childList count results = Returned found.
Proof.
  induction childList as [|child rest IH]; intros count results Hc; simpl.
  - eauto.
  - destruct (hasTag d name child).
    + destruct ((count + 1 =? targetIndex)%N).
      * destruct (Hc child (or_introl eq_refl)) as (sub & ->). simpl. eauto.
      * apply IH. intros c Hin. apply Hc. now right.
    + apply IH. intros c Hin. apply Hc. now right.
Qed.

Lemma below_not_sentinel (r : Root) (j : nat) (up : list nat) :
  Node_eqb (ElementNode r (j :: up)) DocumentNode = false
  /\ Node_eqb (ElementNode r (j :: up)) documentElementNode = false.
Proof. split; [reflexivity|]. simpl. apply andb_false_r. Qed.

(** From an element below the root of its tree the evaluator returns,
    whatever the segments. *)
Lemma collectRemaining_returns_below (rest : list string) :
  forall r j up,
    exists found,
      collectRemaining d rest (ElementNode r (j :: up)) = Returned found.
Proof.
  induction rest as [|segment rest IH]; intros r j up.
  - simpl. eauto.
  - cbn [collectRemaining].
    destruct (below_not_sentinel r j up) as [-> ->]. rewrite !andb_false_r.
    assert (Hchildren : forall child,
              In child (childNodes d (ElementNode r (j :: up))) ->
              exists found, collectRemaining d rest child = Returned found).
    { intros child Hin. cbn [childNodes] in Hin.
      apply in_map_iff in Hin as (i & <- & _). apply IH. }
    destruct (includes "[*]" segment);
      [now apply wildcardLoop_returns_in | now apply fixedLoop_returns_in].
Qed.

Lemma concatOutcomes_incl (f : Node -> Outcome (list Node)) (l : list Node)
    (child : Node) (sub : list Node) :
  (forall c, In c l -> exists found, f c = Returned found) ->
  In child l ->
  f child = Returned sub ->
  exists found, concatOutcomes f l = Returned found /\ incl sub found.
Proof.
  induction l as [|x l IH]; intros Hall Hin Hsub; [contradiction|].
  cbn [concatOutcomes].
  destruct (Hall x (or_introl eq_refl)) as (fx & Hfx). rewrite Hfx. simpl.
  assert (Hrest : exists more, concatOutcomes f l = Returned more
                               /\ (In child l -> incl sub more)).
  { destruct (in_dec (fun a b => match Node_eqb a b as v
                                       return (Node_eqb a b = v -> _) with
                                 | true => fun H => left (proj1 (Node_eqb_eq a b) H)
                                 | false => fun H => right (fun E =>
                                     eq_ind true (fun v => v = false -> False)
                                       (fun K => Bool.diff_true_false K) _
                                       (eq_sym (proj2 (Node_eqb_eq a b) E)) H)
                                 end eq_refl) child l) as [Hl | Hl].
    - destruct (IH (fun c Hc => Hall c (or_intror Hc)) Hl Hsub)
        as (more & Hmore & Hincl).
      exists more. auto.
    - assert (Hret : exists more, concatOutcomes f l = Returned more).
      { clear IH Hin Hl. induction l as [|y l IHl]; simpl; [eauto|].
        destruct (Hall y (or_intror (or_introl eq_refl))) as (fy & ->). simpl.
        destruct IHl as (more & ->).
        - intros c [<- | Hc]; apply Hall; [now left | right; now right].
        - simpl. eauto. }
      destruct Hret as (more & Hmore). exists more. split; [exact Hmore|].
      intros Hc. contradiction. }
  destruct Hrest as (more & -> & Hincl). simpl.
  eexists. split; [reflexivity|].
  destruct Hin as [-> | Hin].
  - rewrite Hsub in Hfx. inversion Hfx; subst. now apply incl_appl.
  - apply incl_appr. now apply Hincl.
Qed.

(** The fixed-index loop stops at the child whose printed index is the
    target. *)
Lemma fixedLoop_finds (f : Node -> Outcome (list Node)) (name : string)
    (up : list nat) (siblings : list Element) :
  name <> EmptyString ->
  forall start position e count results,
    (forall j c, nth_error siblings j = Some c ->
       tagNameAt d (ElementNode InDocument ((start + j) :: up)) = tagName c) ->
    nth_error siblings position = Some e ->
    tagName e = name ->
    fixedLoop d f name
      (count + 1 + N.of_nat (sameTagBefore siblings position name))%N
      (map (fun i => ElementNode InDocument (i :: up))
         (seq start (List.length siblings)))
      count results
    = (let* sub := f (ElementNode InDocument ((start + position) :: up)) in
       Returned (results ++ sub)%list).
Proof.
  intros Hname. unfold sameTagBefore.
  induction siblings as [|s siblings IH];
    intros start position e count results Htag He Hsame;
    [destruct position; discriminate|].
  cbn [List.length seq map fixedLoop].
  pose proof (Htag 0 s eq_refl) as H0. rewrite Nat.add_0_r in H0.
  assert (Hrest : forall j c, nth_error siblings j = Some c ->
            tagNameAt d (ElementNode InDocument ((S start + j) :: up))
            = tagName c).
  { intros j c Hj. specialize (Htag (S j) c Hj).
    now rewrite Nat.add_succ_r in Htag. }
  unfold hasTag at 1. rewrite H0.
  destruct position as [|position]; simpl in He.
  - inversion He; subst s. rewrite Hsame, String.eqb_refl.
    apply isEmpty_false in Hname. rewrite Hname.
    cbn [negb andb firstn filter List.length].
    replace (count + 1 + N.of_nat 0)%N with (count + 1)%N by lia.
    rewrite N.eqb_refl, Nat.add_0_r. reflexivity.
  - cbn [firstn filter]. rewrite Nat.add_succ_r.
    specialize (IH (S start) position e).
    destruct (String.eqb_spec (tagName s) name) as [Heq | Hne].
    + rewrite Heq. pose proof Hname as Hn. apply isEmpty_false in Hn.
      rewrite Hn. cbn [negb andb List.length].
      set (k := List.length (filter (fun s0 => tagName s0 =? name)
                               (firstn position siblings))) in *.
      destruct (N.eqb_spec (count + 1) (count + 1 + N.of_nat (S k)))
        as [Habs | _]; [lia|].
      replace (count + 1 + N.of_nat (S k))%N
        with (count + 1 + 1 + N.of_nat k)%N by lia.
      exact (IH (count + 1)%N results Hrest He Hsame).
    + rewrite andb_false_r.
      exact (IH count results Hrest He Hsame).
Qed.

Lemma replaceFirst_absent (needle by_ s : string) :
  includes needle s = false -> replaceFirst needle by_ s = s.
Proof.
  induction s as [|c s IH]; cbn [includes replaceFirst].
  - destruct (stripPrefix needle EmptyString); [discriminate | reflexivity].
  - destruct (stripPrefix needle (String c s)); [discriminate|].
    intros H. now rewrite (IH H).
Qed.

Lemma replaceFirst_star (name : string) :
  allChars isTagChar name = true ->
  replaceFirst "[*]" "[1]" (name ++ "[*]") = name ++ "[1]".
Proof.
  induction name as [|c name IH]; intros H; [reflexivity|].
  simpl in H. apply andb_prop in H as [Hc Hname].
  change (String c name ++ "[*]") with (String c (name ++ "[*]")).
  cbn [replaceFirst stripPrefix].
  destruct (Ascii.eqb_spec "[" c) as [<- | _]; [discriminate|].
  now rewrite (IH Hname).
Qed.

Lemma covers_not_sentinel (q own : string) :
  (exists n, index (parseSegment own) = Some n) ->
  Covers q own ->
  (q =? "html") = false /\ (q =? "body") = false.
Proof.
  intros (n & Hn) [-> | [_ ->]].
  - split.
    + destruct (String.eqb_spec own "html") as [-> | _];
        [discriminate | reflexivity].
    + destruct (String.eqb_spec own "body") as [-> | _];
        [discriminate | reflexivity].
  - apply includes_star_not_sentinel. unfold wildcardSegment.
    now apply includes_append.
Qed.

(** One level down: the results below the child are among the results
    below its parent, for a pattern segment that covers the child's. *)
Lemma covers_step (position : nat) (up : list nat) (p e : Element)
    (q : string) (rest : list string) (sub : list Node) :
  elementAt d (ElementNode InDocument up) = Some p ->
  nth_error (children p) position = Some e ->
  Covers q (ownSegment d InDocument position up) ->
  collectRemaining d rest (ElementNode InDocument (position :: up))
  = Returned sub ->
  exists found,
    collectRemaining d (q :: rest) (ElementNode InDocument up) = Returned found
    /\ incl sub found.
Proof.
  intros Hp He Hq Hsub.
  destruct (child_tag position up p e Hp He) as (Htag & Hne & Hchars).
  pose proof (ownSegment_parsed position up p e Hp He) as Hparsed.
  pose proof (ownSegment_eq position up p e Hp He) as Hown.
  destruct (covers_not_sentinel q _ (ex_intro _ _ (f_equal index Hparsed)) Hq)
    as [Hhtml Hbody].
  assert (Hin : In (ElementNode InDocument (position :: up))
                  (childNodes d (ElementNode InDocument up))).
  { cbn [childNodes]. unfold childElements. rewrite Hp.
    apply in_map_iff. exists position. split; [reflexivity|].
    apply in_seq. split; [lia|]. simpl. apply nth_error_Some. congruence. }
  destruct Hq as [-> | [_ ->]].
  - (* the segment itself: the fixed-index loop *)
    assert (Hnostar : includes "[*]" (ownSegment d InDocument position up) = false).
    { rewrite Hown. apply includes_star_false.
      apply printed_segment_chars; auto using isTagChar_notStar, isDigit_notStar. }
    cbn [collectRemaining]. rewrite Hhtml, Hbody, Hnostar.
    rewrite (replaceFirst_absent _ _ _ Hnostar), Hparsed.
    cbn [andb tag index childNodes]. unfold childElements. rewrite Hp.
    assert (Hidx : indexOrOne
                     (Some (1 + N.of_nat (sameTagBefore (children p) position
                                            (tagName e)))%N)
                   = (0 + 1 + N.of_nat (sameTagBefore (children p) position
                                          (tagName e)))%N).
    { unfold indexOrOne.
      destruct (1 + N.of_nat (sameTagBefore (children p) position (tagName e)))%N
        eqn:Hk; lia. }
    rewrite Hidx.
    rewrite (fixedLoop_finds (collectRemaining d rest) (tagName e) up
               (children p) Hne 0 position e 0%N [] ); [| |exact He|reflexivity].
    + change (0 + position) with position. rewrite Hsub. simpl.
      eexists. split; [reflexivity | apply incl_refl].
    + intros j c Hc. change (0 + j) with j.
      exact (tagNameAt_child d InDocument up p c j Hp Hc).
  - (* the tag with a star: the wildcard loop *)
    rewrite Hparsed. unfold wildcardSegment. cbn [tag].
    rewrite collectRemaining_wildcard;
      [|now apply includes_append | discriminate].
    rewrite (replaceFirst_star _ Hchars).
    change (tagName e ++ "[1]") with (tagName e ++ "[" ++ ofNumber 1 ++ "]").
    rewrite (parseSegment_indexed _ 1 Hne Hchars). cbn [tag].
    apply (concatOutcomes_incl _ _ (ElementNode InDocument (position :: up))).
    + intros c Hc. apply filter_In in Hc as [Hc _]. cbn [childNodes] in Hc.
      apply in_map_iff in Hc as (i & <- & _).
      apply collectRemaining_returns_below.
    + apply filter_In. split; [exact Hin|].
      unfold hasTag. rewrite Htag, String.eqb_refl.
      apply isEmpty_false in Hne. now rewrite Hne.
    + exact Hsub.
Qed.

Lemma covers_bare (q s : string) :
  index (parseSegment s) = None -> Covers q s -> q = s.
Proof. intros Hnone [-> | [(n & Hn) _]]; [reflexivity | congruence]. Qed.

(** The element is among the elements a pattern gives that covers its
    path, segment by segment. *)
Lemma covers_found (up : list nat) :
  forall e qs rest sub,
    elementAt d (ElementNode InDocument up) = Some e ->
    Forall2 Covers qs (absoluteSegments d up) ->
    collectRemaining d rest (ElementNode InDocument up) = Returned sub ->
    exists found,
      collectRemaining d (qs ++ rest) DocumentNode = Returned found
      /\ incl sub found.
Proof.
  induction up as [|position up IH]; intros e qs rest sub He Hqs Hsub;
    cbn [absoluteSegments] in Hqs;
    destruct (Node_eqb _ (body d)) eqn:Hbody.
  - apply Node_eqb_eq in Hbody.
    inversion Hqs as [|q0 ? qs0 ? H0 Hqs0]; subst.
    inversion Hqs0 as [|q1 ? qs1 ? H1 Hqs1]; subst.
    inversion Hqs1; subst.
    apply covers_bare in H0; [|reflexivity].
    apply covers_bare in H1; [|reflexivity]. subst.
    exists sub. split; [|apply incl_refl].
    cbn [app collectRemaining String.eqb Ascii.eqb Bool.eqb andb Node_eqb].
    simpl. rewrite <- Hbody. exact Hsub.
  - inversion Hqs as [|q0 ? qs0 ? H0 Hqs0]; subst. inversion Hqs0; subst.
    apply covers_bare in H0; [|reflexivity]. subst.
    exists sub. split; [exact Hsub | apply incl_refl].
  - apply Node_eqb_eq in Hbody.
    inversion Hqs as [|q0 ? qs0 ? H0 Hqs0]; subst.
    inversion Hqs0 as [|q1 ? qs1 ? H1 Hqs1]; subst.
    inversion Hqs1; subst.
    apply covers_bare in H0; [|reflexivity].
    apply covers_bare in H1; [|reflexivity]. subst.
    exists sub. split; [|apply incl_refl].
    simpl. rewrite <- Hbody. exact Hsub.
  - destruct (elementAt_parent d InDocument position up e He)
      as (p & Hp & Hchild).
    apply Forall2_app_inv_r in Hqs as (qs' & ql & Hqs' & Hql & ->).
    inversion Hql as [|q ? ql' ? Hq Hnil]; subst. inversion Hnil; subst.
    destruct (covers_step position up p e q rest sub Hp Hchild Hq Hsub)
      as (mid & Hmid & Hincl).
    destruct (IH p qs' (q :: rest) mid Hp Hqs' Hmid) as (found & Hfound & Hincl').
    exists found. rewrite <- app_assoc. split; [exact Hfound|].
    intros x Hx. apply Hincl', Hincl, Hx.
Qed.

(** *** The pattern of [compareXPaths] covers the first path *)

Lemma loopSegments_covers (segments1 segments2 : list string) :
  List.length segments1 = List.length segments2 ->
  Forall Canonical segments1 ->
  Forall2 Covers (loopSegments segments1 segments2) segments1.
Proof.
  revert segments2.
  induction segments1 as [|a rest1 IH]; intros [|b rest2] Hlen Hcan;
    try discriminate; [constructor|].
  inversion Hcan as [|? ? Ha Hrest]; subst.
  cbn [loopSegments]. constructor; [|apply IH; [simpl in Hlen; lia | exact Hrest]].
  unfold loopSegment.
  destruct (indexVaries (parseSegment a) (parseSegment b)) eqn:Hv.
  - right. apply indexVaries_spec in Hv as (m & n & Hm & _).
    split; [eauto | reflexivity].
  - left. exact Ha.
Qed.

Lemma wildcardPositions_some (segments : list string) (q : string) :
  In q segments -> includes "[*]" q = true ->
  forall i, wildcardPositions i segments <> [].
Proof.
  induction segments as [|s segments IH]; intros Hin Hq i; [contradiction|].
  cbn [wildcardPositions]. destruct (includes "[*]" s) eqn:Hs; [discriminate|].
  destruct Hin as [-> | Hin]; [congruence | now apply IH].
Qed.

Lemma loopSegments_star (segments1 segments2 : list string) :
  forall i, loopVariable i segments1 segments2 <> [] ->
            exists q, In q (loopSegments segments1 segments2)
                      /\ includes "[*]" q = true.
Proof.
  revert segments2.
  induction segments1 as [|a rest1 IH]; intros [|b rest2] i Hne;
    cbn [loopVariable] in Hne; try congruence.
  cbn [loopSegments]. unfold loopSegment at 1.
  destruct (indexVaries (parseSegment a) (parseSegment b)).
  - eexists. split; [now left|]. unfold wildcardSegment.
    now apply includes_append.
  - destruct (IH rest2 (S i) Hne) as (q & Hin & Hq). exists q. split;
      [now right | exact Hq].
Qed.

End CoverFacts.

Lemma allTags_children (test : string -> bool) (e c : Element) (i : nat) :
  allTags test e = true -> nth_error (children e) i = Some c ->
  allTags test c = true.
Proof.
  destruct e as [t a cl x cs]. simpl. intros H. apply andb_prop in H as [_ H].
  revert i. induction cs as [|c' cs IH]; intros [|i] Hi; simpl in *;
    try discriminate; apply andb_prop in H as [Hc Hrest].
  - now inversion Hi; subst.
  - now apply (IH Hrest i).
Qed.

Lemma allTags_descend (test : string -> bool) (down : list nat) :
  forall e e', allTags test e = true -> descend e down = Some e' ->
               test (tagName e') = true.
Proof.
  induction down as [|i down IH]; intros e e' He Hd; simpl in Hd.
  - inversion Hd; subst. destruct e'; simpl in He.
    now apply andb_prop in He as [He _].
  - destruct (nth_error (children e) i) as [c|] eqn:Hc; [|discriminate].
    apply (IH c e'); [|exact Hd]. now apply (allTags_children test e c i).
Qed.

Lemma allTags_PlainTags (d : Dom) :
  allTags plainTag (documentElement d) = true -> PlainTags d.
Proof.
  intros H up e He. unfold elementAt in He. simpl in He.
  pose proof (allTags_descend plainTag (rev up) (documentElement d) e H He)
    as Ht.
  unfold plainTag in Ht. apply andb_prop in Ht as [H1 H2].
  split; [|exact H2]. apply negb_true_iff in H1. now apply isEmpty_false.
Qed.

(** X15: with two elements of the document selected, [updatePattern]
    returns, and the first selected element is among the matched elements;
    so is the second when at no position exactly one of the two paths has
    an index.  The tags of the document are made of the characters
    [parseSegment] takes for a tag name. *)
Theorem two_selected_are_matched (d : Dom) (st : State) (first second : Selected)
    (up1 up2 : list nat) (e1 e2 : Element) :
  PlainTags d ->
  selectedElements st = [first; second] ->
  element first = ElementNode InDocument up1 ->
  element second = ElementNode InDocument up2 ->
  elementAt d (ElementNode InDocument up1) = Some e1 ->
  elementAt d (ElementNode InDocument up2) = Some e2 ->
  exists st',
    updatePattern d st = Normal st'
    /\ In (element first) (matchedElements st')
    /\ ((forall i, ~ OneIndexNullAt (generateAbsoluteXPath d (element first))
                     (generateAbsoluteXPath d (element second)) i) ->
        In (element second) (matchedElements st')).
Proof.
  intros Htags Hsel Hfirst Hsecond He1 He2.
  unfold updatePattern. rewrite Hsel. cbn [map nth]. rewrite Hfirst, Hsecond.
  set (path1 := generateAbsoluteXPath d (ElementNode InDocument up1)).
  set (path2 := generateAbsoluteXPath d (ElementNode InDocument up2)).
  pose proof (absolute_path_segments d Htags up1 e1 He1) as Hsegs1.
  pose proof (absolute_path_segments d Htags up2 e2 He2) as Hsegs2.
  fold path1 in Hsegs1. fold path2 in Hsegs2.
  destruct (compareXPaths_cases path1 path2)
    as [(Hlen & Hagree & Hne & Heq) | [_ Heq]]; rewrite Heq;
    cbn [isValid pattern notComparable].
  2:{ eexists. split; [reflexivity|]. cbn [matchedElements setMatched].
      split; [now left | intros _; right; now left]. }
  rewrite Hsegs1, Hsegs2 in *.
  set (qs := loopSegments (absoluteSegments d up1) (absoluteSegments d up2)).
  pose proof (absoluteSegments_shape d Htags up1 e1 He1) as Hshape1.
  pose proof (absoluteSegments_shape d Htags up2 e2 He2) as Hshape2.
  assert (Hcan1 : Forall Canonical (absoluteSegments d up1))
    by exact (Forall_impl _ (fun s H => proj2 H) Hshape1).
  assert (Hcan2 : Forall Canonical (absoluteSegments d up2))
    by exact (Forall_impl _ (fun s H => proj2 H) Hshape2).
  assert (Hplain : Forall PlainSegment qs).
  { apply loopSegments_plain.
    exact (Forall_impl _ (fun s H => proj1 H) Hshape1). }
  assert (Hmatch : findMatchingElements d (Some ("/" ++ join "/" qs))
                   = collectRemaining d qs DocumentNode).
  { unfold findMatchingElements.
    change (isEmpty ("/" ++ join "/" qs)) with false. cbv iota.
    rewrite (parse_printed qs Hplain).
    destruct (loopSegments_star _ _ 0 Hne) as (q & Hin & Hq).
    pose proof (wildcardPositions_some qs q Hin Hq 0) as Hw.
    destruct (wildcardPositions 0 qs); [congruence | reflexivity]. }
  rewrite Hmatch.
  destruct (covers_found d Htags up1 e1 qs [] [ElementNode InDocument up1] He1)
    as (found & Hfound & Hincl); [now apply loopSegments_covers | reflexivity|].
  rewrite app_nil_r in Hfound. rewrite Hfound.
  eexists. split; [reflexivity|]. cbn [matchedElements setMatched].
  split; [apply Hincl; now left|].
  intros Hkind.
  assert (Hsame : qs = loopSegments (absoluteSegments d up2)
                         (absoluteSegments d up1)).
  { apply loopSegments_sym; [exact Hlen | exact Hagree|].
    intros j _. pose proof (same_kind_of_not_one_null path1 path2 Hkind j) as H.
    now rewrite Hsegs1, Hsegs2 in H. }
  destruct (covers_found d Htags up2 e2 qs [] [ElementNode InDocument up2] He2)
    as (found2 & Hfound2 & Hincl2); [|reflexivity|].
  - rewrite Hsame. apply loopSegments_covers; [now symmetry | exact Hcan2].
  - rewrite app_nil_r in Hfound2. rewrite Hfound in Hfound2.
    inversion Hfound2; subst. apply Hincl2. now left.
Qed.

Lemma two_selected_are_matched_witness :
  exists st',
    updatePattern sampleDom
      (afterClicks sampleDom [sampleCell 0 1; sampleCell 1 1])
    = Normal st'
    /\ In (sampleCell 0 1) (matchedElements st')
    /\ In (sampleCell 1 1) (matchedElements st').
Proof.
  destruct (two_selected_are_matched sampleDom
              (afterClicks sampleDom [sampleCell 0 1; sampleCell 1 1])
              {| element := sampleCell 0 1;
                 xpath := "/html/body/table[1]/tr[1]/td[2]" |}
              {| element := sampleCell 1 1;
                 xpath := "/html/body/table[1]/tr[2]/td[2]" |}
              [1; 0; 1; 1] [1; 1; 1; 1] (leaf "td" "b") (leaf "td" "e"))
    as (st' & Hupdate & Hfirst & Hsecond).
  - apply allTags_PlainTags. reflexivity.
  - reflexivity.
  - reflexivity.
  - reflexivity.
  - reflexivity.
  - reflexivity.
  - exists st'. split; [exact Hupdate|]. split; [exact Hfirst|].
    apply Hsecond.
    intros i [[H1 H2] | [H1 H2]];
      destruct i as [|[|[|[|[|i]]]]]; vm_compute in H1, H2;
      try discriminate; try (now apply H2); try (now apply H1).
Defined.

(* ===================================================================== *)
(** ** The pattern after the second selected element *)
(* ===================================================================== *)

Section LaterClicks.

Variable d : Dom.
Hypothesis Hstar : StarFree d.

Lemma tagNameAt_star_free (n : Node) : allChars notStar (tagNameAt d n) = true.
Proof.
  unfold tagNameAt. destruct n as [| |r up]; try reflexivity.
  destruct (elementAt d (ElementNode r up)) as [e|] eqn:He; [|reflexivity].
  exact (Hstar r up e He).
Qed.

Lemma absolute_path_star_free (r : Root) (up : list nat) :
  allChars notStar (absoluteXPathOfElement d r up) = true.
Proof.
  induction up as [|position up IH]; cbn [absoluteXPathOfElement];
    destruct (Node_eqb _ (body d)); try reflexivity.
  - destruct (Node_eqb _ documentElementNode); reflexivity.
  - rewrite allChars_append, IH. cbn [andb append allChars].
    rewrite allChars_append, tagNameAt_star_free. cbn [andb append allChars].
    rewrite allChars_append.
    rewrite (allChars_impl isDigit notStar _ isDigit_notStar (ofNumber_digits _)).
    reflexivity.
Qed.

Lemma generated_path_star_free (n : Node) :
  allChars notStar (generateAbsoluteXPath d n) = true.
Proof.
  destruct n as [| |r up]; cbn [generateAbsoluteXPath].
  - destruct (Node_eqb NullNode (body d)); reflexivity.
  - reflexivity.
  - apply absolute_path_star_free.
Qed.

Lemma segments_without_star (path : string) :
  allChars notStar path = true ->
  forall segment, In segment (parseXPathToSegments path) ->
                  includes "[*]" segment = false.
Proof.
  intros H segment Hin. apply includes_star_false.
  rewrite parseXPathToSegments_split in Hin.
  apply filter_In in Hin as [Hin _].
  pose proof (split_chars notStar slash path H) as Hall.
  rewrite Forall_forall in Hall. now apply Hall.
Qed.

Lemma last_star_free (selection : list Selected) :
  allChars notStar
    (last (map (fun sel => generateAbsoluteXPath d (element sel)) selection)
       EmptyString) = true.
Proof.
  induction selection as [|s selection IH]; [reflexivity|].
  cbn [map]. destruct selection as [|s' selection'].
  - apply generated_path_star_free.
  - exact IH.
Qed.

(** The comparison with the latest path fails for a pattern that
    [compareXPaths] gave, and the pattern held stays. *)
Lemma extendWithLatest_keeps (st : State) (current : Pattern)
    (selection : list Selected) :
  FromCompare current ->
  detectedPattern
    (finalState
       (extendWithLatest d st current
          (map (fun sel => generateAbsoluteXPath d (element sel)) selection)))
  = detectedPattern st.
Proof.
  intros (path1 & path2 & Hvalid & ->).
  destruct (compareXPaths_cases path1 path2)
    as [(_ & _ & _ & Heq) | [_ Heq]];
    [|rewrite Heq in Hvalid; discriminate].
  set (paths := map _ selection).
  assert (Htext : patternXPath (patternOfCompare (compareXPaths path1 path2))
                  = pattern (compareXPaths path1 path2)) by reflexivity.
  rewrite Heq in Htext at 2. cbn [pattern] in Htext.
  rewrite (extendWithLatest_invalid d st _ paths _ Htext).
  - apply assignMatched_pattern.
  - pose proof (segments_without_star _ (last_star_free selection)) as Hnew.
    fold paths in Hnew.
    set (text := "/" ++ join "/" _) in *.
    assert (Hpat : pattern (compareXPaths path1 path2) = Some text)
      by now rewrite Heq.
    destruct (Nat.eq_dec (segmentCount text)
                (segmentCount (last paths EmptyString))) as [Hlen | Hlen].
    + apply detect2DPattern_mismatch.
      exact (compare_pattern_mismatch path1 path2 text _ Hpat Hnew Hlen).
    + unfold detect2DPattern. unfold segmentCount in Hlen.
      apply Nat.eqb_neq in Hlen. now rewrite Hlen.
Qed.

Lemma fromCompare_not_multiple (p : Pattern) :
  FromCompare p -> PatternType_eqb (patternType p) TMultiple = false.
Proof.
  intros (path1 & path2 & _ & ->). unfold patternOfCompare. cbn [patternType].
  destruct (2 <=? _)%nat; reflexivity.
Qed.

(** With three or more selected elements [updatePattern] leaves the pattern
    as it was. *)
Lemma updatePattern_keeps (st : State) (held : Pattern) :
  3 <= List.length (selectedElements st) ->
  detectedPattern st = Some held ->
  held = multiplePattern \/ FromCompare held ->
  detectedPattern (finalState (updatePattern d st)) = detectedPattern st.
Proof.
  intros Hlen Hheld Hshape. unfold updatePattern.
  destruct (selectedElements st) as [|first [|second [|third others]]] eqn:Hsel;
    try (simpl in Hlen; lia).
  rewrite <- Hsel. rewrite Hheld.
  set (paths := map _ (selectedElements st)).
  destruct Hshape as [-> | Hfrom].
  - cbn [PatternType_eqb patternType multiplePattern].
    destruct (isValid (compareXPaths (nth 0 paths EmptyString)
                         (nth 1 paths EmptyString))) eqn:Hvalid.
    + rewrite <- Hheld. apply extendWithLatest_keeps.
      eexists _, _. split; [exact Hvalid | reflexivity].
    + reflexivity.
  - rewrite (fromCompare_not_multiple held Hfrom).
    rewrite <- Hheld. now apply extendWithLatest_keeps.
Qed.

Lemma updatePattern_held (st : State) :
  (3 <= List.length (selectedElements st) ->
   exists p, detectedPattern st = Some p
             /\ (p = multiplePattern \/ FromCompare p)) ->
  HeldFromCompare (finalState (updatePattern d st)).
Proof.
  intros Hheld Hlen. rewrite updatePattern_selected in Hlen.
  destruct (selectedElements st) as [|first [|second [|third others]]] eqn:Hsel;
    try (simpl in Hlen; lia).
  - unfold updatePattern. rewrite Hsel.
    set (paths := map _ [first; second]).
    destruct (isValid (compareXPaths (nth 0 paths EmptyString)
                         (nth 1 paths EmptyString))) eqn:Hvalid.
    + eexists. rewrite assignMatched_pattern. split; [reflexivity|].
      right. eexists _, _. split; [exact Hvalid | reflexivity].
    + exists multiplePattern. split; [reflexivity | now left].
  - destruct Hheld as (p & Hp & Hshape); [simpl; lia|].
    exists p. split; [|exact Hshape].
    rewrite <- Hp. apply (updatePattern_keeps st p); [|exact Hp | exact Hshape].
    rewrite Hsel. simpl. lia.
Qed.

Lemma handleEvent_held (st : State) (ev : Event) :
  HeldFromCompare st -> HeldFromCompare (handleEvent d st ev).
Proof.
  intros Hheld.
  destruct ev as [target | target | key | |]; cbn [handleEvent].
  - unfold handleElementClick.
    destruct (negb (isSelectionModeActive st)); [exact Hheld|].
    destruct (elementAt d target) as [e|]; [|exact Hheld].
    destruct (existsb _ (classList e)); [exact Hheld|].
    destruct (findSelected target (selectedElements st)); [exact Hheld|].
    destruct (generateXPath d target) as [path|]; [|exact Hheld].
    apply updatePattern_held. cbn [setSelected selectedElements detectedPattern].
    rewrite length_app. simpl. intros Hlen. apply Hheld. lia.
  - unfold handleElementDoubleClick.
    destruct (negb (isSelectionModeActive st)); [exact Hheld|].
    destruct (findSelected target (selectedElements st)) as [i|];
      [|exact Hheld].
    apply updatePattern_held. cbn [setSelected selectedElements detectedPattern].
    intros Hlen. pose proof (removeAt_length (selectedElements st) i).
    apply Hheld. lia.
  - unfold handleKeyDown, deactivateSelectionMode.
    destruct (_ && _); [|exact Hheld].
    destruct (negb (isSelectionModeActive st)); exact Hheld.
  - unfold toggleSelectionMode, deactivateSelectionMode.
    destruct (isSelectionModeActive st); exact Hheld.
  - intros Hlen. simpl in Hlen. lia.
Qed.

End LaterClicks.

Lemma allTags_StarFree (d : Dom) :
  allTags (allChars notStar) (documentElement d) = true ->
  forallb (allTags (allChars notStar)) (detached d) = true ->
  StarFree d.
Proof.
  intros Hdoc Hdet r up e He. unfold elementAt in He.
  destruct r as [|k]; simpl in He.
  - exact (allTags_descend _ (rev up) (documentElement d) e Hdoc He).
  - destruct (nth_error (detached d) k) as [root|] eqn:Hroot; [|discriminate].
    rewrite forallb_forall in Hdet.
    apply (allTags_descend _ (rev up) root e); [|exact He].
    apply Hdet. now apply nth_error_In in Hroot.
Qed.

(** X16: on a page whose tags hold no star, once two elements are selected
    no further click changes the detected pattern: with the selection at
    three or more, the comparison of the held pattern with the path of the
    latest element always fails, and the pattern stays the one of the first
    two elements.  A double click that leaves three or more selected
    elements leaves the pattern as well. *)
Theorem pattern_is_settled_by_two_elements (d : Dom) (events : list Event)
    (target : Node) :
  StarFree d ->
  (2 <= List.length (selectedElements (runEvents d events)) ->
   detectedPattern (handleEvent d (runEvents d events) (Click target))
   = detectedPattern (runEvents d events))
  /\ (4 <= List.length (selectedElements (runEvents d events)) ->
      detectedPattern (handleEvent d (runEvents d events) (DoubleClick target))
      = detectedPattern (runEvents d events)).
Proof.
  intros Hstar.
  assert (Hheld : HeldFromCompare (runEvents d events)).
  { unfold runEvents. apply fold_invariant.
    - now apply handleEvent_held.
    - intros Hlen. simpl in Hlen. lia. }
  set (st := runEvents d events) in *.
  split; intros Hlen; cbn [handleEvent].
  - unfold handleElementClick.
    destruct (negb (isSelectionModeActive st)); [reflexivity|].
    destruct (elementAt d target) as [e|]; [|reflexivity].
    destruct (existsb _ (classList e)); [reflexivity|].
    destruct (findSelected target (selectedElements st)); [reflexivity|].
    destruct (generateXPath d target) as [path|]; [|reflexivity].
    destruct Hheld as (p & Hp & Hshape); [exact Hlen|].
    set (pushed := setSelected st _).
    apply (updatePattern_keeps d Hstar pushed p); [|exact Hp | exact Hshape].
    unfold pushed. cbn [setSelected selectedElements].
    rewrite length_app. simpl. lia.
  - unfold handleElementDoubleClick.
    destruct (negb (isSelectionModeActive st)); [reflexivity|].
    destruct (findSelected target (selectedElements st)) as [i|] eqn:Hfind;
      [|reflexivity].
    destruct Hheld as (p & Hp & Hshape); [lia|].
    set (removed := setSelected st _).
    apply (updatePattern_keeps d Hstar removed p); [|exact Hp | exact Hshape].
    unfold removed. cbn [setSelected selectedElements].
    assert (Hless : List.length (selectedElements st)
                    <= S (List.length (removeAt i (selectedElements st)))).
    { clear. generalize (selectedElements st). intros l. revert i.
      induction l as [|x l IH]; intros [|i]; simpl; try lia.
      specialize (IH i). lia. }
    lia.
Qed.

Lemma pattern_is_settled_by_two_elements_witness :
  detectedPattern
    (runEvents sampleDom
       [ToggleMessage; Click (sampleCell 0 0); Click (sampleCell 1 0)])
  = Some {| patternType := T1d;
            patternXPath := Some "/html/body/table[1]/tr[*]/td[1]";
            patternVariableIndices := [3] |}
  /\ detectedPattern
       (handleEvent sampleDom
          (runEvents sampleDom
             [ToggleMessage; Click (sampleCell 0 0); Click (sampleCell 1 0)])
          (Click (sampleCell 0 1)))
     = detectedPattern
         (runEvents sampleDom
            [ToggleMessage; Click (sampleCell 0 0); Click (sampleCell 1 0)]).
Proof.
  split; [reflexivity|].
  destruct (pattern_is_settled_by_two_elements sampleDom
              [ToggleMessage; Click (sampleCell 0 0); Click (sampleCell 1 0)]
              (sampleCell 0 1)) as [Hclick _].
  - apply allTags_StarFree; reflexivity.
  - apply Hclick. vm_compute. lia.
Defined.

(* ===================================================================== *)
(** ** The second picker on two siblings *)
(* ===================================================================== *)

Section SiblingFacts.

Variable d : Dom.
Hypothesis Hhtml : tagName (documentElement d) = "html".
Hypothesis Hnames : NamedElements d.

Lemma reverse_app (a b : string) :
  PickerVer2.reverse (a ++ b) = PickerVer2.reverse b ++ PickerVer2.reverse a.
Proof.
  induction a as [|c a IH]; simpl; [now rewrite append_empty_r|].
  now rewrite IH, append_assoc.
Qed.

Lemma reverse_involutive (s : string) :
  PickerVer2.reverse (PickerVer2.reverse s) = s.
Proof.
  induction s as [|c s IH]; simpl; [reflexivity|].
  rewrite reverse_app, IH. reflexivity.
Qed.

Lemma allChars_reverse (p : ascii -> bool) (s : string) :
  allChars p (PickerVer2.reverse s) = allChars p s.
Proof.
  induction s as [|c s IH]; simpl; [reflexivity|].
  rewrite allChars_append, IH. simpl. rewrite andb_true_r. apply andb_comm.
Qed.

Lemma reverse_not_empty (s : string) :
  s <> EmptyString -> isEmpty (PickerVer2.reverse s) = false.
Proof.
  destruct s as [|c s]; [congruence|]. intros _. simpl.
  destruct (PickerVer2.reverse s); reflexivity.
Qed.

Lemma isNameChar_isDot (c : ascii) : isNameChar c = true -> PickerVer2.isDot c = true.
Proof.
  destruct c as [[|] [|] [|] [|] [|] [|] [|] [|]]; vm_compute; congruence.
Qed.

Lemma reverse_indexed (name digits : string) :
  PickerVer2.reverse (name ++ "[" ++ digits ++ "]")
  = String "]" (PickerVer2.reverse digits
                ++ String "[" (PickerVer2.reverse name)).
Proof.
  rewrite reverse_app.
  change (PickerVer2.reverse ("[" ++ digits ++ "]"))
    with (PickerVer2.reverse (digits ++ "]") ++ "[").
  rewrite reverse_app. change (PickerVer2.reverse "]") with "]".
  rewrite !append_assoc. reflexivity.
Qed.

Lemma matchIndexed_indexed (name digits : string) :
  name <> EmptyString -> allChars PickerVer2.isDot name = true ->
  digits <> EmptyString -> allChars isDigit digits = true ->
  PickerVer2.matchIndexed (name ++ "[" ++ digits ++ "]") = Some (name, digits).
Proof.
  intros Hname Hdot Hdigits Hall. unfold PickerVer2.matchIndexed.
  rewrite reverse_indexed. rewrite Ascii.eqb_refl.
  rewrite (span_exact isDigit (PickerVer2.reverse digits)
             (String "[" (PickerVer2.reverse name)));
    [|now rewrite allChars_reverse | reflexivity].
  rewrite Ascii.eqb_refl, (reverse_not_empty digits Hdigits),
    (reverse_not_empty name Hname), allChars_reverse, Hdot.
  cbn [negb andb]. now rewrite !reverse_involutive.
Qed.

Lemma slashSegments_printed (pieces : list string) :
  Forall PlainSegment pieces ->
  PickerVer2.slashSegments ("/" ++ join "/" pieces) = pieces.
Proof.
  intros H. unfold PickerVer2.slashSegments.
  change (split slash ("/" ++ join "/" pieces))
    with (EmptyString :: split slash (join "/" pieces)).
  cbn [tl]. exact (split_join pieces H).
Qed.

Lemma segmentOf_text (siblings : list Element) (position : nat)
    (name : string) :
  PickerVer2.segmentOf siblings position name
  = "/" ++ segmentText siblings position name.
Proof.
  unfold PickerVer2.segmentOf, segmentText.
  destruct (_ || _); reflexivity.
Qed.

Lemma pickerSegments_not_nil (up : list nat) : pickerSegments d up <> [].
Proof.
  destruct up as [|position up]; cbn [pickerSegments]; [discriminate|].
  intros H. apply app_eq_nil in H as [_ H]. discriminate.
Qed.

Lemma picker_path_printed (up : list nat) :
  PickerVer2.xpathOfElement d InDocument up
  = "/" ++ join "/" (pickerSegments d up).
Proof.
  induction up as [|position up IH];
    cbn [PickerVer2.xpathOfElement pickerSegments]; [reflexivity|].
  rewrite IH, segmentOf_text, (join_snoc _ _ (pickerSegments_not_nil up)).
  now rewrite <- !append_assoc.
Qed.

Lemma segmentText_plain (siblings : list Element) (position : nat)
    (name : string) :
  isName name = true -> PlainSegment (segmentText siblings position name).
Proof.
  intros Hname. destruct (isName_chars name Hname) as [Hne Hchars].
  unfold segmentText. destruct (_ || _); split.
  - destruct name; [congruence | discriminate].
  - apply ownSegment_chars; auto using isNameChar_noSlash, isDigit_noSlash.
  - exact Hne.
  - exact (allChars_impl _ _ _ isNameChar_noSlash Hchars).
Qed.

Lemma pickerSegments_plain (up : list nat) :
  forall e, elementAt d (ElementNode InDocument up) = Some e ->
            Forall PlainSegment (pickerSegments d up).
Proof.
  induction up as [|position up IH]; intros e He; cbn [pickerSegments].
  - repeat constructor; discriminate.
  - destruct (elementAt_parent d InDocument position up e He)
      as (p & Hp & Hchild).
    apply Forall_app. split; [exact (IH p Hp)|].
    constructor; [|constructor].
    apply segmentText_plain.
    rewrite (tagNameAt_child d InDocument up p e position Hp Hchild).
    exact (Hnames _ _ He).
Qed.

(** *** The loop of [analyzeXPathPair] on two paths that differ in their
    last segment *)

Lemma analyzeLoop_last (a b name digits1 digits2 : string)
    (common : list string) :
  a <> b ->
  PickerVer2.matchIndexed a = Some (name, digits1) ->
  PickerVer2.matchIndexed b = Some (name, digits2) ->
  forall i acc vi,
    PickerVer2.analyzeLoop i (common ++ [a]) (common ++ [b]) acc vi
    = Some ((acc ++ common ++ [(name ++ "[*]")%string])%list,
            Some (i + List.length common)).
Proof.
  intros Hab Ha Hb.
  induction common as [|s common IH]; intros i acc vi.
  - cbn [app PickerVer2.analyzeLoop].
    destruct (String.eqb_spec a b) as [Heq | _]; [contradiction|].
    rewrite Ha, Hb, String.eqb_refl. simpl. now rewrite Nat.add_0_r.
  - cbn [app PickerVer2.analyzeLoop]. rewrite String.eqb_refl.
    rewrite IH. rewrite <- app_assoc. cbn [app List.length].
    now rewrite Nat.add_succ_r.
Qed.

Lemma sameTagBefore_lt (name : string) (l : list Element) :
  forall i1 i2 e1,
    i1 < i2 -> nth_error l i1 = Some e1 -> tagName e1 = name ->
    sameTagBefore l i1 name < sameTagBefore l i2 name.
Proof.
  unfold sameTagBefore.
  induction l as [|x l IH]; intros i1 i2 e1 Hlt H1 Htag;
    [destruct i1; discriminate|].
  destruct i2 as [|i2]; [lia|]. cbn [firstn filter].
  destruct i1 as [|i1]; simpl in H1.
  - inversion H1; subst x. rewrite Htag, String.eqb_refl. simpl. lia.
  - assert (Hrec := IH i1 i2 e1 ltac:(lia) H1 Htag).
    cbn [firstn filter]. destruct (tagName x =? name); simpl; lia.
Qed.

Lemma later_has_tag (name : string) (l : list Element) (i1 i2 : nat)
    (e2 : Element) :
  i1 < i2 -> nth_error l i2 = Some e2 -> tagName e2 = name ->
  PickerVer2.laterHasTag l i1 name = true.
Proof.
  intros Hlt H2 Htag. unfold PickerVer2.laterHasTag.
  apply existsb_exists. exists e2. split.
  - apply (nth_error_In _ (i2 - S i1)). rewrite nth_error_skipn.
    now replace (S i1 + (i2 - S i1)) with i2 by lia.
  - rewrite Htag. apply String.eqb_refl.
Qed.

(** The text printed for one of two siblings with the same tag carries its
    index. *)
Lemma segmentText_indexed (l : list Element) (i other : nat)
    (e e' : Element) :
  i <> other ->
  nth_error l i = Some e -> nth_error l other = Some e' ->
  tagName e' = tagName e ->
  segmentText l i (tagName e)
  = tagName e ++ "["
    ++ ofNumber (1 + N.of_nat (sameTagBefore l i (tagName e))) ++ "]".
Proof.
  intros Hne Hi Hother Htag. unfold segmentText.
  rewrite earlierWithTag_eq.
  destruct (Nat.lt_trichotomy i other) as [Hlt | [Heq | Hgt]]; [|lia|].
  - rewrite (later_has_tag (tagName e) l i other e' Hlt Hother Htag).
    now rewrite orb_true_r.
  - pose proof (sameTagBefore_lt (tagName e) l other i e' Hgt Hother Htag).
    destruct (N.ltb_spec 1 (1 + N.of_nat (sameTagBefore l i (tagName e))));
      [reflexivity | lia].
Qed.

Lemma ofNumber_injective (m n : N) : ofNumber m = ofNumber n -> m = n.
Proof.
  intros H. rewrite <- (parseInt_ofNumber m), <- (parseInt_ofNumber n).
  now rewrite H.
Qed.

Lemma append_cancel (a b c : string) : a ++ b = a ++ c -> b = c.
Proof.
  induction a as [|x a IH]; simpl; intros H; [exact H|].
  inversion H. now apply IH.
Qed.

Lemma append_bracket_cancel (a b : string) : a ++ "]" = b ++ "]" -> a = b.
Proof.
  revert b. induction a as [|x a IH]; intros [|y b] H; simpl in H.
  - reflexivity.
  - inversion H as [[Hx Hrest]]. destruct b; discriminate.
  - inversion H as [[Hx Hrest]]. destruct a; discriminate.
  - inversion H as [[Hx Hrest]]. f_equal. now apply IH.
Qed.

(** *** The probes of [collectElementsByPattern] *)

Lemma probe_selects (up : list nat) (p : Element) (name : string) (k : N) :
  elementAt d (ElementNode InDocument up) = Some p ->
  isName name = true ->
  PickerVer2.getElementByXPath d
    (PickerVer2.xpathOfElement d InDocument up
     ++ "/" ++ name ++ "[" ++ ofNumber k ++ "]")
  = itemOrNull (childrenWithTag d up name) k.
Proof.
  intros Hp Hname.
  destruct (picker_path_steps d Hnames Hhtml up p Hp) as [Hparse Heval].
  unfold PickerVer2.getElementByXPath, documentEvaluate.
  rewrite (parseLocationPath_snoc _ (name ++ "[" ++ ofNumber k ++ "]")
             (pickerSteps d up)
             {| nameTest := name; positionTest := Some k |} Hparse).
  - rewrite evaluateSteps_app, Heval. cbn [evaluateSteps flat_map].
    rewrite app_nil_r. reflexivity.
  - apply ownSegment_chars; auto using isNameChar_noSlash, isDigit_noSlash.
  - now apply parseStep_indexed.
Qed.

Lemma probeLoop_prefix (info : PickerVer2.PatternInfo) (l : list Node) :
  (forall k, PickerVer2.getElementByXPath d (PickerVer2.probePath info k)
             = itemOrNull l k) ->
  Forall (fun n => n <> NullNode) l ->
  forall iterationsLeft start elements,
    PickerVer2.probeLoop d info iterationsLeft (N.of_nat (S start)) elements
    = (elements ++ firstn iterationsLeft (skipn start l))%list.
Proof.
  intros Hprobe Hnodes.
  induction iterationsLeft as [|left IH]; intros start elements;
    cbn [PickerVer2.probeLoop firstn]; [now rewrite app_nil_r|].
  rewrite Hprobe. unfold itemOrNull, nthFromOne.
  destruct (N.of_nat (S start)) eqn:Hk; [lia|]. rewrite <- Hk.
  replace (N.to_nat (N.of_nat (S start)) - 1) with start by lia.
  destruct (nth_error l start) as [x|] eqn:Hx.
  - rewrite (skipn_nth_error l start x Hx). cbn [firstn].
    assert (x <> NullNode).
    { rewrite Forall_forall in Hnodes. apply Hnodes.
      now apply nth_error_In in Hx. }
    replace (N.of_nat (S start) + 1)%N with (N.of_nat (S (S start))) by lia.
    destruct x; [congruence| |]; rewrite IH, <- app_assoc; reflexivity.
  - apply nth_error_None in Hx. rewrite (skipn_all2 l Hx).
    now rewrite app_nil_r.
Qed.

End SiblingFacts.

(** X17: for two children of one element of the document that have the
    same tag, [analyzeXPathPair] on their paths gives a pattern, and
    [collectElementsByPattern] returns the children of that element with
    that tag, in document order, the first thousand of them.  The document
    element is [html] and the tags are names. *)
Theorem siblings_are_collected (d : Dom) (up : list nat) (p e1 e2 : Element)
    (i1 i2 : nat) :
  tagName (documentElement d) = "html" ->
  NamedElements d ->
  elementAt d (ElementNode InDocument up) = Some p ->
  nth_error (children p) i1 = Some e1 ->
  nth_error (children p) i2 = Some e2 ->
  i1 <> i2 ->
  tagName e2 = tagName e1 ->
  exists info,
    PickerVer2.analyzeXPathPair
      (PickerVer2.xpathOfElement d InDocument (i1 :: up))
      (PickerVer2.xpathOfElement d InDocument (i2 :: up))
    = Some info
    /\ PickerVer2.collectElementsByPattern d info
       = firstn 1000 (childrenWithTag d up (tagName e1)).
Proof.
  intros Hhtml Hnames Hp H1 H2 Hne Htag.
  pose proof (Hnames _ _ (eq_trans (elementAt_child d InDocument up i1 p Hp) H1))
    as Hname.
  destruct (isName_chars _ Hname) as [Hnonempty Hchars].
  pose proof (tagNameAt_child d InDocument up p e1 i1 Hp H1) as Htag1.
  pose proof (tagNameAt_child d InDocument up p e2 i2 Hp H2) as Htag2.
  set (name := tagName e1) in *.
  set (k1 := (1 + N.of_nat (sameTagBefore (children p) i1 name))%N).
  set (k2 := (1 + N.of_nat (sameTagBefore (children p) i2 name))%N).
  assert (Hseg1 : segmentText (children p) i1 name
                  = name ++ "[" ++ ofNumber k1 ++ "]")
    by exact (segmentText_indexed (children p) i1 i2 e1 e2 Hne H1 H2 Htag).
  assert (Hseg2 : segmentText (children p) i2 name
                  = name ++ "[" ++ ofNumber k2 ++ "]").
  { pose proof (segmentText_indexed (children p) i2 i1 e2 e1
                  (fun E => Hne (eq_sym E)) H2 H1 (eq_sym Htag)) as H.
    now rewrite Htag in H. }
  assert (Hk : k1 <> k2).
  { unfold k1, k2.
    destruct (Nat.lt_trichotomy i1 i2) as [Hlt | [Heq | Hgt]]; [|lia|].
    - pose proof (sameTagBefore_lt name (children p) i1 i2 e1 Hlt H1 eq_refl).
      lia.
    - pose proof (sameTagBefore_lt name (children p) i2 i1 e2 Hgt H2 Htag).
      lia. }
  assert (Hdiffer : name ++ "[" ++ ofNumber k1 ++ "]"
                    <> name ++ "[" ++ ofNumber k2 ++ "]").
  { intros Heq. apply append_cancel in Heq.
    change ("[" ++ ofNumber k1 ++ "]") with (String "[" (ofNumber k1 ++ "]"))
      in Heq.
    change ("[" ++ ofNumber k2 ++ "]") with (String "[" (ofNumber k2 ++ "]"))
      in Heq.
    inversion Heq as [Hrest]. apply append_bracket_cancel in Hrest.
    now apply ofNumber_injective in Hrest. }
  assert (Hdot : allChars PickerVer2.isDot name = true)
    by exact (allChars_impl _ _ _ isNameChar_isDot Hchars).
  pose proof (matchIndexed_indexed name (ofNumber k1) Hnonempty Hdot
                (ofNumber_nonempty k1) (ofNumber_digits k1)) as Hm1.
  pose proof (matchIndexed_indexed name (ofNumber k2) Hnonempty Hdot
                (ofNumber_nonempty k2) (ofNumber_digits k2)) as Hm2.
  set (common := pickerSegments d up).
  pose proof (pickerSegments_plain d Hnames up p Hp) as Hcommon.
  fold common in Hcommon.
  assert (Hplain : forall k, PlainSegment (name ++ "[" ++ ofNumber k ++ "]")).
  { intros k. split.
    - destruct name; [congruence | discriminate].
    - apply ownSegment_chars; auto using isNameChar_noSlash, isDigit_noSlash. }
  assert (Hpath : forall i seg,
            pickerSegments d (i :: up) = (common ++ [seg])%list ->
            PlainSegment seg ->
            PickerVer2.slashSegments (PickerVer2.xpathOfElement d InDocument (i :: up))
            = (common ++ [seg])%list).
  { intros i seg Hsegs Hseg. rewrite picker_path_printed, Hsegs.
    apply slashSegments_printed. apply Forall_app.
    split; [exact Hcommon | constructor; [exact Hseg | constructor]]. }
  assert (Hsegs1 : PickerVer2.slashSegments
                     (PickerVer2.xpathOfElement d InDocument (i1 :: up))
                   = (common ++ [(name ++ "[" ++ ofNumber k1 ++ "]")%string])%list).
  { apply Hpath; [|apply Hplain]. cbn [pickerSegments]. unfold childElements.
    now rewrite Hp, Htag1, Hseg1. }
  assert (Hsegs2 : PickerVer2.slashSegments
                     (PickerVer2.xpathOfElement d InDocument (i2 :: up))
                   = (common ++ [(name ++ "[" ++ ofNumber k2 ++ "]")%string])%list).
  { apply Hpath; [|apply Hplain]. cbn [pickerSegments]. unfold childElements.
    now rewrite Hp, Htag2, Htag, Hseg2. }
  unfold PickerVer2.analyzeXPathPair. rewrite Hsegs1, Hsegs2.
  rewrite !length_app, Nat.eqb_refl. cbn [negb].
  rewrite (analyzeLoop_last _ _ name _ _ common Hdiffer Hm1 Hm2).
  cbn [Nat.add app].
  rewrite nth_middle, Hm1, firstn_app, firstn_all, Nat.sub_diag.
  cbn [firstn]. rewrite app_nil_r.
  rewrite skipn_app, skipn_all2 by lia.
  replace (S (List.length common) - List.length common) with 1 by lia.
  cbn [skipn app].
  eexists. split; [reflexivity|].
  unfold PickerVer2.collectElementsByPattern.
  change 1%N with (N.of_nat 1).
  rewrite (probeLoop_prefix d _ (childrenWithTag d up name)).
  - reflexivity.
  - intros k. unfold PickerVer2.probePath.
    cbn [PickerVer2.baseSegments PickerVer2.variableTag
         PickerVer2.suffixSegments List.length Nat.ltb Nat.leb].
    rewrite append_empty_r. unfold common.
    rewrite <- (picker_path_printed d up).
    exact (probe_selects d Hhtml Hnames up p name k Hp Hname).
  - apply Forall_forall. intros n Hin. unfold childrenWithTag in Hin.
    apply filter_In in Hin as [Hin _].
    exact (childNodes_not_null d _ n Hin).
Qed.

Lemma siblings_are_collected_witness :
  exists info,
    PickerVer2.analyzeXPathPair
      (PickerVer2.xpathOfElement gapDom InDocument [0; 0; 1])
      (PickerVer2.xpathOfElement gapDom InDocument [2; 0; 1])
    = Some info
    /\ PickerVer2.collectElementsByPattern gapDom info
       = firstn 1000 (childrenWithTag gapDom [0; 1] "li").
Proof.
  apply (siblings_are_collected gapDom [0; 1]
           (parent "ul" [linkItem "one"; parent "li" []; linkItem "three"])
           (linkItem "one") (linkItem "three") 0 2).
  - reflexivity.
  - apply allNamed_NamedElements. reflexivity.
  - reflexivity.
  - reflexivity.
  - reflexivity.
  - lia.
  - reflexivity.
Defined.

(* ===================================================================== *)
(** ** Where the evaluator finds its elements *)
(* ===================================================================== *)

Section DepthFacts.

Variable d : Dom.
Hypothesis Htags : PlainTags d.
Hypothesis Hbody : body d <> NullNode.

Lemma body_is_child :
  exists b c, body d = ElementNode InDocument [b]
              /\ nth_error (children (documentElement d)) b = Some c.
Proof.
  revert Hbody. unfold body.
  destruct (tagName (documentElement d) =? "html"); [|congruence].
  destruct (findPosition _ _) as [i|] eqn:Hf; [|congruence].
  intros _. apply findPosition_nth in Hf as (c & Hc & _). eauto.
Qed.

Lemma absoluteSegments_length (up : list nat) :
  List.length (absoluteSegments d up) = S (List.length up).
Proof.
  destruct body_is_child as (b & c & Hb & _).
  induction up as [|position up IH]; cbn [absoluteSegments];
    destruct (Node_eqb _ (body d)) eqn:Heq; try reflexivity.
  - apply Node_eqb_eq in Heq. rewrite Hb in Heq. discriminate.
  - apply Node_eqb_eq in Heq. rewrite Hb in Heq. inversion Heq; subst.
    reflexivity.
  - rewrite length_app, IH. simpl. lia.
Qed.

Lemma atDepth_deeper (up : list nat) (i k : nat) (n : Node) :
  AtDepth d (i :: up) k n -> AtDepth d up (S k) n.
Proof.
  intros (down & e & -> & Hlen & He).
  exists (down ++ [i])%list, e. rewrite <- app_assoc. cbn [app].
  split; [reflexivity|]. split; [|exact He].
  rewrite length_app. simpl. lia.
Qed.

Lemma app_same_length {A : Type} (a a' b b' : list A) :
  List.length a = List.length a' -> (a ++ b = a' ++ b')%list ->
  a = a' /\ b = b'.
Proof.
  revert a'. induction a as [|x a IH]; intros [|y a'] Hlen H; simpl in *;
    try discriminate; [auto|].
  inversion H; subst. inversion Hlen as [Hl].
  destruct (IH a' Hl H2) as [-> ->]. auto.
Qed.

Lemma atDepth_one_parent (up : list nat) (i j k : nat) (n : Node) :
  AtDepth d (i :: up) k n -> AtDepth d (j :: up) k n -> i = j.
Proof.
  intros (down & e & -> & Hlen & _) (down' & e' & Heq & Hlen' & _).
  inversion Heq as [Hlists].
  destruct (app_same_length down down' (i :: up) (j :: up)) as [_ H];
    [congruence | exact Hlists|].
  now inversion H.
Qed.

Lemma concatOutcomes_children (f : Node -> Outcome (list Node))
    (up : list nat) (k : nat) (l : list nat) :
  NoDup l ->
  (forall i found, In i l ->
     f (ElementNode InDocument (i :: up)) = Returned found ->
     NoDup found /\ Forall (AtDepth d (i :: up) k) found) ->
  forall found,
    concatOutcomes f (map (fun i => ElementNode InDocument (i :: up)) l)
    = Returned found ->
    NoDup found
    /\ Forall (fun n => exists i, In i l /\ AtDepth d (i :: up) k n) found.
Proof.
  induction l as [|i l IH]; intros Hnodup Hf found H; cbn [map concatOutcomes] in H.
  - inversion H; subst. split; constructor.
  - inversion Hnodup as [|? ? Hnotin Hrest]; subst.
    destruct (f (ElementNode InDocument (i :: up))) as [sub|] eqn:Hsub;
      simpl in H; [|discriminate].
    destruct (concatOutcomes f _) as [more|] eqn:Hmore; simpl in H;
      [|discriminate].
    inversion H; subst. clear H.
    destruct (Hf i sub (or_introl eq_refl) Hsub) as [Hnd Hat].
    destruct (IH Hrest (fun j fj Hj => Hf j fj (or_intror Hj)) more eq_refl)
      as [Hnd' Hat'].
    split.
    + apply NoDup_app; [exact Hnd | exact Hnd'|].
      intros n Hn Hn'.
      rewrite Forall_forall in Hat, Hat'.
      destruct (Hat' n Hn') as (j & Hj & Hdeep).
      pose proof (atDepth_one_parent up i j k n (Hat n Hn) Hdeep). subst j.
      contradiction.
    + apply Forall_app. split.
      * apply (Forall_impl _ (fun n Hn => ex_intro _ i (conj (or_introl eq_refl) Hn)) Hat).
      * apply (Forall_impl _ (fun n Hn =>
                 match Hn with
                 | ex_intro _ j (conj Hj Hd) => ex_intro _ j (conj (or_intror Hj) Hd)
                 end) Hat').
Qed.

Lemma filter_children (P : Node -> bool) (up : list nat) (l : list nat) :
  filter P (map (fun i => ElementNode InDocument (i :: up)) l)
  = map (fun i => ElementNode InDocument (i :: up))
      (filter (fun i => P (ElementNode InDocument (i :: up))) l).
Proof.
  induction l as [|i l IH]; simpl; [reflexivity|].
  destruct (P (ElementNode InDocument (i :: up))); simpl; now rewrite IH.
Qed.

Lemma fixedLoop_cases (f : Node -> Outcome (list Node)) (name : string)
    (targetIndex : N) :
  forall childList count results found,
    fixedLoop d f name targetIndex childList count results = Returned found ->
    found = results
    \/ exists child sub, In child childList /\ f child = Returned sub
                         /\ found = (results ++ sub)%list.
Proof.
  induction childList as [|child rest IH]; intros count results found H;
    simpl in H.
  - inversion H. now left.
  - destruct (hasTag d name child).
    + destruct ((count + 1 =? targetIndex)%N).
      * destruct (f child) as [sub|] eqn:Hsub; simpl in H; [|discriminate].
        inversion H; subst. right. exists child, sub. simpl. auto.
      * apply IH in H as [-> | (c & sub & Hin & Hc & ->)]; [now left|].
        right. exists c, sub. simpl. auto.
    + apply IH in H as [-> | (c & sub & Hin & Hc & ->)]; [now left|].
      right. exists c, sub. simpl. auto.
Qed.

(** What the evaluator returns from an element of the document: elements
    of the document, each once, as many levels below it as there are
    segments. *)
Lemma collect_at_depth (segments : list string) :
  forall up p found,
    elementAt d (ElementNode InDocument up) = Some p ->
    collectRemaining d segments (ElementNode InDocument up) = Returned found ->
    NoDup found /\ Forall (AtDepth d up (List.length segments)) found.
Proof.
  induction segments as [|segment rest IH]; intros up p found Hp H.
  - simpl in H. inversion H; subst. split.
    + repeat constructor. intros [].
    + constructor; [|constructor]. exists [], p. auto.
  - cbn [collectRemaining] in H.
    change (Node_eqb (ElementNode InDocument up) DocumentNode) with false in H.
    rewrite andb_false_r in H.
    destruct ((segment =? "body")
              && Node_eqb (ElementNode InDocument up) documentElementNode)
      eqn:Hsentinel.
    + apply andb_prop in Hsentinel as [_ Hroot].
      apply Node_eqb_eq in Hroot. inversion Hroot; subst up.
      destruct body_is_child as (b & c & Hb & Hc). rewrite Hb in H.
      assert (Hat : elementAt d (ElementNode InDocument [b]) = Some c)
        by now rewrite (elementAt_child d InDocument [] b (documentElement d)
                          eq_refl).
      destruct (IH [b] c found Hat H) as [Hnd Hdeep].
      split; [exact Hnd|].
      exact (Forall_impl _ (fun n Hn => atDepth_deeper [] b _ n Hn) Hdeep).
    + assert (Hchild : forall i found',
                In i (seq 0 (List.length (children p))) ->
                collectRemaining d rest (ElementNode InDocument (i :: up))
                = Returned found' ->
                NoDup found'
                /\ Forall (AtDepth d (i :: up) (List.length rest)) found').
      { intros i found' Hi Hfound. apply in_seq in Hi.
        destruct (nth_error (children p) i) as [c|] eqn:Hc;
          [|apply nth_error_None in Hc; lia].
        apply (IH (i :: up) c found'); [|exact Hfound].
        now rewrite (elementAt_child d InDocument up i p Hp). }
      cbn [childNodes] in H. unfold childElements in H. rewrite Hp in H.
      destruct (includes "[*]" segment).
      * rewrite wildcardLoop_concat, bind_returned, filter_children in H.
        destruct (concatOutcomes_children (collectRemaining d rest) up
                    (List.length rest) _ (NoDup_filter _ (seq_NoDup _ 0))
                    (fun i f' Hi => Hchild i f' (proj1 (proj1 (filter_In _ _ _) Hi)))
                    found H) as [Hnd Hdeep].
        split; [exact Hnd|].
        apply (Forall_impl _ (fun n Hn =>
                 match Hn with
                 | ex_intro _ i (conj _ Hd) => atDepth_deeper up i _ n Hd
                 end) Hdeep).
      * apply fixedLoop_cases in H as [-> | (child & sub & Hin & Hsub & ->)];
          [split; constructor|].
        apply in_map_iff in Hin as (i & <- & Hi).
        destruct (Hchild i sub Hi Hsub) as [Hnd Hdeep].
        split; [exact Hnd|].
        exact (Forall_impl _ (fun n Hn => atDepth_deeper up i _ n Hn) Hdeep).
Qed.

Lemma collect_from_document (segment : string) (rest : list string)
    (found : list Node) :
  collectRemaining d (segment :: rest) DocumentNode = Returned found ->
  NoDup found /\ Forall (AtDepth d [] (List.length rest)) found.
Proof.
  intros H. cbn [collectRemaining] in H.
  change (Node_eqb DocumentNode DocumentNode) with true in H.
  change (Node_eqb DocumentNode documentElementNode) with false in H.
  rewrite andb_true_r, andb_false_r in H.
  assert (Hroot : forall found',
            collectRemaining d rest documentElementNode = Returned found' ->
            NoDup found' /\ Forall (AtDepth d [] (List.length rest)) found')
    by (intros found'; apply (collect_at_depth rest [] (documentElement d));
        reflexivity).
  destruct (segment =? "html"); [now apply Hroot|].
  cbn [childNodes] in H.
  destruct (includes "[*]" segment).
  - cbn [wildcardLoop] in H.
    destruct (hasTag d _ documentElementNode).
    + destruct (collectRemaining d rest documentElementNode) as [sub|] eqn:Hsub;
        simpl in H; [|discriminate].
      inversion H; subst. now apply Hroot.
    + inversion H. split; constructor.
  - apply fixedLoop_cases in H as [-> | (child & sub & Hin & Hsub & ->)];
      [split; constructor|].
    destruct Hin as [<- | []]. now apply Hroot.
Qed.

End DepthFacts.

(** X18: in a document with a body whose tags are made of the characters
    of a tag name, the elements [findMatchingElements] returns for a
    pattern with a wildcard are elements of the document, none of them
    twice, and the path of each has as many segments as the pattern: so
    [extract2DData], which skips the matched elements whose path has
    another number of segments, skips none of them. *)
Theorem matched_elements_fit_the_pattern (d : Dom) (pathText : string)
    (found : list Node) :
  PlainTags d ->
  body d <> NullNode ->
  wildcardPositions 0 (parseXPathToSegments pathText) <> [] ->
  findMatchingElements d (Some pathText) = Returned found ->
  NoDup found
  /\ Forall (fun n => exists e, elementAt d n = Some e) found
  /\ gridNodes d pathText found = found.
Proof.
  intros Htags Hbody Hwild Hfound.
  unfold findMatchingElements in Hfound.
  destruct (isEmpty pathText) eqn:Hempty;
    [apply isEmpty_true in Hempty; subst; now destruct Hwild|].
  destruct (wildcardPositions 0 (parseXPathToSegments pathText)) as [|w ws] eqn:Hw;
    [congruence|].
  cbn [List.length Nat.eqb] in Hfound.
  unfold collectElementsWithWildcard in Hfound. cbn [skipn] in Hfound.
  destruct (parseXPathToSegments pathText) as [|segment rest] eqn:Hsegs;
    [discriminate|].
  destruct (collect_from_document d Hbody segment rest found Hfound)
    as [Hnd Hdeep].
  split; [exact Hnd|]. split.
  - apply (Forall_impl _ (fun n Hn =>
             match Hn with
             | ex_intro _ down (ex_intro _ e (conj _ (conj _ He))) =>
                 ex_intro _ e He
             end) Hdeep).
  - unfold gridNodes, segmentCount. rewrite Hsegs.
    apply forallb_filter_id. apply forallb_forall. intros n Hn.
    rewrite Forall_forall in Hdeep.
    destruct (Hdeep n Hn) as (down & e & -> & Hlen & He).
    rewrite app_nil_r in He |- *.
    unfold hasSegmentCount, pathSegmentsOf.
    rewrite (absolute_path_segments d Htags down e He).
    rewrite (absoluteSegments_length d Hbody down), Hlen.
    apply Nat.eqb_refl.
Qed.

Lemma matched_elements_fit_the_pattern_witness :
  findMatchingElements sampleDom (Some "/html/body/table[1]/tr[*]/td[*]")
  = Returned [sampleCell 0 0; sampleCell 0 1; sampleCell 0 2;
              sampleCell 1 0; sampleCell 1 1; sampleCell 1 2]
  /\ NoDup [sampleCell 0 0; sampleCell 0 1; sampleCell 0 2;
            sampleCell 1 0; sampleCell 1 1; sampleCell 1 2]
  /\ gridNodes sampleDom "/html/body/table[1]/tr[*]/td[*]"
       [sampleCell 0 0; sampleCell 0 1; sampleCell 0 2;
        sampleCell 1 0; sampleCell 1 1; sampleCell 1 2]
     = [sampleCell 0 0; sampleCell 0 1; sampleCell 0 2;
        sampleCell 1 0; sampleCell 1 1; sampleCell 1 2].
Proof.
  assert (Hfound : findMatchingElements sampleDom
                     (Some "/html/body/table[1]/tr[*]/td[*]")
                   = Returned [sampleCell 0 0; sampleCell 0 1; sampleCell 0 2;
                               sampleCell 1 0; sampleCell 1 1; sampleCell 1 2])
    by reflexivity.
  split; [exact Hfound|].
  destruct (matched_elements_fit_the_pattern sampleDom
              "/html/body/table[1]/tr[*]/td[*]"
              [sampleCell 0 0; sampleCell 0 1; sampleCell 0 2;
               sampleCell 1 0; sampleCell 1 1; sampleCell 1 2])
    as (Hnd & _ & Hgrid).
  - apply allTags_PlainTags. reflexivity.
  - discriminate.
  - discriminate.
  - exact Hfound.
  - split; [exact Hnd | exact Hgrid].
Defined.

(* ===================================================================== *)
(** ** Walking up from an element *)
(* ===================================================================== *)

Section WalkFacts.

Variable d : Dom.

Lemma nearestWithTag_spec (name : string) (r : Root) (up : list nat) :
  (exists k,
     k <= List.length up
     /\ nearestWithTag d name r up = ElementNode r (skipn k up)
     /\ hasTag d name (ElementNode r (skipn k up)) = true
     /\ forall j, j < k -> hasTag d name (ElementNode r (skipn j up)) = false)
  \/ (nearestWithTag d name r up = NullNode
      /\ forall j, j <= List.length up ->
                   hasTag d name (ElementNode r (skipn j up)) = false).
Proof.
  induction up as [|i up IH]; cbn [nearestWithTag].
  - destruct (hasTag d name (ElementNode r [])) eqn:Hhere.
    + left. exists 0. repeat split; auto. intros j Hj. lia.
    + right. split; [reflexivity|]. intros j Hj.
      now rewrite skipn_nil.
  - destruct (hasTag d name (ElementNode r (i :: up))) eqn:Hhere.
    + left. exists 0. repeat split; auto; [simpl; lia|]. intros j Hj. lia.
    + destruct IH as [(k & Hk & Heq & Htag & Hless) | [Heq Hnone]].
      * left. exists (S k). cbn [skipn List.length].
        split; [lia|]. split; [exact Heq|]. split; [exact Htag|].
        intros [|j] Hj; [exact Hhere | apply Hless; lia].
      * right. split; [exact Heq|].
        intros [|j] Hj; [exact Hhere | apply Hnone; simpl in Hj; lia].
Qed.

Lemma root_in_chain (r : Root) (up : list nat) :
  In (ElementNode r []) (ancestorsOrSelf r up).
Proof.
  induction up as [|i up IH]; cbn [ancestorsOrSelf]; [now left | now right].
Qed.

Lemma chain_same_root (r r' : Root) (up up' : list nat) :
  In (ElementNode r' up') (ancestorsOrSelf r up) -> r' = r.
Proof.
  induction up as [|i up IH]; cbn [ancestorsOrSelf]; intros [H | H].
  - now inversion H.
  - contradiction.
  - now inversion H.
  - now apply IH.
Qed.

Lemma existsb_In (n : Node) (l : list Node) :
  existsb (Node_eqb n) l = true <-> In n l.
Proof.
  rewrite existsb_exists. split.
  - intros (x & Hin & Heq). apply Node_eqb_eq in Heq. now subst.
  - intros Hin. exists n. split; [exact Hin | now apply Node_eqb_eq].
Qed.

Lemma chain_upwards (r : Root) (up : list nat) (a : Node) :
  In a (ancestorsOrSelf r up) ->
  forall c, In c (chainOf a) -> In c (ancestorsOrSelf r up).
Proof.
  induction up as [|i up IH]; cbn [ancestorsOrSelf]; intros [<- | Ha] c Hc.
  - exact Hc.
  - contradiction.
  - exact Hc.
  - right. now apply (IH Ha).
Qed.

End WalkFacts.

(** X19: [findNearestTable] and [findNearestRow] return, of the element
    and its ancestors, the nearest one whose tag is [table], respectively
    [tr]: no element between it and the start has the tag; they return
    [null] exactly when neither the element nor an ancestor has it. *)
Theorem findNearest_is_nearest (d : Dom) (r : Root) (up : list nat) :
  let nearest (name : string) (found : Node) :=
    (exists k,
       k <= List.length up
       /\ found = ElementNode r (skipn k up)
       /\ tagNameAt d found = name
       /\ forall j, j < k -> tagNameAt d (ElementNode r (skipn j up)) <> name)
    \/ (found = NullNode
        /\ forall j, j <= List.length up ->
                     tagNameAt d (ElementNode r (skipn j up)) <> name) in
  nearest "table" (findNearestTable d (ElementNode r up))
  /\ nearest "tr" (findNearestRow d (ElementNode r up)).
Proof.
  assert (Hyes : forall name n, hasTag d name n = true -> tagNameAt d n = name).
  { intros name n H. unfold hasTag in H. apply andb_prop in H as [_ H].
    now apply String.eqb_eq in H. }
  assert (Hno : forall name n, name <> EmptyString ->
                  hasTag d name n = false -> tagNameAt d n <> name).
  { intros name n Hname H Heq. unfold hasTag in H.
    rewrite Heq, String.eqb_refl in H. apply isEmpty_false in Hname.
    rewrite Hname in H. discriminate. }
  assert (Hgen : forall name, name <> EmptyString ->
    (exists k,
       k <= List.length up
       /\ nearestWithTag d name r up = ElementNode r (skipn k up)
       /\ tagNameAt d (nearestWithTag d name r up) = name
       /\ forall j, j < k -> tagNameAt d (ElementNode r (skipn j up)) <> name)
    \/ (nearestWithTag d name r up = NullNode
        /\ forall j, j <= List.length up ->
                     tagNameAt d (ElementNode r (skipn j up)) <> name)).
  { intros name Hname.
    destruct (nearestWithTag_spec d name r up)
      as [(k & Hk & Heq & Htag & Hless) | [Heq Hnone]].
    - left. exists k. split; [exact Hk|]. split; [exact Heq|].
      split; [rewrite Heq; now apply Hyes|].
      intros j Hj. apply (Hno name _ Hname). now apply Hless.
    - right. split; [exact Heq|]. intros j Hj.
      apply (Hno name _ Hname). now apply Hnone. }
  cbv zeta. split; apply Hgen; discriminate.
Qed.

(** X20: for two elements of one tree, [findCommonAncestor] returns a node
    that is the element or an ancestor of it for both, and the nearest
    such: every common ancestor is that node or an ancestor of it.  For
    elements of different trees it returns [document.body]. *)
Theorem findCommonAncestor_is_nearest (d : Dom) (r r' : Root)
    (up1 up2 : list nat) :
  (r' = r ->
   let found := findCommonAncestor d (ElementNode r up1) (ElementNode r' up2) in
   In found (chainOf (ElementNode r up1))
   /\ In found (chainOf (ElementNode r' up2))
   /\ forall c, In c (chainOf (ElementNode r up1)) ->
                In c (chainOf (ElementNode r' up2)) ->
                In c (chainOf found))
  /\ (r' <> r ->
      findCommonAncestor d (ElementNode r up1) (ElementNode r' up2) = body d).
Proof.
  unfold findCommonAncestor. cbn [chainOf]. split.
  - intros ->. cbv zeta.
    induction up2 as [|i up2 IH]; cbn [ancestorsOrSelf find].
    + rewrite (proj2 (existsb_In _ _) (root_in_chain r up1)).
      split; [apply root_in_chain|]. split; [now left|].
      intros c _ Hc. exact Hc.
    + destruct (existsb (Node_eqb (ElementNode r (i :: up2)))
                  (ancestorsOrSelf r up1)) eqn:Hhere.
      * apply existsb_In in Hhere. split; [exact Hhere|].
        split; [now left|]. intros c _ Hc. exact Hc.
      * destruct IH as (H1 & H2 & Hdeep).
        split; [exact H1|]. split; [now right|].
        intros c Hc1 [<- | Hc2]; [|now apply Hdeep].
        apply existsb_In in Hc1. congruence.
  - intros Hne.
    assert (Hnone : forall l,
              (forall c, In c l -> ~ In c (ancestorsOrSelf r up1)) ->
              find (fun current => existsb (Node_eqb current)
                                     (ancestorsOrSelf r up1)) l = None).
    { induction l as [|c l IHl]; intros Hl; [reflexivity|]. cbn [find].
      destruct (existsb (Node_eqb c) (ancestorsOrSelf r up1)) eqn:Hc.
      - apply existsb_In in Hc. exfalso. exact (Hl c (or_introl eq_refl) Hc).
      - apply IHl. intros c' Hc'. apply Hl. now right. }
    rewrite Hnone; [reflexivity|].
    intros c Hc2 Hc1.
    assert (Hroot : forall up, In c (ancestorsOrSelf r' up) ->
                      exists up', c = ElementNode r' up').
    { induction up as [|i up IHup]; cbn [ancestorsOrSelf];
        intros [<- | H]; eauto; contradiction. }
    destruct (Hroot up2 Hc2) as (up' & ->).
    apply chain_same_root in Hc1. contradiction.
Qed.

Lemma findCommonAncestor_is_nearest_witness :
  findCommonAncestor sampleDom (sampleCell 0 1) (sampleCell 1 2)
  = ElementNode InDocument [1; 1]
  /\ In (findCommonAncestor sampleDom (sampleCell 0 1) (sampleCell 1 2))
       (chainOf (sampleCell 0 1))
  /\ findCommonAncestor sampleDom (sampleCell 0 1) sampleDetached
     = ElementNode InDocument [1].
Proof.
  destruct (findCommonAncestor_is_nearest sampleDom InDocument InDocument
              [1; 0; 1; 1] [2; 1; 1; 1]) as [Hsame _].
  destruct (findCommonAncestor_is_nearest sampleDom InDocument (Detached 0)
              [1; 0; 1; 1] []) as [_ Hother].
  split; [reflexivity|]. split.
  - exact (proj1 (Hsame eq_refl)).
  - apply Hother. discriminate.
Defined.

(* ===================================================================== *)
(** ** [generateXPath] and the id of an element *)
(* ===================================================================== *)

(** X21: [generateXPath] returns the id form for an element whose id is
    not empty and does not start with a digit; and it returns what
    [generateAbsoluteXPath] returns when neither the element nor an
    ancestor has such an id. *)
Theorem generateXPath_and_ids (d : Dom) (r : Root) (up : list nat) :
  (usableId (idAt d (ElementNode r up)) = true ->
   generateXPath d (ElementNode r up)
   = Returned ("//" ++ idRefOpen ++ idAt d (ElementNode r up) ++ idRefClose))
  /\ ((forall j, usableId (idAt d (ElementNode r (skipn j up))) = false) ->
      generateXPath d (ElementNode r up)
      = Returned (generateAbsoluteXPath d (ElementNode r up))).
Proof.
  cbn [generateXPath generateAbsoluteXPath]. split.
  - intros Hid. unfold usableId, idAt in Hid.
    destruct up as [|i up]; cbn [xpathOfElement]; unfold idAt; now rewrite Hid.
  - induction up as [|i up IH]; intros Hnone.
    + pose proof (Hnone 0) as H0. cbn [skipn] in H0. unfold usableId, idAt in H0.
      cbn [xpathOfElement absoluteXPathOfElement]. now rewrite H0.
    + pose proof (Hnone 0) as H0. cbn [skipn] in H0. unfold usableId, idAt in H0.
      cbn [xpathOfElement absoluteXPathOfElement]. rewrite H0.
      destruct (Node_eqb (ElementNode r (i :: up)) (body d)); [reflexivity|].
      assert (Hrest : xpathOfElement d r up = absoluteXPathOfElement d r up).
      { assert (H : Returned (xpathOfElement d r up)
                    = Returned (absoluteXPathOfElement d r up)).
        { apply IH. intros j. exact (Hnone (S j)). }
        now inversion H. }
      now rewrite Hrest.
Qed.

Lemma generateXPath_and_ids_witness :
  generateXPath sampleDom (sampleCell 1 2)
  = Returned (generateAbsoluteXPath sampleDom (sampleCell 1 2)).
Proof.
  destruct (generateXPath_and_ids sampleDom InDocument [2; 1; 1; 1])
    as [_ Hplain].
  apply Hplain. intros [|[|[|[|[|j]]]]]; reflexivity.
Defined.

